(** * In-page search: pattern builder, matcher, highlight renderer and
      navigation state of the crystal front end.

    The development embeds [utils/searchUtils.ts], [hooks/useSearch.ts] and
    the terminal adapter of [hooks/useTerminalSearch.ts].  The host platform
    (strings, the RegExp engine restricted to the patterns the pattern
    builder can emit, the DOM tree) is modelled in [Module Host]. *)

From Stdlib Require Import Ascii String DecimalString.
From Stdlib Require Import List Arith Bool Lia.
Import ListNotations.

(* ===================================================================== *)
(** ** Host platform: strings, regular expressions, DOM nodes *)
(* ===================================================================== *)

Module Host.

(** A JavaScript string is a sequence of code units; the model keeps the
    8-bit code units (Latin-1 range). *)
Definition jstring := list ascii.

Definition lit (s : String.string) : jstring := String.list_ascii_of_string s.

Fixpoint jeqb (a b : jstring) : bool :=
  match a, b with
  | [], [] => true
  | x :: a', y :: b' => Ascii.eqb x y && jeqb a' b'
  | _, _ => false
  end.

(** [Number.prototype.toString] on a non-negative integer. *)
Definition numberToString (n : nat) : jstring :=
  lit (DecimalString.NilEmpty.string_of_uint (Nat.to_uint n)).

(** [String.prototype.substring(a, b)]: both indices are clamped to the
    length and swapped when [a > b]. *)
Definition substring (s : jstring) (a b : nat) : jstring :=
  let a' := Nat.min a (length s) in
  let b' := Nat.min b (length s) in
  let lo := Nat.min a' b' in
  let hi := Nat.max a' b' in
  firstn (hi - lo) (skipn lo s).

(** [String.prototype.substring(a)]: up to the end of the string. *)
Definition substringFrom (s : jstring) (a : nat) : jstring :=
  substring s a (length s).

Definition isEmpty (s : jstring) : bool :=
  match s with [] => true | _ => false end.

(** White space and line terminators removed by [String.prototype.trim],
    restricted to the 8-bit code units: TAB, LF, VT, FF, CR, SP, NBSP. *)
Definition isWhiteSpace (c : ascii) : bool :=
  let n := nat_of_ascii c in
  ((9 <=? n) && (n <=? 13)) || (n =? 32) || (n =? 160).

Fixpoint trimStart (s : jstring) : jstring :=
  match s with
  | c :: r => if isWhiteSpace c then trimStart r else s
  | [] => []
  end.

Definition trim (s : jstring) : jstring :=
  rev (trimStart (rev (trimStart s))).

(** *** Regular expressions

    The engine is modelled for the fragment the pattern builder can reach:
    a pattern text is cut into tokens; a pattern made of literal characters
    and word-boundary assertions only is compiled and run, any other token
    (an operator, a class or control escape) is outside the fragment. *)

Inductive token : Type :=
| TChar (c : ascii)        (* a character matched literally *)
| TBoundary                (* the assertion \b *)
| TEscape (c : ascii)      (* any other escape sequence \c *)
| TOperator (c : ascii).   (* a syntax character acting as an operator *)

Definition backslash : ascii := "\"%char.

(** SyntaxCharacter of the pattern grammar: ^ $ \ . * + ? ( ) [ ] { } | *)
Definition isSyntaxChar (c : ascii) : bool :=
  existsb (Ascii.eqb c) (lit "^$\.*+?()[]{}|").

Definition escapeToken (c : ascii) : token :=
  if Ascii.eqb c "b"%char then TBoundary
  else if isSyntaxChar c || Ascii.eqb c "/"%char then TChar c
  else TEscape c.

Fixpoint tokenize (p : jstring) : list token :=
  match p with
  | [] => []
  | c :: rest =>
      if Ascii.eqb c backslash then
        match rest with
        | [] => [TOperator c]
        | d :: rest' => escapeToken d :: tokenize rest'
        end
      else (if isSyntaxChar c then TOperator c else TChar c) :: tokenize rest
  end.

Inductive atom : Type :=
| AChar (c : ascii)
| ABoundary.

Fixpoint compile (ts : list token) : option (list atom) :=
  match ts with
  | [] => Some []
  | TChar c :: r => option_map (cons (AChar c)) (compile r)
  | TBoundary :: r => option_map (cons ABoundary) (compile r)
  | TEscape _ :: _ => None
  | TOperator _ :: _ => None
  end.

(** A RegExp object: pattern text, flags, and the mutable [lastIndex]
    (threaded explicitly by [exec]). *)
Record RegExp : Type := mkRegExp {
  source : jstring;
  global : bool;
  ignoreCase : bool
}.

(** Canonicalize of the engine under the [i] flag without [u]: a code unit
    is compared through its upper-case mapping when that mapping is a single
    code unit.  On the 8-bit code units this maps a-z and the Latin-1 lower
    case letters (except the division sign) 32 positions down; the micro
    sign, sharp s and y-diaeresis have no 8-bit partner and stay. *)
Definition canonicalize (c : ascii) : ascii :=
  let n := nat_of_ascii c in
  if (97 <=? n) && (n <=? 122) then ascii_of_nat (n - 32)
  else if (224 <=? n) && (n <=? 254) && negb (n =? 247) then ascii_of_nat (n - 32)
  else c.

Definition charMatches (ic : bool) (c d : ascii) : bool :=
  if ic then Ascii.eqb (canonicalize c) (canonicalize d) else Ascii.eqb c d.

(** Word characters of \b: A-Z a-z 0-9 _ *)
Definition isWordChar (c : ascii) : bool :=
  let n := nat_of_ascii c in
  ((48 <=? n) && (n <=? 57)) || ((65 <=? n) && (n <=? 90))
  || ((97 <=? n) && (n <=? 122)) || (n =? 95).

Definition wordAt (text : jstring) (i : nat) : bool :=
  match nth_error text i with
  | Some c => isWordChar c
  | None => false
  end.

Definition isWordBoundary (text : jstring) (i : nat) : bool :=
  let a := match i with 0 => false | S j => wordAt text j end in
  xorb a (wordAt text i).

(** Match the atoms against [text] starting at index [i]; the result is the
    index just after the match. *)
Fixpoint matchAtoms (ic : bool) (p : list atom) (text : jstring) (i : nat)
  : option nat :=
  match p with
  | [] => Some i
  | AChar c :: p' =>
      match nth_error text i with
      | Some d => if charMatches ic c d then matchAtoms ic p' text (S i) else None
      | None => None
      end
  | ABoundary :: p' =>
      if isWordBoundary text i then matchAtoms ic p' text i else None
  end.

(** Leftmost match at an index in [i, i + n). *)
Fixpoint searchFrom (ic : bool) (p : list atom) (text : jstring) (i n : nat)
  : option (nat * nat) :=
  match n with
  | 0 => None
  | S n' =>
      match matchAtoms ic p text i with
      | Some e => Some (i, e)
      | None => searchFrom ic p text (S i) n'
      end
  end.

(** [RegExp.prototype.exec] of a global pattern: the search starts at
    [lastIndex]; a success returns the match index and the new [lastIndex]
    (the end of the match); a failure (also when [lastIndex] is past the end
    of the text) returns [None], and [lastIndex] is reset to 0. *)
Definition exec (ic : bool) (p : list atom) (text : jstring) (lastIndex : nat)
  : option (nat * nat) :=
  if length text <? lastIndex then None
  else searchFrom ic p text lastIndex (S (length text - lastIndex)).

(** *** DOM nodes: text nodes and elements (tag name, class list, the
    [data-search-match] attribute, children). *)
Unset Elimination Schemes.
Inductive node : Type :=
| Text (data : jstring)
| Element (tagName : jstring) (classList : list jstring)
          (dataSearchMatch : option jstring) (childNodes : list node).
Set Elimination Schemes.

(** Induction over a tree, with the hypothesis on every child. *)
Fixpoint node_ind (P : node -> Prop)
    (HText : forall s, P (Text s))
    (HElement : forall t c a ch, Forall P ch -> P (Element t c a ch))
    (n : node) {struct n} : P n :=
  match n with
  | Text s => HText s
  | Element t c a ch =>
      HElement t c a ch
        ((fix all (l : list node) : Forall P l :=
            match l with
            | [] => Forall_nil P
            | x :: r => Forall_cons x (node_ind P HText HElement x) (all r)
            end) ch)
  end.

(** [Node.textContent]: the text of the text nodes below, in document
    order. *)
Fixpoint textContent (n : node) : jstring :=
  match n with
  | Text s => s
  | Element _ _ _ ch => concat (map textContent ch)
  end.

Definition textContentOf (l : list node) : jstring :=
  concat (map textContent l).

(** The text nodes a TreeWalker with [SHOW_TEXT] visits below [n]. *)
Fixpoint textNodes (n : node) : list jstring :=
  match n with
  | Text s => [s]
  | Element _ _ _ ch => concat (map textNodes ch)
  end.

Definition hasClass (cls : jstring) (n : node) : bool :=
  match n with
  | Text _ => false
  | Element _ cl _ _ => existsb (jeqb cls) cl
  end.

Definition hasTag (tags : list jstring) (n : node) : bool :=
  match n with
  | Text _ => false
  | Element t _ _ _ => existsb (jeqb t) tags
  end.

(** Merge adjacent text nodes of a child list and drop the empty ones. *)
Fixpoint mergeText (l : list node) : list node :=
  match l with
  | [] => []
  | Text s :: r =>
      match mergeText r with
      | Text s' :: r' => Text (s ++ s') :: r'
      | r' => if isEmpty s then r' else Text s :: r'
      end
  | e :: r => e :: mergeText r
  end.

(** [Node.normalize] on the whole subtree. *)
Fixpoint normalize (n : node) : node :=
  match n with
  | Text s => Text s
  | Element t c a ch => Element t c a (mergeText (map normalize ch))
  end.

End Host.

(* ===================================================================== *)
(** ** utils/searchUtils.ts *)
(* ===================================================================== *)

Module SearchUtils.
Import Host.

(** A reference to an element of the page (the [element] field of a match
    holds the element itself; the model keeps a handle). *)
Definition ElementRef := nat.

Record SearchMatch : Type := mkSearchMatch {
  id : jstring;
  element : ElementRef;
  text : jstring;
  startIndex : nat;
  endIndex : nat
}.

Record SearchOptions : Type := mkSearchOptions {
  caseSensitive : bool;
  wholeWord : bool
}.

(** The character class of [escapeRegExp]: . * + ? ^ $ { } ( ) | [ ] \ *)
Definition isSpecial (c : ascii) : bool :=
  existsb (Ascii.eqb c) (lit ".*+?^${}()|[]\").

(** [string.replace(/[.*+?^${}()|[\]\\]/g, '\\$&')] *)
Fixpoint escapeRegExp (string : jstring) : jstring :=
  match string with
  | [] => []
  | c :: r => (if isSpecial c then [backslash; c] else [c]) ++ escapeRegExp r
  end.

Definition createSearchRegex (query : jstring) (options : SearchOptions)
  : RegExp :=
  let pattern := escapeRegExp query in
  let pattern :=
    if wholeWord options then lit "\b" ++ pattern ++ lit "\b" else pattern in
  (* flags: 'g' when case sensitive, 'gi' otherwise *)
  mkRegExp pattern true (negb (caseSensitive options)).

(** [clone.querySelectorAll('script, style')] followed by [el.remove()] on
    each: the script and style elements below the root are dropped. *)
Fixpoint removeScriptStyle (n : node) : node :=
  match n with
  | Text s => Text s
  | Element t c a ch =>
      Element t c a
        (flat_map
           (fun x => if hasTag [lit "script"; lit "style"] x then []
                     else [removeScriptStyle x]) ch)
  end.

Definition extractTextContent (element : node) : jstring :=
  let clone := removeScriptStyle element in
  textContent clone.

(** The [while ((match = regex.exec(text)) !== null)] loop.  [lastIndex] is
    the cursor held by the RegExp object, [matches] the array built so far;
    [fuel] bounds the number of iterations, and [None] means the bound was
    reached with the loop still running. *)
Fixpoint matchLoop (fuel : nat) (ic : bool) (p : list atom) (text : jstring)
    (element : ElementRef) (elementId : jstring)
    (lastIndex : nat) (matches : list SearchMatch)
  : option (list SearchMatch) :=
  match fuel with
  | 0 => None
  | S fuel' =>
      match exec ic p text lastIndex with
      | None => Some matches
      | Some (index, lastIndex1) =>
          let match0 := substring text index lastIndex1 in
          let m := mkSearchMatch
                     (elementId ++ lit "-" ++ numberToString (length matches))
                     element
                     match0
                     index
                     (index + length match0) in
          (* Prevent infinite loop on zero-length matches *)
          let lastIndex2 :=
            if index =? lastIndex1 then S lastIndex1 else lastIndex1 in
          matchLoop fuel' ic p text element elementId lastIndex2 (matches ++ [m])
      end
  end.

(** [findTextMatches], the loop bounded by [length text + 2 + extra]
    iterations: [None] stands for a pattern outside the modelled fragment or
    a loop still running when the bound is reached. *)
Definition findTextMatchesWithin (extra : nat) (element : node)
    (ref : ElementRef) (query : jstring) (options : SearchOptions)
    (elementId : jstring) : option (list SearchMatch) :=
  let text := extractTextContent element in
  let regex := createSearchRegex query options in
  match compile (tokenize (source regex)) with
  | None => None
  | Some p =>
      matchLoop (length text + 2 + extra) (ignoreCase regex) p text ref
        elementId 0 []
  end.

Definition findTextMatches (element : node) (ref : ElementRef)
    (query : jstring) (options : SearchOptions) (elementId : jstring)
  : option (list SearchMatch) :=
  findTextMatchesWithin 0 element ref query options elementId.

(** [[...matches].sort((a, b) => b.startIndex - a.startIndex)]: a stable
    sort by descending start index. *)
Fixpoint insertDesc (m : SearchMatch) (l : list SearchMatch)
  : list SearchMatch :=
  match l with
  | [] => [m]
  | x :: r =>
      if startIndex x <=? startIndex m then m :: x :: r
      else x :: insertDesc m r
  end.

Fixpoint sortDesc (l : list SearchMatch) : list SearchMatch :=
  match l with
  | [] => []
  | m :: r => insertDesc m (sortDesc r)
  end.

(** [matches.findIndex(m => m.id === id)]; [None] stands for -1. *)
Fixpoint findIndex (ident : jstring) (matches : list SearchMatch)
  : option nat :=
  match matches with
  | [] => None
  | m :: r =>
      if jeqb (id m) ident then Some 0 else option_map S (findIndex ident r)
  end.

Definition highlightClass : jstring := lit "search-highlight".
Definition currentClass : jstring := lit "search-highlight-current".

Definition isHighlight (n : node) : bool := hasClass highlightClass n.

(** [removeHighlights]: every element of class [search-highlight] below the
    root is replaced by a text node holding its text, and the parent of each
    replaced element is normalized.  (A highlight nested in a replaced one
    is detached together with it.) *)
Fixpoint removeHighlights (element : node) : node :=
  match element with
  | Text s => Text s
  | Element t c a ch =>
      let ch' :=
        map (fun x => if isHighlight x then Text (textContent x)
                      else removeHighlights x) ch in
      Element t c a
        (if existsb isHighlight ch then mergeText (map normalize ch') else ch')
  end.

(** In the predicate of [nodeMatches]: the match falls within the node. *)
Definition fallsWithin (nodeStart nodeEnd : nat) (m : SearchMatch) : bool :=
  (nodeStart <=? startIndex m) && (endIndex m <=? nodeEnd).

(** The highlight span built for a match. *)
Definition highlightSpan (matches : list SearchMatch)
    (currentMatchIndex : option nat) (m : SearchMatch) (matchText : jstring)
  : node :=
  let current :=
    match currentMatchIndex with
    | None => false
    | Some k =>
        match findIndex (id m) matches with
        | Some matchIndex => matchIndex =? k
        | None => false
        end
    end in
  Element (lit "span")
    (highlightClass :: if current then [currentClass] else [])
    (Some (id m))
    (if isEmpty matchText then [] else [Text matchText]).

(** The body of [for (const textNode of textNodes)]: the nodes that stand in
    the place of the text node afterwards.  The inner loop over
    [nodeMatches.reverse()] leaves through [break] at the end of its first
    iteration, so only the head of the reversed array is processed. *)
Definition highlightTextNode (matches sortedMatches : list SearchMatch)
    (currentMatchIndex : option nat) (nodeText : jstring)
    (currentTextOffset : nat) : list node :=
  let nodeStart := currentTextOffset in
  let nodeEnd := currentTextOffset + length nodeText in
  let nodeMatches := filter (fallsWithin nodeStart nodeEnd) sortedMatches in
  match rev nodeMatches with
  | [] => [Text nodeText]
  | m :: _ =>
      let remainingText := nodeText in
      let offset := 0 in
      let relativeStart := startIndex m - nodeStart in
      let relativeEnd := endIndex m - nodeStart in
      let beforeText := substring remainingText offset relativeStart in
      let matchText := substring remainingText relativeStart relativeEnd in
      let afterText := substringFrom remainingText relativeEnd in
      let highlight := highlightSpan matches currentMatchIndex m matchText in
      (if isEmpty beforeText then [] else [Text beforeText])
      ++ [highlight]
      ++ (if isEmpty afterText then [] else [Text afterText])
  end.

(** The walk over the text nodes in document order, [currentTextOffset]
    threaded through it; the result is the nodes replacing [n] and the
    offset after [n]. *)
Fixpoint highlightNode (matches sortedMatches : list SearchMatch)
    (currentMatchIndex : option nat) (n : node) (currentTextOffset : nat)
  : list node * nat :=
  match n with
  | Text nodeText =>
      (highlightTextNode matches sortedMatches currentMatchIndex nodeText
         currentTextOffset,
       currentTextOffset + length nodeText)
  | Element t c a ch =>
      let '(ch', off') :=
        (fix walk (l : list node) (off : nat) {struct l} : list node * nat :=
           match l with
           | [] => ([], off)
           | x :: r =>
               let '(xs, off1) :=
                 highlightNode matches sortedMatches currentMatchIndex x off in
               let '(rs, off2) := walk r off1 in
               (xs ++ rs, off2)
           end) ch currentTextOffset in
      ([Element t c a ch'], off')
  end.

(** The same walk over a list of siblings. *)
Fixpoint highlightNodes (matches sortedMatches : list SearchMatch)
    (currentMatchIndex : option nat) (l : list node) (off : nat)
  : list node * nat :=
  match l with
  | [] => ([], off)
  | x :: r =>
      let '(xs, off1) :=
        highlightNode matches sortedMatches currentMatchIndex x off in
      let '(rs, off2) :=
        highlightNodes matches sortedMatches currentMatchIndex r off1 in
      (xs ++ rs, off2)
  end.

(** [highlightMatches]: the element after the call. *)
Definition highlightMatches (element : node) (matches : list SearchMatch)
    (currentMatchIndex : option nat) : node :=
  let element := removeHighlights element in
  if length matches =? 0 then element
  else
    let sortedMatches := sortDesc matches in
    match element with
    | Text s => Text s
    | Element t c a ch =>
        Element t c a
          (fst (highlightNodes matches sortedMatches currentMatchIndex ch 0))
    end.

(** The decorations below a node, in document order: match id, text and
    whether the span carries the current-match class. *)
Definition isCurrent (n : node) : bool := hasClass currentClass n.

Fixpoint decorationsIn (n : node) : list (option jstring * jstring * bool) :=
  match n with
  | Text _ => []
  | Element _ _ a ch =>
      (if isHighlight n then [(a, textContent n, isCurrent n)] else [])
      ++ concat (map decorationsIn ch)
  end.

Definition decorations (element : node)
  : list (option jstring * jstring * bool) :=
  match element with
  | Text _ => []
  | Element _ _ _ ch => concat (map decorationsIn ch)
  end.

(** [classList.remove] and [classList.add] on a class list. *)
Definition removeClass (cls : jstring) (cl : list jstring) : list jstring :=
  filter (fun x => negb (jeqb cls x)) cl.

Definition addClass (cls : jstring) (cl : list jstring) : list jstring :=
  if existsb (jeqb cls) cl then cl else cl ++ [cls].

(** [querySelectorAll('.search-highlight-current')] followed by
    [classList.remove] on each element found: the class is gone from the
    node and from everything below it. *)
Fixpoint clearCurrent (n : node) : node :=
  match n with
  | Text s => Text s
  | Element t c a ch =>
      Element t (removeClass currentClass c) a (map clearCurrent ch)
  end.

Definition attributeIs (ident : jstring) (a : option jstring) : bool :=
  match a with
  | Some v => jeqb v ident
  | None => false
  end.

(** [querySelector('[data-search-match=...]')] followed by [classList.add]:
    the first element in document order whose attribute is [ident] gets the
    current class; [found] tells whether it was met already.  (The id is
    taken to hold no character that needs escaping in a selector.) *)
Fixpoint markFirst (ident : jstring) (n : node) (found : bool)
  : node * bool :=
  match n with
  | Text s => (Text s, found)
  | Element t c a ch =>
      let hit := negb found && attributeIs ident a in
      let '(ch', found') :=
        (fix walk (l : list node) (f : bool) {struct l} : list node * bool :=
           match l with
           | [] => ([], f)
           | x :: r =>
               let '(x', f1) := markFirst ident x f in
               let '(r', f2) := walk r f1 in
               (x' :: r', f2)
           end) ch (found || hit) in
      (Element t (if hit then addClass currentClass c else c) a ch', found')
  end.

(** The same walk over a list of siblings. *)
Fixpoint markFirstIn (ident : jstring) (l : list node) (found : bool)
  : list node * bool :=
  match l with
  | [] => ([], found)
  | x :: r =>
      let '(x', f1) := markFirst ident x found in
      let '(r', f2) := markFirstIn ident r f1 in
      (x' :: r', f2)
  end.

(** [updateCurrentMatch]; [None] as index stands for -1. *)
Definition updateCurrentMatch (element : node) (matches : list SearchMatch)
    (currentMatchIndex : option nat) : node :=
  match element with
  | Text s => Text s
  | Element t c a ch =>
      (* Remove current highlighting from all matches *)
      let ch := map clearCurrent ch in
      (* Add current highlighting to the active match *)
      match currentMatchIndex with
      | Some k =>
          match nth_error matches k with
          | Some currentMatch =>
              Element t c a (fst (markFirstIn (id currentMatch) ch false))
          | None => Element t c a ch
          end
      | None => Element t c a ch
      end
  end.

(** [element.querySelector('[data-search-match=...]')] finds something:
    some element in the node, or below the element, has [ident] as its
    [data-search-match] attribute. *)
Fixpoint carries (ident : jstring) (n : node) : bool :=
  match n with
  | Text _ => false
  | Element _ _ a ch => attributeIs ident a || existsb (carries ident) ch
  end.

Definition carriesBelow (ident : jstring) (element : node) : bool :=
  match element with
  | Text _ => false
  | Element _ _ _ ch => existsb (carries ident) ch
  end.

(** What [scrollIntoView] is called on: the decoration with the id of the
    match, or the element of the match. *)
Inductive ScrollTarget : Type :=
| ScrollHighlight (ident : jstring) (element : ElementRef)
| ScrollElement (element : ElementRef).

(** [scrollToMatch]; [matchElement] is the node behind [match.element]. *)
Definition scrollToMatch (matchElement : node) (m : SearchMatch)
  : ScrollTarget :=
  if carriesBelow (id m) matchElement
  then ScrollHighlight (id m) (element m)
  else (* Fallback: scroll to the element itself *)
    ScrollElement (element m).

End SearchUtils.

(* ===================================================================== *)
(** ** hooks/useSearch.ts *)
(* ===================================================================== *)

Module UseSearch.
Import Host.
Export SearchUtils(SearchMatch, SearchOptions, mkSearchOptions).

Record SearchState : Type := mkSearchState {
  isOpen : bool;
  query : jstring;
  currentMatch : nat;
  totalMatches : nat;
  caseSensitive : bool;
  wholeWord : bool
}.

Inductive Direction : Type := next | prev.

(** A call that reaches the backend through [options]. *)
Inductive BackendCall : Type :=
| CallSearch (query : jstring) (options : SearchOptions)
| CallNavigate (m : SearchMatch) (direction : Direction)
| CallClose.

(** The callback [() => performSearch(prev.query)] handed to [setTimeout]
    by a toggle.  [performSearch] is the function of the render in which the
    toggle was created; it reads [searchState.caseSensitive] and
    [searchState.wholeWord] of that render, which the closure keeps. *)
Record Timer : Type := mkTimer {
  closureCaseSensitive : bool;
  closureWholeWord : bool;
  timerQuery : jstring
}.

Section Hook.

(** The backend behind [options]: its state, and the three optional
    callbacks as state transformers. *)
Variable Backend : Type.
Variable onSearch :
  option (jstring -> SearchOptions -> Backend -> list SearchMatch * Backend).
Variable onNavigate : option (SearchMatch -> Direction -> Backend -> Backend).
Variable onClose : option (Backend -> Backend).

(** The state behind the hook: the two [useState] cells, the backend, the
    record of the calls made to it, and the pending timer callbacks. *)
Record World : Type := mkWorld {
  searchState : SearchState;
  matches : list SearchMatch;
  backend : Backend;
  calls : list BackendCall;
  timers : list Timer
}.

Definition initialState : SearchState :=
  mkSearchState false [] 0 0 false false.

Definition initialWorld (b : Backend) : World :=
  mkWorld initialState [] b [] [].

Definition setSearchState (f : SearchState -> SearchState) (w : World)
  : World :=
  mkWorld (f (searchState w)) (matches w) (backend w) (calls w) (timers w).

Definition setMatches (ms : list SearchMatch) (w : World) : World :=
  mkWorld (searchState w) ms (backend w) (calls w) (timers w).

Definition callNavigate (m : SearchMatch) (d : Direction) (w : World)
  : World :=
  match onNavigate with
  | Some f =>
      mkWorld (searchState w) (matches w) (f m d (backend w))
        (calls w ++ [CallNavigate m d]) (timers w)
  | None => w
  end.

Definition openSearch (w : World) : World :=
  setSearchState
    (fun p => mkSearchState true (query p) (currentMatch p) (totalMatches p)
                (caseSensitive p) (wholeWord p)) w.

Definition closeSearch (w : World) : World :=
  let w := setSearchState
             (fun p => mkSearchState false [] 0 0
                         (caseSensitive p) (wholeWord p)) w in
  let w := setMatches [] w in
  match onClose with
  | Some f =>
      mkWorld (searchState w) (matches w) (f (backend w))
        (calls w ++ [CallClose]) (timers w)
  | None => w
  end.

(** [performSearch] of a render whose [searchState] has the options
    [cs] and [ww]. *)
Definition performSearch (cs ww : bool) (q : jstring) (w : World) : World :=
  if isEmpty (trim q) then
    let w := setMatches [] w in
    setSearchState
      (fun p => mkSearchState (isOpen p) q 0 0
                  (caseSensitive p) (wholeWord p)) w
  else
    let opts := mkSearchOptions cs ww in
    let '(searchMatches, w) :=
      match onSearch with
      | Some f =>
          let '(ms, b) := f q opts (backend w) in
          (ms, mkWorld (searchState w) (matches w) b
                 (calls w ++ [CallSearch q opts]) (timers w))
      | None => ([], w)
      end in
    let w := setMatches searchMatches w in
    let w := setSearchState
               (fun p => mkSearchState (isOpen p) q
                           (if 0 <? length searchMatches then 1 else 0)
                           (length searchMatches)
                           (caseSensitive p) (wholeWord p)) w in
    (* Navigate to first match if available *)
    match searchMatches with
    | m :: _ => callNavigate m next w
    | [] => w
    end.

(** [navigateToMatch] of a render with the match array [ms] and the counter
    [cur]. *)
Definition navigateToMatch (ms : list SearchMatch) (cur : nat)
    (direction : Direction) (w : World) : World :=
  if length ms =? 0 then w
  else
    let newIndex :=
      match direction with
      | next => if length ms <=? cur then 1 else cur + 1
      | prev => if cur <=? 1 then length ms else cur - 1
      end in
    let w := setSearchState
               (fun p => mkSearchState (isOpen p) (query p) newIndex
                           (totalMatches p) (caseSensitive p) (wholeWord p))
               w in
    match nth_error ms (newIndex - 1) with
    | Some m => callNavigate m direction w
    | None => w
    end.

Definition setQuery (cs ww : bool) (q : jstring) (w : World) : World :=
  performSearch cs ww q w.

Definition schedule (t : Timer) (w : World) : World :=
  mkWorld (searchState w) (matches w) (backend w) (calls w) (timers w ++ [t]).

(** [toggleCaseSensitive] of a render whose [performSearch] holds the
    options [cs] and [ww]; the state updater flips the option of the state
    it is given and schedules the re-search. *)
Definition toggleCaseSensitive (cs ww : bool) (w : World) : World :=
  let p := searchState w in
  let w := setSearchState
             (fun p => mkSearchState (isOpen p) (query p) (currentMatch p)
                         (totalMatches p) (negb (caseSensitive p))
                         (wholeWord p)) w in
  (* Re-perform search with new options *)
  if isEmpty (query p) then w else schedule (mkTimer cs ww (query p)) w.

Definition toggleWholeWord (cs ww : bool) (w : World) : World :=
  let p := searchState w in
  let w := setSearchState
             (fun p => mkSearchState (isOpen p) (query p) (currentMatch p)
                         (totalMatches p) (caseSensitive p)
                         (negb (wholeWord p))) w in
  (* Re-perform search with new options *)
  if isEmpty (query p) then w else schedule (mkTimer cs ww (query p)) w.

(** The oldest pending timer callback runs. *)
Definition runTimer (w : World) : World :=
  match timers w with
  | [] => w
  | t :: rest =>
      let w := mkWorld (searchState w) (matches w) (backend w) (calls w)
                 rest in
      performSearch (closureCaseSensitive t) (closureWholeWord t)
        (timerQuery t) w
  end.

(** What can happen to the hook: a call of one of the functions it returns,
    made on the functions of the latest render, or a timer firing. *)
Inductive Event : Type :=
| EvOpen
| EvClose
| EvSetQuery (q : jstring)
| EvNavigate (d : Direction)
| EvToggleCaseSensitive
| EvToggleWholeWord
| EvTimer.

(** One event, handled by the callbacks of the render of [w]: they close
    over [searchState w] and [matches w]. *)
Definition step (w : World) (e : Event) : World :=
  let cs := caseSensitive (searchState w) in
  let ww := wholeWord (searchState w) in
  match e with
  | EvOpen => openSearch w
  | EvClose => closeSearch w
  | EvSetQuery q => setQuery cs ww q w
  | EvNavigate d =>
      navigateToMatch (matches w) (currentMatch (searchState w)) d w
  | EvToggleCaseSensitive => toggleCaseSensitive cs ww w
  | EvToggleWholeWord => toggleWholeWord cs ww w
  | EvTimer => runTimer w
  end.

Definition run (w : World) (es : list Event) : World := fold_left step es w.

End Hook.

Arguments searchState {Backend} w.
Arguments matches {Backend} w.
Arguments backend {Backend} w.
Arguments calls {Backend} w.
Arguments timers {Backend} w.
Arguments mkWorld {Backend} _ _ _ _ _.
Arguments initialWorld {Backend} b.
Arguments setSearchState {Backend} f w.
Arguments setMatches {Backend} ms w.
Arguments callNavigate {Backend} onNavigate m d w.
Arguments openSearch {Backend} w.
Arguments closeSearch {Backend} onClose w.
Arguments performSearch {Backend} onSearch onNavigate cs ww q w.
Arguments navigateToMatch {Backend} onNavigate ms cur direction w.
Arguments setQuery {Backend} onSearch onNavigate cs ww q w.
Arguments schedule {Backend} t w.
Arguments toggleCaseSensitive {Backend} cs ww w.
Arguments toggleWholeWord {Backend} cs ww w.
Arguments runTimer {Backend} onSearch onNavigate w.
Arguments step {Backend} onSearch onNavigate onClose w e.
Arguments run {Backend} onSearch onNavigate onClose w es.

End UseSearch.

(* ===================================================================== *)
(** ** hooks/useTerminalSearch.ts *)
(* ===================================================================== *)

Module TerminalSearch.
Import Host.

(** The options object passed to the search addon of the terminal. *)
Record ISearchOptions : Type := mkISearchOptions {
  caseSensitive : bool;
  wholeWord : bool;
  regex : bool
}.

(** The calls the adapter makes on the addon. *)
Inductive AddonCall : Type :=
| clearDecorations
| findNext (term : jstring) (options : ISearchOptions)
| findPrevious (term : jstring) (options : ISearchOptions).

(** [onNavigate]: [searchAddon] tells whether [searchAddonRef] holds an
    addon; the result is the calls made on the addon. *)
Definition onNavigate (searchAddon : bool)
    (m : option SearchUtils.SearchMatch) (direction : UseSearch.Direction)
  : list AddonCall :=
  match searchAddon, m with
  | true, Some m =>
      (* Use xterm's built-in navigation *)
      match direction with
      | UseSearch.next =>
          [findNext (SearchUtils.text m) (mkISearchOptions false false false)]
      | UseSearch.prev =>
          [findPrevious (SearchUtils.text m)
             (mkISearchOptions false false false)]
      end
  | _, _ => []
  end.

(** [searchInTerminal] and [navigateInTerminal], which replace
    [navigateToMatch] in the object the hook returns. *)
Definition searchInTerminal (searchAddon : bool) (st : UseSearch.SearchState)
    (q : jstring) (direction : UseSearch.Direction) : list AddonCall :=
  if negb searchAddon || isEmpty (trim q) then []
  else
    let searchOptions :=
      mkISearchOptions (UseSearch.caseSensitive st) (UseSearch.wholeWord st)
        false in
    match direction with
    | UseSearch.next => [findNext q searchOptions]
    | UseSearch.prev => [findPrevious q searchOptions]
    end.

Definition navigateInTerminal (searchAddon : bool)
    (st : UseSearch.SearchState) (direction : UseSearch.Direction)
  : list AddonCall :=
  if isEmpty (trim (UseSearch.query st)) then []
  else searchInTerminal searchAddon st (UseSearch.query st) direction.

(** The search addon of the terminal: its state, and its three methods,
    each giving the state afterwards and its result ([None]: the call
    threw). *)
Section Addon.

Variable Addon : Type.
Variable clearDecorationsOf : Addon -> Addon * option unit.
Variable findNextOf : jstring -> ISearchOptions -> Addon -> Addon * option bool.
Variable findPreviousOf :
  jstring -> ISearchOptions -> Addon -> Addon * option bool.

(** The refs of the hook: whether [terminalRef] holds a terminal (and the
    handle of its element), and the addon in [searchAddonRef]. *)
Record Refs : Type := mkRefs {
  terminal : option SearchUtils.ElementRef;
  searchAddon : option Addon
}.

Definition withAddon (r : Refs) (a : Addon) : Refs :=
  mkRefs (terminal r) (Some a).

(** [onSearch]: at most the one synthetic match. *)
Definition onSearch (query : jstring) (options : SearchUtils.SearchOptions)
    (r : Refs) : list SearchUtils.SearchMatch * Refs :=
  match terminal r, searchAddon r with
  | Some terminalElement, Some addon =>
      if isEmpty (trim query) then ([], r)
      else
        (* Clear previous search *)
        let '(addon, cleared) := clearDecorationsOf addon in
        match cleared with
        | None => ([], withAddon r addon)
        | Some _ =>
            let '(addon, found) :=
              findNextOf query
                (mkISearchOptions (SearchUtils.caseSensitive options)
                   (SearchUtils.wholeWord options) false) addon in
            match found with
            | Some true =>
                ([SearchUtils.mkSearchMatch (lit "terminal-match-0")
                    terminalElement query 0 (length query)],
                 withAddon r addon)
            | _ => ([], withAddon r addon)
            end
        end
  | _, _ => ([], r)
  end.

(** [onNavigate] on the addon state. *)
Definition onNavigateRefs (m : SearchUtils.SearchMatch)
    (direction : UseSearch.Direction) (r : Refs) : Refs :=
  match searchAddon r with
  | None => r
  | Some addon =>
      match direction with
      | UseSearch.next =>
          withAddon r
            (fst (findNextOf (SearchUtils.text m)
                    (mkISearchOptions false false false) addon))
      | UseSearch.prev =>
          withAddon r
            (fst (findPreviousOf (SearchUtils.text m)
                    (mkISearchOptions false false false) addon))
      end
  end.

(** [onClose]. *)
Definition onClose (r : Refs) : Refs :=
  match searchAddon r with
  | None => r
  | Some addon => withAddon r (fst (clearDecorationsOf addon))
  end.

End Addon.

Arguments terminal {Addon} r.
Arguments searchAddon {Addon} r.
Arguments mkRefs {Addon} _ _.
Arguments withAddon {Addon} r a.
Arguments onSearch {Addon} clearDecorationsOf findNextOf query options r.
Arguments onNavigateRefs {Addon} findNextOf findPreviousOf m direction r.
Arguments onClose {Addon} clearDecorationsOf r.

End TerminalSearch.

(* ===================================================================== *)
(** ** hooks/useRichOutputSearch.ts *)
(* ===================================================================== *)

Module RichOutputSearch.
Import Host SearchUtils.

(** The page behind [containerRef]: the elements that
    [container.querySelectorAll] selects, in document order and taken as
    disjoint subtrees (an [ElementRef] is a position in this list), and
    whether [currentContainerRef] is set. *)
Record Page : Type := mkPage {
  searchableElements : list node;
  currentContainer : bool
}.

Definition elementIdOf (index : nat) : jstring :=
  lit "search-element-" ++ numberToString index.

(** [searchableElements.forEach((element, index) => ...)] filling
    [allMatches]. *)
Fixpoint collectMatches (query : jstring) (options : SearchOptions)
    (els : list node) (index : nat) : list SearchMatch :=
  match els with
  | [] => []
  | el :: r =>
      match findTextMatches el index query options (elementIdOf index) with
      | Some ms => ms
      | None => []
      end ++ collectMatches query options r (S index)
  end.

Fixpoint updateAt (f : node -> node) (i : nat) (l : list node) : list node :=
  match l, i with
  | [], _ => []
  | x :: r, 0 => f x :: r
  | x :: r, S j => x :: updateAt f j r
  end.

(** [allMatches.forEach((match, index) => ...)]: one call of
    [highlightMatches] per match, on the element of the match, with all the
    matches of that element. *)
Fixpoint highlightEach (allMatches : list SearchMatch)
    (todo : list SearchMatch) (index : nat) (els : list node) : list node :=
  match todo with
  | [] => els
  | m :: r =>
      let elementMatches :=
        filter (fun m' => element m' =? element m) allMatches in
      let els :=
        updateAt
          (fun el => highlightMatches el elementMatches
                       (if index =? 0 then Some 0 else None))
          (element m) els in
      highlightEach allMatches r (S index) els
  end.

Definition onSearch (query : jstring) (options : SearchOptions) (pg : Page)
  : list SearchMatch * Page :=
  (* Clear previous highlights *)
  let els :=
    if currentContainer pg then map removeHighlights (searchableElements pg)
    else searchableElements pg in
  let allMatches := collectMatches query options els 0 in
  (* Highlight all matches *)
  let els := highlightEach allMatches allMatches 0 els in
  (allMatches, mkPage els true).

Definition onClose (pg : Page) : Page :=
  if currentContainer pg
  then mkPage (map removeHighlights (searchableElements pg)) false
  else pg.

End RichOutputSearch.

(** The same adapter with its second ref, [allMatchesRef], which
    [onNavigate] reads, and with the calls of [scrollIntoView] it makes. *)
Module RichOutputSession.
Import Host SearchUtils.

Record Session : Type := mkSession {
  page : RichOutputSearch.Page;
  allMatchesRef : list SearchMatch;
  scrolls : list ScrollTarget
}.

(** [onSearch] stores the matches it returns in [allMatchesRef]. *)
Definition onSearch (query : jstring) (options : SearchOptions) (s : Session)
  : list SearchMatch * Session :=
  let '(allMatches, pg) := RichOutputSearch.onSearch query options (page s) in
  (allMatches, mkSession pg allMatches (scrolls s)).

(** [allMatchesRef.current.forEach((m) => ...)] of [onNavigate]: each element
    that holds a match gets one call of [updateCurrentMatch], with the
    matches of that element and the index of the match navigated to among
    them. *)
Fixpoint navigateEach (allMatches : list SearchMatch) (mt : SearchMatch)
    (todo : list SearchMatch) (processedElements : list ElementRef)
    (els : list node) : list node :=
  match todo with
  | [] => els
  | m :: r =>
      if existsb (Nat.eqb (element m)) processedElements
      then navigateEach allMatches mt r processedElements els
      else
        let elementMatches :=
          filter (fun em => element em =? element m) allMatches in
        let currentElementMatchIndex := findIndex (id mt) elementMatches in
        let els :=
          RichOutputSearch.updateAt
            (fun el => updateCurrentMatch el elementMatches
                         currentElementMatchIndex)
            (element m) els in
        navigateEach allMatches mt r (element m :: processedElements) els
  end.

(** [scrollToMatch(match)] on the page. *)
Definition scrollOn (els : list node) (mt : SearchMatch) : ScrollTarget :=
  match nth_error els (element mt) with
  | Some el => scrollToMatch el mt
  | None => ScrollElement (element mt)
  end.

(** [onNavigate]; [None] as match stands for [null]. *)
Definition onNavigate (mt : option SearchMatch)
    (direction : UseSearch.Direction) (s : Session) : Session :=
  match mt with
  | None => s
  | Some mt =>
      match findIndex (id mt) (allMatchesRef s) with
      | Some matchIndex =>
          (* Update highlighting for all elements *)
          let els :=
            navigateEach (allMatchesRef s) mt (allMatchesRef s) []
              (RichOutputSearch.searchableElements (page s)) in
          (* Scroll to the match *)
          mkSession
            (RichOutputSearch.mkPage els
               (RichOutputSearch.currentContainer (page s)))
            (allMatchesRef s) (scrolls s ++ [scrollOn els mt])
      | None => s
      end
  end.

Definition onClose (s : Session) : Session :=
  mkSession (RichOutputSearch.onClose (page s)) [] (scrolls s).

End RichOutputSession.

(* ===================================================================== *)
(** ** Vocabulary of the properties *)
(* ===================================================================== *)

Import Host SearchUtils.

(** Two code units agree: exactly when the search is case sensitive,
    through [canonicalize] otherwise. *)
Definition sameChar (cs : bool) (c d : ascii) : Prop :=
  if cs then c = d else canonicalize c = canonicalize d.

(** An occurrence of the query [q] in [text] at index [i]: the [length q]
    code units from [i] on agree with those of [q]. *)
Definition occursAt (cs : bool) (q text : jstring) (i : nat) : Prop :=
  Forall2 (sameChar cs) q (firstn (length q) (skipn i text)).

(** The word-boundary assertion that whole-word search puts on each side
    of the query, as a token and as an atom. *)
Definition boundaryTokens (ww : bool) : list token :=
  if ww then [TBoundary] else [].

Definition boundaryAtoms (ww : bool) : list atom :=
  if ww then [ABoundary] else [].

(** The atoms the pattern of [createSearchRegex q o] compiles to. *)
Definition compiledPattern (q : jstring) (o : SearchOptions) : list atom :=
  boundaryAtoms (wholeWord o) ++ map AChar q ++ boundaryAtoms (wholeWord o).

(** The counters agree with the stored match array and with each other. *)
Definition consistent {Backend : Type} (w : UseSearch.World Backend) : Prop :=
  let st := UseSearch.searchState w in
  UseSearch.totalMatches st = length (UseSearch.matches w)
  /\ ((UseSearch.totalMatches st = 0 /\ UseSearch.currentMatch st = 0)
      \/ 1 <= UseSearch.currentMatch st <= UseSearch.totalMatches st).

(** A decoration as [decorationsIn] reports it: the [data-search-match]
    attribute, the text of the span, and whether it is the current one. *)
Definition decoration : Type := (option jstring * jstring * bool)%type.

Definition decorationsOf (l : list node) : list decoration :=
  concat (map decorationsIn l).

(** The span of a match is an interval. *)
Definition wellFormed (m : SearchMatch) : Prop := startIndex m <= endIndex m.

(** The text nodes below an element with their offsets in its text, as the
    walk of [highlightMatches] numbers them. *)
Fixpoint leafRangesFrom (off : nat) (texts : list jstring)
  : list (nat * jstring) :=
  match texts with
  | [] => []
  | s :: r => (off, s) :: leafRangesFrom (off + length s) r
  end.

Definition leafRanges (element : node) : list (nat * jstring) :=
  match element with
  | Text _ => []
  | Element _ _ _ ch => leafRangesFrom 0 (concat (map textNodes ch))
  end.

(** [m] lies within the text node [s] that starts at offset [off]. *)
Definition within (off : nat) (s : jstring) (m : SearchMatch) : Prop :=
  off <= startIndex m /\ startIndex m <= endIndex m
  /\ endIndex m <= off + length s.

(** [m] is a match of [ms] within the leaf with the least start index. *)
Definition firstWithin (ms : list SearchMatch) (off : nat) (s : jstring)
    (m : SearchMatch) : Prop :=
  In m ms /\ within off s m
  /\ forall m', In m' ms -> within off s m' -> startIndex m <= startIndex m'.

(** What a leaf carries after the call: no decoration when no match lies
    within it, otherwise one decoration, for a first match within it. *)
Definition leafDecorated (ms : list SearchMatch) (leaf : nat * jstring)
    (ds : list decoration) : Prop :=
  let '(off, s) := leaf in
  (ds = [] /\ forall m, In m ms -> ~ within off s m)
  \/ (exists m cur,
        firstWithin ms off s m
        /\ ds = [(Some (id m),
                  substring s (startIndex m - off) (endIndex m - off),
                  cur)]).

(** The decorations a text node carries after the walk. *)
Definition leafDecorations (ms : list SearchMatch) (cur : option nat)
    (leaf : nat * jstring) : list decoration :=
  decorationsOf (highlightTextNode ms (sortDesc ms) cur (snd leaf) (fst leaf)).

(** [m] lies within one of the text nodes below the element. *)
Definition fitsLeaf (element : node) (m : SearchMatch) : Prop :=
  exists leaf, In leaf (leafRanges element) /\ within (fst leaf) (snd leaf) m.

(** Every match of the list has a decoration carrying its id. *)
Definition everyMatchDecorated (element : node) (ms : list SearchMatch)
    (cur : option nat) : Prop :=
  forall m, In m ms ->
    In (Some (id m))
       (map (fun d : decoration => fst (fst d))
          (decorations (highlightMatches element ms cur))).



(** What [removeHighlights] puts in the place of a child. *)
Definition unwrap (x : node) : node :=
  if isHighlight x then Text (textContent x) else removeHighlights x.

(** A list of matches ordered by descending start index. *)
Fixpoint descending (l : list SearchMatch) : Prop :=
  match l with
  | [] => True
  | x :: r =>
      (forall y, In y r -> startIndex y <= startIndex x) /\ descending r
  end.

(** The call a navigation in direction [d] makes on the addon. *)
Definition navigationCall (d : UseSearch.Direction)
  : jstring -> TerminalSearch.ISearchOptions -> TerminalSearch.AddonCall :=
  match d with
  | UseSearch.next => TerminalSearch.findNext
  | UseSearch.prev => TerminalSearch.findPrevious
  end.



(** Concrete pages and match lists. *)
Definition div (ch : list node) : node := Element (lit "div") [] None ch.

Definition insensitive : SearchOptions := mkSearchOptions false false.

(** A page whose one searchable element holds the text "foo foo". *)
Definition fooFoo : node := div [Text (lit "foo foo")].

Definition fooMatches : list SearchMatch :=
  [ mkSearchMatch (lit "search-element-0-0") 0 (lit "foo") 0 3;
    mkSearchMatch (lit "search-element-0-1") 0 (lit "foo") 4 7 ].

(** The hook over the document backend: [onSearch] of the rich-output
    adapter over a page; no navigate or close callback is given. *)
Definition richRun (pg : RichOutputSearch.Page) (es : list UseSearch.Event)
  : UseSearch.World RichOutputSearch.Page :=
  UseSearch.run (Some RichOutputSearch.onSearch) None None
    (UseSearch.initialWorld pg) es.

(** The page with one searchable element holding the text [t]. *)
Definition pageOf (t : String.string) : RichOutputSearch.Page :=
  RichOutputSearch.mkPage [div [Text (lit t)]] false.

(** A query of white space only: space, TAB, space. *)
Definition blank : jstring := [" "%char; "009"%char; " "%char].

(** A page whose searchable element starts with a style element:
    <div><style>Z</style><b>xxxa</b><i>b</i></div>. *)
Definition styled : node :=
  div [ Element (lit "style") [] None [Text (lit "Z")];
        Element (lit "b") [] None [Text (lit "xxxa")];
        Element (lit "i") [] None [Text (lit "b")] ].

(** The spans of the matches [findTextMatches] returns. *)
Definition spansOf (r : option (list SearchMatch))
  : option (list (nat * nat)) :=
  option_map (map (fun m => (startIndex m, endIndex m))) r.

(** The match of "ab" in the searched text "xxxab" of [styled]. *)
Definition abMatch : SearchMatch :=
  mkSearchMatch (lit "search-element-0-0") 0 (lit "ab") 3 5.

(* ===================================================================== *)
(** ** Vocabulary of the further properties *)
(* ===================================================================== *)

(** The query [q] occurs in [text] at index [i] as the search under the
    options [o] understands it: the characters agree (up to case when the
    search is not case sensitive) and, for a whole-word search, there is a
    word boundary on each side. *)
Definition matchesAt (q : jstring) (o : SearchOptions) (text : jstring)
    (i : nat) : Prop :=
  occursAt (caseSensitive o) q text i
  /\ (wholeWord o = true ->
      isWordBoundary text i = true
      /\ isWordBoundary text (i + length q) = true).

(** The record the loop of [findTextMatches] pushes for the [n]-th match,
    found at [index] with the cursor left at [e]. *)
Definition matchRecord (ref : ElementRef) (elementId : jstring)
    (text : jstring) (n index e : nat) : SearchMatch :=
  mkSearchMatch (elementId ++ lit "-" ++ numberToString n) ref
    (substring text index e) index (index + length (substring text index e)).

(** The matches the loop pushes from the cursor [lastIndex] on, the array
    holding [n] matches already. *)
Inductive scanFrom (ic : bool) (p : list atom) (text : jstring)
    (ref : ElementRef) (elementId : jstring)
  : nat -> nat -> list SearchMatch -> Prop :=
| scan_done (lastIndex n : nat) :
    exec ic p text lastIndex = None ->
    scanFrom ic p text ref elementId lastIndex n []
| scan_match (lastIndex n index e : nat) (rest : list SearchMatch) :
    exec ic p text lastIndex = Some (index, e) ->
    scanFrom ic p text ref elementId (if index =? e then S e else e) (S n)
      rest ->
    scanFrom ic p text ref elementId lastIndex n
      (matchRecord ref elementId text n index e :: rest).

(** The id of the [k]-th match of an element. *)
Definition matchId (elementId : jstring) (k : nat) : jstring :=
  elementId ++ lit "-" ++ numberToString k.

(** Later matches start after earlier ones and do not overlap them. *)
Definition precedes (a b : SearchMatch) : Prop :=
  endIndex a <= startIndex b /\ startIndex a < startIndex b.

Fixpoint inOrder (ms : list SearchMatch) : Prop :=
  match ms with
  | [] => True
  | m :: r => Forall (precedes m) r /\ inOrder r
  end.

(** Normalized nodes, as [Node.normalize] leaves them: below the node no
    text node is empty and no two text nodes are adjacent. *)
Definition startsWithText (l : list node) : bool :=
  match l with
  | Text _ :: _ => true
  | _ => false
  end.

Section NormalizedList.
Variable norm : node -> Prop.

Fixpoint normalizedList (l : list node) : Prop :=
  match l with
  | [] => True
  | Text s :: r => s <> [] /\ startsWithText r = false /\ normalizedList r
  | x :: r => norm x /\ normalizedList r
  end.

End NormalizedList.

Fixpoint normalized (n : node) : Prop :=
  match n with
  | Text s => s <> []
  | Element _ _ _ ch => normalizedList normalized ch
  end.

(** The number of elements carrying the current-match class, in a node and
    below an element. *)
Fixpoint currentIn (n : node) : nat :=
  match n with
  | Text _ => 0
  | Element _ c _ ch =>
      (if existsb (jeqb currentClass) c then 1 else 0)
      + list_sum (map currentIn ch)
  end.

Definition currentBelow (element : node) : nat :=
  match element with
  | Text _ => 0
  | Element _ _ _ ch => list_sum (map currentIn ch)
  end.

(** A decoration without its current-match flag: id and text. *)
Definition unflagged (d : decoration) : option jstring * jstring :=
  (fst (fst d), snd (fst d)).

(** The search callback of a backend never returns more than [k]
    matches. *)
Definition boundedSearch {Backend : Type}
    (onSearch : option (jstring -> SearchOptions -> Backend
                        -> list SearchMatch * Backend))
    (k : nat) : Prop :=
  match onSearch with
  | Some f => forall q o b, length (fst (f q o b)) <= k
  | None => True
  end.

(** The match the terminal adapter makes up for a query that was found. *)
Definition syntheticMatch (terminalElement : ElementRef) (query : jstring)
  : SearchMatch :=
  mkSearchMatch (lit "terminal-match-0") terminalElement query 0
    (length query).

(** A page of one searchable element holding "foo foo foo", a navigate
    callback that leaves the page alone, and the state of the hook after a
    search followed by a toggle, its timer still pending. *)
Definition keepPage (m : SearchMatch) (d : UseSearch.Direction)
    (pg : RichOutputSearch.Page) : RichOutputSearch.Page := pg.

Definition toggledWorld : UseSearch.World RichOutputSearch.Page :=
  richRun (pageOf "foo Foo")
    [UseSearch.EvOpen; UseSearch.EvSetQuery (lit "Foo");
     UseSearch.EvToggleCaseSensitive].

Definition dotNet : jstring := lit ".net".



(** Two nodes differ at most in which elements carry the current-match
    class: same text, same decorations up to the flag. *)
Definition sameUpToCurrent (e e' : node) : Prop :=
  textContent e' = textContent e
  /\ map unflagged (decorations e') = map unflagged (decorations e).



(* ===================================================================== *)
(** ** Properties *)
(* ===================================================================== *)

(** *** Pattern builder *)

Section PatternBuilder.

Lemma isSyntaxChar_isSpecial (c : ascii) : isSyntaxChar c = isSpecial c.
Proof. destruct c as [[] [] [] [] [] [] [] []]; reflexivity. Qed.

Lemma special_not_b (c : ascii) :
  isSpecial c = true -> Ascii.eqb c "b"%char = false.
Proof.
  destruct c as [[] [] [] [] [] [] [] []]; intros H;
    solve [reflexivity | discriminate H].
Qed.

Lemma not_special_not_backslash (c : ascii) :
  isSpecial c = false -> Ascii.eqb c backslash = false.
Proof.
  destruct c as [[] [] [] [] [] [] [] []]; intros H;
    solve [reflexivity | discriminate H].
Qed.

Lemma tokenize_escapeRegExp (q rest : jstring) :
  tokenize (escapeRegExp q ++ rest) = map TChar q ++ tokenize rest.
Proof.
  induction q as [|c q IH]; [reflexivity|].
  simpl. destruct (isSpecial c) eqn:Hs.
  - simpl. unfold escapeToken.
    rewrite (special_not_b c Hs), isSyntaxChar_isSpecial, Hs. simpl.
    now rewrite IH.
  - simpl. rewrite (not_special_not_backslash c Hs).
    rewrite isSyntaxChar_isSpecial, Hs. now rewrite IH.
Qed.

Lemma tokenize_createSearchRegex (q : jstring) (o : SearchOptions) :
  tokenize (source (createSearchRegex q o))
  = boundaryTokens (wholeWord o) ++ map TChar q ++ boundaryTokens (wholeWord o).
Proof.
  unfold createSearchRegex, boundaryTokens. destruct (wholeWord o); simpl.
  - now rewrite tokenize_escapeRegExp.
  - rewrite <- (app_nil_r (escapeRegExp q)), tokenize_escapeRegExp.
    reflexivity.
Qed.

Lemma compile_app (ts1 ts2 : list token) (p1 p2 : list atom) :
  compile ts1 = Some p1 -> compile ts2 = Some p2 ->
  compile (ts1 ++ ts2) = Some (p1 ++ p2).
Proof.
  revert p1. induction ts1 as [|t ts1 IH]; simpl; intros p1 H1 H2.
  - now inversion H1.
  - destruct t; try discriminate;
      destruct (compile ts1) as [p|] eqn:E; try discriminate;
      inversion H1; subst; simpl; now rewrite (IH p eq_refl H2).
Qed.

Lemma compile_chars (q : jstring) :
  compile (map TChar q) = Some (map AChar q).
Proof. induction q as [|c q IH]; simpl; [|rewrite IH]; reflexivity. Qed.

Lemma compile_boundary (ww : bool) :
  compile (boundaryTokens ww) = Some (boundaryAtoms ww).
Proof. now destruct ww. Qed.

Lemma charMatches_sameChar (cs : bool) (c d : ascii) :
  charMatches (negb cs) c d = true <-> sameChar cs c d.
Proof.
  unfold charMatches, sameChar. destruct cs; simpl; apply Ascii.eqb_eq.
Qed.

Lemma occursAt_cons (cs : bool) (c : ascii) (q text : jstring) (i : nat) :
  occursAt cs (c :: q) text i
  <-> exists d, nth_error text i = Some d /\ sameChar cs c d
                /\ occursAt cs q text (S i).
Proof.
  unfold occursAt. simpl length.
  destruct (nth_error text i) as [d|] eqn:E.
  - destruct (nth_error_split text i E) as (l1 & l2 & -> & Hl).
    assert (Hs : skipn i (l1 ++ d :: l2) = d :: l2).
    { rewrite skipn_app, <- Hl, Nat.sub_diag, skipn_all. reflexivity. }
    assert (Hs' : skipn (S i) (l1 ++ d :: l2) = l2).
    { change (S i) with (1 + i). rewrite <- skipn_skipn, Hs. reflexivity. }
    rewrite Hs, Hs'. simpl. split.
    + intros H. inversion H; subst. exists d. auto.
    + intros (d' & Hd & Hc & Hq). inversion Hd; subst. now constructor.
  - apply nth_error_None in E. rewrite (skipn_all2 text E). simpl. split.
    + intros H. inversion H.
    + intros (d & Hd & _). discriminate.
Qed.

Lemma matchAtoms_chars (cs : bool) (q : jstring) (p : list atom)
    (text : jstring) (i e : nat) :
  matchAtoms (negb cs) (map AChar q ++ p) text i = Some e
  <-> occursAt cs q text i
      /\ matchAtoms (negb cs) p text (i + length q) = Some e.
Proof.
  revert i. induction q as [|c q IH]; intros i.
  - simpl. rewrite Nat.add_0_r. unfold occursAt. simpl. intuition.
  - simpl map. simpl app. simpl matchAtoms. rewrite occursAt_cons.
    destruct (nth_error text i) as [d|] eqn:E.
    + destruct (charMatches (negb cs) c d) eqn:Hc.
      * rewrite IH. simpl length. rewrite Nat.add_succ_r. simpl.
        apply charMatches_sameChar in Hc. split.
        -- intros [H1 H2]. split; [exists d|]; auto.
        -- intros [(d' & Hd & _ & H1) H2]. auto.
      * split; [discriminate|].
        intros [(d' & Hd & Hs & _) _]. inversion Hd; subst.
        apply charMatches_sameChar in Hs. congruence.
    + split; [discriminate|]. intros [(d' & Hd & _) _]. discriminate.
Qed.

Lemma matchAtoms_boundary (ic ww : bool) (text : jstring) (i e : nat)
    (p : list atom) :
  matchAtoms ic (boundaryAtoms ww ++ p) text i = Some e
  <-> (ww = true -> isWordBoundary text i = true)
      /\ matchAtoms ic p text i = Some e.
Proof.
  destruct ww; simpl.
  - destruct (isWordBoundary text i); split; try tauto; try discriminate.
    + intros [H _]. discriminate (H eq_refl).
  - split; [intros H; split; [discriminate|exact H] | tauto].
Qed.

Lemma compile_createSearchRegex (q : jstring) (o : SearchOptions) :
  compile (tokenize (source (createSearchRegex q o)))
  = Some (compiledPattern q o).
Proof.
  rewrite tokenize_createSearchRegex.
  apply compile_app; [apply compile_boundary|].
  apply compile_app; [apply compile_chars|apply compile_boundary].
Qed.

(** C6.  The pattern of [createSearchRegex q o] has the [g] flag, has the
    [i] flag exactly when [caseSensitive] is false, consists of the
    characters of [q] as literal tokens (no character of [q] acts as an
    operator) between two word-boundary assertions when [wholeWord] is set,
    and matches at an index exactly where [q] occurs literally, compared
    case-insensitively iff [caseSensitive] is false, with a word boundary
    before and after the occurrence when [wholeWord] is set. *)
Theorem createSearchRegex_matches_literal (q : jstring) (o : SearchOptions) :
  let re := createSearchRegex q o in
  global re = true
  /\ ignoreCase re = negb (caseSensitive o)
  /\ tokenize (source re)
     = boundaryTokens (wholeWord o) ++ map TChar q
       ++ boundaryTokens (wholeWord o)
  /\ exists p,
       compile (tokenize (source re)) = Some p
       /\ forall text i e,
            matchAtoms (ignoreCase re) p text i = Some e
            <-> e = i + length q
                /\ occursAt (caseSensitive o) q text i
                /\ (wholeWord o = true ->
                    isWordBoundary text i = true
                    /\ isWordBoundary text e = true).
Proof.
  intros re. subst re. split; [reflexivity|]. split; [reflexivity|].
  split; [apply tokenize_createSearchRegex|].
  exists (compiledPattern q o).
  split; [apply compile_createSearchRegex|].
  - intros text i e. unfold compiledPattern.
    change (ignoreCase (createSearchRegex q o))
      with (negb (caseSensitive o)).
    rewrite matchAtoms_boundary, matchAtoms_chars.
    rewrite <- (app_nil_r (boundaryAtoms (wholeWord o))).
    rewrite matchAtoms_boundary. simpl. split.
    + intros (Hb & Ho & Hb' & He). inversion He; subst. auto.
    + intros (-> & Ho & Hb). repeat split; auto; intros H; now apply Hb.
Qed.

End PatternBuilder.

(** *** Matcher *)

Section Matcher.

Lemma matchAtoms_bounds (ic : bool) (p : list atom) (text : jstring)
    (i e : nat) :
  matchAtoms ic p text i = Some e ->
  i <= e /\ (i <= length text -> e <= length text).
Proof.
  revert i. induction p as [|a p IH]; simpl; intros i H.
  - inversion H; subst. lia.
  - destruct a.
    + destruct (nth_error text i) as [d|] eqn:E; [|discriminate].
      destruct (charMatches ic c d); [|discriminate].
      apply IH in H. assert (i < length text).
      { apply nth_error_Some. congruence. }
      lia.
    + destruct (isWordBoundary text i); [|discriminate]. now apply IH.
Qed.

Lemma searchFrom_bounds (ic : bool) (p : list atom) (text : jstring)
    (n i index e : nat) :
  searchFrom ic p text i n = Some (index, e) ->
  i <= index < i + n /\ matchAtoms ic p text index = Some e.
Proof.
  revert i. induction n as [|n IH]; simpl; intros i H; [discriminate|].
  destruct (matchAtoms ic p text i) as [e'|] eqn:E.
  - inversion H; subst. split; [lia|assumption].
  - apply IH in H. split; [lia|tauto].
Qed.

Lemma exec_bounds (ic : bool) (p : list atom) (text : jstring)
    (lastIndex index e : nat) :
  exec ic p text lastIndex = Some (index, e) ->
  lastIndex <= index /\ index <= e /\ e <= length text.
Proof.
  unfold exec. destruct (length text <? lastIndex) eqn:L; [discriminate|].
  apply Nat.ltb_ge in L. intros H. apply searchFrom_bounds in H.
  destruct H as [Hi Hm]. apply matchAtoms_bounds in Hm. lia.
Qed.

(** The cursor after one iteration of the loop is strictly past the cursor
    before it, and at most one past the end of the text. *)
Lemma cursor_advances (ic : bool) (p : list atom) (text : jstring)
    (lastIndex index e : nat) :
  exec ic p text lastIndex = Some (index, e) ->
  let lastIndex' := if index =? e then S e else e in
  lastIndex < lastIndex' <= S (length text).
Proof.
  intros H. apply exec_bounds in H. simpl.
  destruct (index =? e) eqn:E.
  - apply Nat.eqb_eq in E. lia.
  - apply Nat.eqb_neq in E. lia.
Qed.

Lemma matchLoop_terminates (ic : bool) (p : list atom) (text : jstring)
    (ref : ElementRef) (elementId : jstring) (fuel : nat) :
  forall lastIndex ms,
    S (length text) - lastIndex < fuel ->
    exists r, forall extra,
      matchLoop (fuel + extra) ic p text ref elementId lastIndex ms = Some r.
Proof.
  induction fuel as [|fuel IH]; intros lastIndex ms Hf; [lia|].
  simpl. destruct (exec ic p text lastIndex) as [[index e]|] eqn:E.
  - pose proof (cursor_advances ic p text lastIndex index e E) as Hc. simpl in Hc.
    apply IH. lia.
  - exists ms. reflexivity.
Qed.

(** C8.  [findTextMatches] returns a match list for every element, query
    and options: the loop is over within [length text + 2] iterations, and a
    larger bound on the iterations gives the same list. *)
Theorem findTextMatches_terminates (element : node) (ref : ElementRef)
    (q : jstring) (o : SearchOptions) (elementId : jstring) :
  exists ms,
    findTextMatches element ref q o elementId = Some ms
    /\ forall extra,
         findTextMatchesWithin extra element ref q o elementId = Some ms.
Proof.
  unfold findTextMatches, findTextMatchesWithin.
  rewrite compile_createSearchRegex.
  destruct (matchLoop_terminates
              (ignoreCase (createSearchRegex q o)) (compiledPattern q o)
              (extractTextContent element) ref elementId
              (length (extractTextContent element) + 2) 0 [])
    as [r Hr]; [lia|].
  exists r. split; [exact (Hr 0)|exact Hr].
Qed.

End Matcher.

(** *** Navigation state *)

Section Navigation.
Import UseSearch.

Variable Backend : Type.
Variable onSearch :
  option (jstring -> SearchOptions -> Backend -> list SearchMatch * Backend).
Variable onNavigate : option (SearchMatch -> Direction -> Backend -> Backend).
Variable onClose : option (Backend -> Backend).

Local Abbreviation World := (World Backend).
Local Abbreviation step := (step onSearch onNavigate onClose).
Local Abbreviation run := (run onSearch onNavigate onClose).
Local Abbreviation performSearch := (performSearch onSearch onNavigate).
Local Abbreviation navigateToMatch := (navigateToMatch onNavigate).

Lemma callNavigate_state (m : SearchMatch) (d : Direction) (w : World) :
  searchState (callNavigate onNavigate m d w) = searchState w
  /\ matches (callNavigate onNavigate m d w) = matches w
  /\ timers (callNavigate onNavigate m d w) = timers w.
Proof. unfold callNavigate. destruct onNavigate; auto. Qed.

Lemma performSearch_consistent (cs ww : bool) (q : jstring) (w : World) :
  consistent (performSearch cs ww q w).
Proof.
  unfold UseSearch.performSearch. destruct (isEmpty (trim q)).
  - unfold consistent. simpl. auto.
  - destruct onSearch as [f|].
    + destruct (f q (mkSearchOptions cs ww) (backend w)) as [ms b].
      destruct ms as [|m ms].
      * unfold consistent. simpl. auto.
      * unfold consistent.
        destruct (callNavigate_state m next
                    (setSearchState
                       (fun p => mkSearchState (isOpen p) q
                          (if 0 <? length (m :: ms) then 1 else 0)
                          (length (m :: ms)) (caseSensitive p) (wholeWord p))
                       (setMatches (m :: ms)
                          (mkWorld (searchState w) (matches w) b
                             (calls w ++ [CallSearch q (mkSearchOptions cs ww)])
                             (timers w)))))
          as (Hs & Hm & _).
        rewrite Hs, Hm. simpl. split; [reflexivity|]. right. lia.
    + unfold consistent. simpl. auto.
Qed.

Lemma navigateToMatch_state (d : Direction) (w : World) :
  let w' := navigateToMatch (matches w) (currentMatch (searchState w)) d w in
  let n := length (matches w) in
  let cur := currentMatch (searchState w) in
  matches w' = matches w
  /\ timers w' = timers w
  /\ totalMatches (searchState w') = totalMatches (searchState w)
  /\ query (searchState w') = query (searchState w)
  /\ currentMatch (searchState w')
     = if n =? 0 then cur
       else match d with
            | next => if n <=? cur then 1 else cur + 1
            | prev => if cur <=? 1 then n else cur - 1
            end.
Proof.
  unfold UseSearch.navigateToMatch. simpl.
  destruct (length (matches w) =? 0) eqn:E; [auto 6|].
  match goal with |- context [nth_error ?l ?k] =>
    destruct (nth_error l k) as [m|] end.
  - match goal with |- context [callNavigate onNavigate m d ?x] =>
      destruct (callNavigate_state m d x) as (Hs & Hm & Ht) end.
    rewrite Hs, Hm, Ht. simpl. auto 6.
  - simpl. auto 6.
Qed.

Lemma navigateToMatch_consistent (d : Direction) (w : World) :
  consistent w ->
  consistent (navigateToMatch (matches w) (currentMatch (searchState w)) d w).
Proof.
  intros [Ht Hc]. unfold consistent.
  destruct (navigateToMatch_state d w) as (Hm & _ & Htot & _ & Hcur).
  simpl in *. rewrite Hm, Htot, Hcur. split; [assumption|].
  rewrite <- Ht.
  destruct (totalMatches (searchState w) =? 0) eqn:E.
  - assumption.
  - apply Nat.eqb_neq in E. right.
    destruct d.
    + destruct (totalMatches (searchState w) <=? currentMatch (searchState w))
        eqn:L; [lia|]. apply Nat.leb_gt in L. lia.
    + destruct (currentMatch (searchState w) <=? 1) eqn:L; [lia|].
      apply Nat.leb_gt in L. lia.
Qed.

Lemma step_consistent (w : World) (e : Event) :
  consistent w -> consistent (step w e).
Proof.
  intros H. destruct e; simpl.
  - exact H.
  - unfold closeSearch. destruct onClose; unfold consistent; simpl; auto.
  - apply performSearch_consistent.
  - now apply navigateToMatch_consistent.
  - unfold toggleCaseSensitive.
    destruct (isEmpty (query (searchState w))); exact H.
  - unfold toggleWholeWord.
    destruct (isEmpty (query (searchState w))); exact H.
  - unfold runTimer. destruct (timers w); [exact H|].
    apply performSearch_consistent.
Qed.

Lemma run_consistent (es : list Event) (w : World) :
  consistent w -> consistent (run w es).
Proof.
  revert w. induction es as [|e es IH]; intros w H; [exact H|].
  simpl. apply IH. now apply step_consistent.
Qed.

Lemma initial_consistent (b : Backend) : consistent (initialWorld b).
Proof. unfold consistent. simpl. auto. Qed.

(** C5.  After every sequence of events (open, close, setQuery, navigate,
    the two toggles, and the timers they set firing at any point),
    [1 <= currentMatch <= totalMatches] whenever [totalMatches > 0], and
    [currentMatch = 0] iff [totalMatches = 0]. *)
Theorem counters_invariant (b : Backend) (es : list Event) :
  let st := searchState (run (initialWorld b) es) in
  (0 < totalMatches st -> 1 <= currentMatch st <= totalMatches st)
  /\ (currentMatch st = 0 <-> totalMatches st = 0).
Proof.
  destruct (run_consistent es (initialWorld b) (initial_consistent b))
    as [_ H].
  simpl. lia.
Qed.

Lemma run_snoc (w : World) (es : list Event) (e : Event) :
  run w (es ++ [e]) = step (run w es) e.
Proof. unfold UseSearch.run. now rewrite fold_left_app. Qed.

(** One navigation step on a consistent state with at least one match. *)
Lemma navigate_step (d : Direction) (w : World) :
  consistent w -> 0 < totalMatches (searchState w) ->
  consistent (step w (EvNavigate d))
  /\ totalMatches (searchState (step w (EvNavigate d)))
     = totalMatches (searchState w)
  /\ currentMatch (searchState (step w (EvNavigate d)))
     = match d with
       | next =>
           if currentMatch (searchState w) =? totalMatches (searchState w)
           then 1 else currentMatch (searchState w) + 1
       | prev =>
           if currentMatch (searchState w) =? 1
           then totalMatches (searchState w)
           else currentMatch (searchState w) - 1
       end.
Proof.
  intros Hc Hn. pose proof (navigateToMatch_consistent d w Hc) as Hc'.
  destruct Hc as [Ht Hr].
  destruct (navigateToMatch_state d w) as (_ & _ & Htot & _ & Hcur).
  change (step w (EvNavigate d))
    with (navigateToMatch (matches w) (currentMatch (searchState w)) d w).
  split; [exact Hc'|]. split; [exact Htot|].
  rewrite Hcur, <- Ht.
  destruct (totalMatches (searchState w) =? 0) eqn:E;
    [apply Nat.eqb_eq in E; lia|].
  destruct d.
  - destruct (currentMatch (searchState w) =? totalMatches (searchState w))
      eqn:Q.
    + apply Nat.eqb_eq in Q. rewrite Q, Nat.leb_refl. reflexivity.
    + apply Nat.eqb_neq in Q.
      destruct (totalMatches (searchState w) <=? currentMatch (searchState w))
        eqn:L; [apply Nat.leb_le in L; lia|reflexivity].
  - destruct (currentMatch (searchState w) =? 1) eqn:Q.
    + apply Nat.eqb_eq in Q. rewrite Q. reflexivity.
    + apply Nat.eqb_neq in Q.
      destruct (currentMatch (searchState w) <=? 1) eqn:L;
        [apply Nat.leb_le in L; lia|reflexivity].
Qed.

Lemma run_cons (w : World) (e : Event) (es : list Event) :
  run w (e :: es) = run (step w e) es.
Proof. reflexivity. Qed.

Lemma navigate_next_iter (j : nat) :
  forall w : World,
    consistent w ->
    1 <= currentMatch (searchState w) ->
    currentMatch (searchState w) + j <= totalMatches (searchState w) ->
    consistent (run w (repeat (EvNavigate next) j))
    /\ totalMatches (searchState (run w (repeat (EvNavigate next) j)))
       = totalMatches (searchState w)
    /\ currentMatch (searchState (run w (repeat (EvNavigate next) j)))
       = currentMatch (searchState w) + j.
Proof.
  induction j as [|j IH]; intros w Hc H1 Hj.
  - split; [exact Hc|split; [reflexivity|simpl; lia]].
  - destruct (navigate_step next w Hc) as (Hc' & Ht & Hcur); [lia|].
    destruct (currentMatch (searchState w) =? totalMatches (searchState w))
      eqn:Q; [apply Nat.eqb_eq in Q; lia|].
    simpl repeat. rewrite run_cons.
    destruct (IH (step w (EvNavigate next)) Hc') as (Hc2 & Ht2 & Hcur2);
      [lia|lia|].
    rewrite Ht2, Hcur2, Ht, Hcur.
    split; [exact Hc2|split; [reflexivity|lia]].
Qed.

Lemma navigate_prev_iter (j : nat) :
  forall w : World,
    consistent w ->
    j < currentMatch (searchState w) ->
    consistent (run w (repeat (EvNavigate prev) j))
    /\ totalMatches (searchState (run w (repeat (EvNavigate prev) j)))
       = totalMatches (searchState w)
    /\ currentMatch (searchState (run w (repeat (EvNavigate prev) j)))
       = currentMatch (searchState w) - j.
Proof.
  induction j as [|j IH]; intros w Hc Hj.
  - split; [exact Hc|split; [reflexivity|simpl; lia]].
  - assert (Hn : 0 < totalMatches (searchState w)).
    { destruct Hc as [_ [[_ H]|H]]; lia. }
    destruct (navigate_step prev w Hc Hn) as (Hc' & Ht & Hcur).
    destruct (currentMatch (searchState w) =? 1) eqn:Q;
      [apply Nat.eqb_eq in Q; lia|].
    simpl repeat. rewrite run_cons.
    destruct (IH (step w (EvNavigate prev)) Hc') as (Hc2 & Ht2 & Hcur2);
      [lia|].
    rewrite Ht2, Hcur2, Ht, Hcur.
    split; [exact Hc2|split; [reflexivity|lia]].
Qed.

Lemma repeat_snoc (A : Type) (x : A) (n : nat) :
  repeat x (S n) = repeat x n ++ [x].
Proof. induction n as [|n IH]; simpl in *; [|rewrite <- IH]; reflexivity. Qed.

(** C4.  In every state the hook reaches: with an empty match array a
    navigation changes nothing; with [totalMatches = N > 0], next maps
    [currentMatch = N] to 1 and any other value to [currentMatch + 1], prev
    maps 1 to [N] and any other value to [currentMatch - 1]; and from
    [currentMatch = 1], [N] times next, as well as [N] times prev, lead back
    to [currentMatch = 1]. *)
Theorem navigate_wraparound (b : Backend) (es : list Event) :
  let w := run (initialWorld b) es in
  let N := totalMatches (searchState w) in
  let cur := currentMatch (searchState w) in
  (matches w = [] -> forall d, step w (EvNavigate d) = w)
  /\ (0 < N ->
      currentMatch (searchState (step w (EvNavigate next)))
      = (if cur =? N then 1 else cur + 1)
      /\ currentMatch (searchState (step w (EvNavigate prev)))
         = (if cur =? 1 then N else cur - 1)
      /\ (cur = 1 ->
          currentMatch (searchState (run w (repeat (EvNavigate next) N))) = 1
          /\ currentMatch (searchState (run w (repeat (EvNavigate prev) N)))
             = 1)).
Proof.
  intros w N cur.
  assert (Hc : consistent w)
    by (apply run_consistent, initial_consistent).
  split.
  - intros Hm d. simpl. unfold UseSearch.navigateToMatch.
    rewrite Hm. reflexivity.
  - intros HN.
    destruct (navigate_step next w Hc HN) as (_ & _ & Hn).
    destruct (navigate_step prev w Hc HN) as (_ & _ & Hp).
    split; [exact Hn|]. split; [exact Hp|].
    intros H1. subst N cur. split.
    + destruct (totalMatches (searchState w)) as [|n] eqn:EN; [lia|].
      rewrite repeat_snoc, run_snoc.
      destruct (navigate_next_iter n w Hc) as (Hc1 & Ht1 & Hcur1); [lia|lia|].
      destruct (navigate_step next _ Hc1) as (_ & _ & Hn1); [lia|].
      rewrite Hn1, Ht1, Hcur1, H1, EN.
      simpl. now rewrite Nat.eqb_refl.
    + destruct (totalMatches (searchState w)) as [|n] eqn:EN; [lia|].
      simpl repeat. rewrite run_cons.
      destruct (navigate_step prev w Hc) as (Hc1 & Ht1 & Hcur1); [lia|].
      rewrite H1, EN, Nat.eqb_refl in Hcur1.
      destruct (navigate_prev_iter n (step w (EvNavigate prev)) Hc1)
        as (_ & _ & Hcur2); [lia|].
      rewrite Hcur2, Hcur1. lia.
Qed.

(** C9.  A query that trims to the empty string makes [performSearch] (of
    any render, hence also [setQuery]) clear the match array and set both
    counters to 0; the backend is not called and keeps its state. *)
Theorem empty_query_short_circuits (cs ww : bool) (q : jstring) (w : World) :
  trim q = [] ->
  let w' := performSearch cs ww q w in
  matches w' = []
  /\ currentMatch (searchState w') = 0
  /\ totalMatches (searchState w') = 0
  /\ query (searchState w') = q
  /\ calls w' = calls w
  /\ backend w' = backend w
  /\ calls (step w (EvSetQuery q)) = calls w
  /\ matches (step w (EvSetQuery q)) = [].
Proof.
  intros Hq. simpl. unfold UseSearch.setQuery, UseSearch.performSearch.
  rewrite Hq. simpl. repeat split.
Qed.

(** What a search with a non-blank query leaves in the state. *)
Lemma performSearch_result
    (f : jstring -> SearchOptions -> Backend -> list SearchMatch * Backend)
    (cs ww : bool) (q : jstring) (w : World) :
  onSearch = Some f ->
  isEmpty (trim q) = false ->
  matches (performSearch cs ww q w)
  = fst (f q (mkSearchOptions cs ww) (backend w))
  /\ totalMatches (searchState (performSearch cs ww q w))
     = length (fst (f q (mkSearchOptions cs ww) (backend w)))
  /\ caseSensitive (searchState (performSearch cs ww q w))
     = caseSensitive (searchState w)
  /\ wholeWord (searchState (performSearch cs ww q w))
     = wholeWord (searchState w)
  /\ In (CallSearch q (mkSearchOptions cs ww))
        (calls (performSearch cs ww q w)).
Proof.
  intros Hf Hq. unfold UseSearch.performSearch. rewrite Hq, Hf.
  destruct (f q (mkSearchOptions cs ww) (backend w)) as [ms b'].
  destruct ms as [|m ms].
  - simpl. repeat split. apply in_or_app. right. now left.
  - cbv zeta.
    match goal with |- context [callNavigate onNavigate m next ?x] =>
      generalize (callNavigate_state m next x);
      assert (Hcalls : In (CallSearch q (mkSearchOptions cs ww))
                         (calls (callNavigate onNavigate m next x)))
    end.
    { unfold callNavigate. destruct onNavigate; simpl.
      - apply in_or_app. left. apply in_or_app. right. now left.
      - apply in_or_app. right. now left. }
    intros (Hs & Hm & _). rewrite Hs, Hm. simpl. auto.
Qed.

(** The timer a toggle sets re-runs the search with the options the state
    had before the toggle. *)
Ltac run_toggle_then_timer Hf Ht Hq :=
  match type of Hq with
  | isEmpty (trim (query (searchState ?w))) = false =>
      assert (Hne : isEmpty (query (searchState w)) = false)
        by (destruct (query (searchState w));
            [discriminate Hq|reflexivity]);
      unfold UseSearch.run; simpl fold_left;
      unfold toggleCaseSensitive, toggleWholeWord;
      rewrite Hne; unfold runTimer, schedule; simpl timers; rewrite Ht;
      simpl app; cbv beta iota zeta; simpl closureCaseSensitive;
      simpl closureWholeWord; simpl timerQuery
  end.

Lemma toggleCaseSensitive_researches_with_closure_options
    (f : jstring -> SearchOptions -> Backend -> list SearchMatch * Backend)
    (w : World) :
  onSearch = Some f ->
  timers w = [] ->
  isEmpty (trim (query (searchState w))) = false ->
  caseSensitive
    (searchState (run w [EvToggleCaseSensitive; EvTimer]))
  = negb (caseSensitive (searchState w))
  /\ matches (run w [EvToggleCaseSensitive; EvTimer])
     = fst (f (query (searchState w))
              (mkSearchOptions (caseSensitive (searchState w))
                 (wholeWord (searchState w)))
              (backend w))
  /\ In (CallSearch (query (searchState w))
           (mkSearchOptions (caseSensitive (searchState w))
              (wholeWord (searchState w))))
        (calls (run w [EvToggleCaseSensitive; EvTimer])).
Proof.
  intros Hf Ht Hq. run_toggle_then_timer Hf Ht Hq.
  match goal with |- context [UseSearch.performSearch _ _ ?cs ?ww ?q ?x] =>
    destruct (performSearch_result f cs ww q x Hf Hq)
      as (Hm & _ & Hcs & _ & Hc)
  end.
  rewrite Hm, Hcs. simpl. auto.
Qed.

Lemma toggleWholeWord_researches_with_closure_options
    (f : jstring -> SearchOptions -> Backend -> list SearchMatch * Backend)
    (w : World) :
  onSearch = Some f ->
  timers w = [] ->
  isEmpty (trim (query (searchState w))) = false ->
  wholeWord (searchState (run w [EvToggleWholeWord; EvTimer]))
  = negb (wholeWord (searchState w))
  /\ matches (run w [EvToggleWholeWord; EvTimer])
     = fst (f (query (searchState w))
              (mkSearchOptions (caseSensitive (searchState w))
                 (wholeWord (searchState w)))
              (backend w))
  /\ In (CallSearch (query (searchState w))
           (mkSearchOptions (caseSensitive (searchState w))
              (wholeWord (searchState w))))
        (calls (run w [EvToggleWholeWord; EvTimer])).
Proof.
  intros Hf Ht Hq. run_toggle_then_timer Hf Ht Hq.
  match goal with |- context [UseSearch.performSearch _ _ ?cs ?ww ?q ?x] =>
    destruct (performSearch_result f cs ww q x Hf Hq)
      as (Hm & _ & _ & Hww & Hc)
  end.
  rewrite Hm, Hww. simpl. auto.
Qed.

End Navigation.

(** *** Highlight renderer *)

Section Renderer.

Lemma substring_split (s : jstring) (a b : nat) :
  a <= b ->
  substring s 0 a ++ substring s a b ++ substringFrom s b = s.
Proof.
  intros Hab. unfold substringFrom, substring.
  set (n := length s).
  replace (Nat.min (Nat.min 0 n) (Nat.min a n)) with 0 by lia.
  replace (Nat.max (Nat.min 0 n) (Nat.min a n) - 0) with (Nat.min a n) by lia.
  replace (Nat.min (Nat.min a n) (Nat.min b n)) with (Nat.min a n) by lia.
  replace (Nat.max (Nat.min a n) (Nat.min b n) - Nat.min a n)
    with (Nat.min b n - Nat.min a n) by lia.
  replace (Nat.min (Nat.min b n) (Nat.min n n)) with (Nat.min b n) by lia.
  replace (Nat.max (Nat.min b n) (Nat.min n n) - Nat.min b n)
    with (n - Nat.min b n) by lia.
  simpl skipn.
  rewrite (firstn_all2 (n:=n - Nat.min b n))
    by (rewrite length_skipn; subst n; lia).
  set (a' := Nat.min a n). set (b' := Nat.min b n).
  assert (Hab' : a' <= b') by (subst a' b'; lia).
  rewrite <- (firstn_skipn a' s) at 4. f_equal.
  rewrite <- (firstn_skipn (b' - a') (skipn a' s)) at 2. f_equal.
  rewrite skipn_skipn. f_equal. lia.
Qed.

Lemma textContent_span (ms : list SearchMatch) (cur : option nat)
    (m : SearchMatch) (t : jstring) :
  textContent (highlightSpan ms cur m t) = t.
Proof.
  unfold highlightSpan. simpl. destruct t; simpl; [reflexivity|].
  now rewrite app_nil_r.
Qed.

Lemma textContentOf_app (l1 l2 : list node) :
  textContentOf (l1 ++ l2) = textContentOf l1 ++ textContentOf l2.
Proof. unfold textContentOf. now rewrite map_app, concat_app. Qed.

Lemma textContentOf_optional (t : jstring) :
  textContentOf (if isEmpty t then [] else [Text t]) = t.
Proof.
  destruct t; simpl; [reflexivity|]. unfold textContentOf. simpl.
  now rewrite app_nil_r.
Qed.

Lemma textContentOf_single (n : node) : textContentOf [n] = textContent n.
Proof. unfold textContentOf. simpl. apply app_nil_r. Qed.

Lemma decorationsOf_single (n : node) : decorationsOf [n] = decorationsIn n.
Proof. unfold decorationsOf. simpl. apply app_nil_r. Qed.

Lemma decorationsOf_app (l1 l2 : list node) :
  decorationsOf (l1 ++ l2) = decorationsOf l1 ++ decorationsOf l2.
Proof. unfold decorationsOf. now rewrite map_app, concat_app. Qed.

Lemma decorationsOf_optional (t : jstring) :
  decorationsOf (if isEmpty t then [] else [Text t]) = [].
Proof. destruct t; reflexivity. Qed.

Lemma fallsWithin_within (off : nat) (s : jstring) (m : SearchMatch) :
  wellFormed m ->
  fallsWithin off (off + length s) m = true <-> within off s m.
Proof.
  unfold fallsWithin, within, wellFormed. intros H.
  rewrite andb_true_iff, !Nat.leb_le. tauto.
Qed.

(** The sort keeps the matches and orders them by descending start. *)
Lemma insertDesc_In (m x : SearchMatch) (l : list SearchMatch) :
  In x (insertDesc m l) <-> x = m \/ In x l.
Proof.
  induction l as [|y l IH]; simpl.
  - intuition.
  - destruct (startIndex y <=? startIndex m); simpl; [intuition|].
    rewrite IH. intuition.
Qed.

Lemma sortDesc_In (x : SearchMatch) (l : list SearchMatch) :
  In x (sortDesc l) <-> In x l.
Proof.
  induction l as [|y l IH]; simpl; [tauto|].
  rewrite insertDesc_In, IH. intuition.
Qed.

Lemma insertDesc_descending (m : SearchMatch) (l : list SearchMatch) :
  descending l -> descending (insertDesc m l).
Proof.
  induction l as [|y l IH]; simpl; intros H.
  - split; [intros y []|exact I].
  - destruct H as [Hy Hl].
    destruct (startIndex y <=? startIndex m) eqn:E.
    + apply Nat.leb_le in E. simpl. repeat split; auto.
      intros z [<-|Hz]; [exact E|]. specialize (Hy z Hz). lia.
    + apply Nat.leb_gt in E. simpl. split; [|auto].
      intros z Hz. apply insertDesc_In in Hz. destruct Hz as [->|Hz].
      * lia.
      * auto.
Qed.

Lemma sortDesc_descending (l : list SearchMatch) : descending (sortDesc l).
Proof.
  induction l as [|m l IH]; simpl; [exact I|].
  now apply insertDesc_descending.
Qed.

Lemma filter_descending (f : SearchMatch -> bool) (l : list SearchMatch) :
  descending l -> descending (filter f l).
Proof.
  induction l as [|x l IH]; simpl; intros H; [exact I|].
  destruct H as [Hx Hl]. destruct (f x); simpl; auto.
  split; auto. intros y Hy. apply filter_In in Hy. apply Hx, Hy.
Qed.

Lemma descending_last (l : list SearchMatch) (m : SearchMatch) :
  descending (l ++ [m]) ->
  forall x, In x (l ++ [m]) -> startIndex m <= startIndex x.
Proof.
  induction l as [|y l IH]; simpl; intros H x Hx.
  - destruct Hx as [<-|[]]. lia.
  - destruct H as [Hy Hl]. destruct Hx as [<-|Hx].
    + apply Hy. apply in_or_app. right. now left.
    + now apply IH.
Qed.

(** The match the loop over the reversed [nodeMatches] processes: a match
    that falls within the node with the least start index. *)
Lemma head_of_reversed_nodeMatches (f : SearchMatch -> bool)
    (ms : list SearchMatch) (m : SearchMatch) (r : list SearchMatch) :
  rev (filter f (sortDesc ms)) = m :: r ->
  In m ms /\ f m = true
  /\ forall m', In m' ms -> f m' = true -> startIndex m <= startIndex m'.
Proof.
  intros H.
  assert (Hf : filter f (sortDesc ms) = rev r ++ [m]).
  { rewrite <- (rev_involutive (filter f (sortDesc ms))), H. reflexivity. }
  assert (Hin : In m (filter f (sortDesc ms))).
  { rewrite Hf. apply in_or_app. right. now left. }
  apply filter_In in Hin. destruct Hin as [Hin Hfm].
  split; [now apply sortDesc_In|]. split; [exact Hfm|].
  intros m' Hm' Hfm'.
  apply (descending_last (rev r) m).
  - rewrite <- Hf. apply filter_descending, sortDesc_descending.
  - rewrite <- Hf. apply filter_In. split; [now apply sortDesc_In|exact Hfm'].
Qed.

Lemma decorationsIn_span (ms : list SearchMatch) (cur : option nat)
    (m : SearchMatch) (t : jstring) :
  decorationsIn (highlightSpan ms cur m t)
  = [(Some (id m), t, isCurrent (highlightSpan ms cur m t))].
Proof.
  assert (Ht : textContent (highlightSpan ms cur m t) = t)
    by apply textContent_span.
  unfold highlightSpan in *. cbn [decorationsIn].
  replace (isHighlight _) with true by reflexivity.
  rewrite Ht. destruct t; reflexivity.
Qed.

Lemma Forall_wellFormed_In (ms : list SearchMatch) (m : SearchMatch) :
  Forall wellFormed ms -> In m ms -> wellFormed m.
Proof. intros H. now apply Forall_forall. Qed.

(** The fragments that replace a text node spell its text. *)
Lemma highlightTextNode_text (ms : list SearchMatch) (cur : option nat)
    (s : jstring) (off : nat) :
  Forall wellFormed ms ->
  textContentOf (highlightTextNode ms (sortDesc ms) cur s off) = s.
Proof.
  intros Hwf. unfold highlightTextNode.
  destruct (rev (filter (fallsWithin off (off + length s)) (sortDesc ms)))
    as [|m r] eqn:E.
  - unfold textContentOf. simpl. apply app_nil_r.
  - apply head_of_reversed_nodeMatches in E. destruct E as (Hin & Hf & _).
    pose proof (Forall_wellFormed_In ms m Hwf Hin) as Hm.
    cbv zeta. rewrite !textContentOf_app, !textContentOf_optional.
    rewrite textContentOf_single, textContent_span.
    apply substring_split. unfold wellFormed in Hm. lia.
Qed.

(** A text node gets no decoration when no match lies within it, and one
    decoration, for a first match within it, otherwise. *)
Lemma highlightTextNode_decorated (ms : list SearchMatch) (cur : option nat)
    (s : jstring) (off : nat) :
  Forall wellFormed ms ->
  leafDecorated ms (off, s)
    (decorationsOf (highlightTextNode ms (sortDesc ms) cur s off)).
Proof.
  intros Hwf. unfold highlightTextNode, leafDecorated.
  destruct (rev (filter (fallsWithin off (off + length s)) (sortDesc ms)))
    as [|m r] eqn:E.
  - left. split; [reflexivity|]. intros m Hin Hw.
    assert (Hr : filter (fallsWithin off (off + length s)) (sortDesc ms) = []).
    { rewrite <- (rev_involutive (filter _ _)), E. reflexivity. }
    assert (Hm : In m (filter (fallsWithin off (off + length s)) (sortDesc ms))).
    { apply filter_In. split; [now apply sortDesc_In|].
      apply fallsWithin_within; [now apply (Forall_wellFormed_In ms _ Hwf)|exact Hw]. }
    rewrite Hr in Hm. destruct Hm.
  - right. apply head_of_reversed_nodeMatches in E.
    destruct E as (Hin & Hf & Hmin).
    pose proof (Forall_wellFormed_In ms m Hwf Hin) as Hm.
    cbv zeta. rewrite !decorationsOf_app, !decorationsOf_optional.
    rewrite decorationsOf_single, decorationsIn_span. simpl app.
    eexists m, _. split; [|reflexivity].
    split; [exact Hin|]. split; [now apply fallsWithin_within|].
    intros m' Hin' Hw'. apply Hmin; [exact Hin'|].
    apply fallsWithin_within; [now apply (Forall_wellFormed_In ms _ Hwf)|exact Hw'].
Qed.

(** The walk over an element goes through its children. *)
Lemma highlightNode_Element (ms sorted : list SearchMatch) (cur : option nat)
    (t : jstring) (c : list jstring) (a : option jstring) (ch : list node)
    (off : nat) :
  highlightNode ms sorted cur (Element t c a ch) off
  = ([Element t c a (fst (highlightNodes ms sorted cur ch off))],
     snd (highlightNodes ms sorted cur ch off)).
Proof.
  simpl.
  match goal with |- (let '(_, _) := ?w ch off in _) = _ =>
    assert (Hw : forall l o, w l o = highlightNodes ms sorted cur l o)
  end.
  { induction l as [|x l IH]; intros o; [reflexivity|].
    simpl. destruct (highlightNode ms sorted cur x o) as [xs o1].
    rewrite IH. reflexivity. }
  rewrite Hw. now destruct (highlightNodes ms sorted cur ch off).
Qed.

Lemma highlightNodes_cons (ms sorted : list SearchMatch) (cur : option nat)
    (x : node) (r : list node) (off : nat) :
  highlightNodes ms sorted cur (x :: r) off
  = (fst (highlightNode ms sorted cur x off)
       ++ fst (highlightNodes ms sorted cur r
                 (snd (highlightNode ms sorted cur x off))),
     snd (highlightNodes ms sorted cur r
            (snd (highlightNode ms sorted cur x off)))).
Proof.
  simpl. destruct (highlightNode ms sorted cur x off) as [xs o1].
  simpl. now destruct (highlightNodes ms sorted cur r o1).
Qed.

Lemma length_concat_textNodes (n : node) :
  length (concat (textNodes n)) = length (textContent n).
Proof.
  induction n as [s|t c a ch IH] using node_ind; simpl.
  - now rewrite app_nil_r.
  - induction IH as [|x r Hx _ IHr]; simpl; [reflexivity|].
    rewrite concat_app, !length_app, Hx, IHr. reflexivity.
Qed.

(** The offset after a node is the offset before it plus the length of its
    text, and the nodes that replace it spell its text. *)
Lemma highlightNode_text (ms : list SearchMatch) (cur : option nat)
    (n : node) :
  Forall wellFormed ms ->
  forall off,
    snd (highlightNode ms (sortDesc ms) cur n off)
    = off + length (textContent n)
    /\ textContentOf (fst (highlightNode ms (sortDesc ms) cur n off))
       = textContent n.
Proof.
  intros Hwf. induction n as [s|t c a ch IH] using node_ind; intros off.
  - simpl. split; [reflexivity|]. now apply highlightTextNode_text.
  - rewrite highlightNode_Element. simpl fst. simpl snd.
    assert (H : snd (highlightNodes ms (sortDesc ms) cur ch off)
                = off + length (textContentOf ch)
                /\ textContentOf (fst (highlightNodes ms (sortDesc ms) cur ch off))
                   = textContentOf ch).
    { revert off. induction IH as [|x r Hx _ IHr]; intros off.
      - simpl. split; [lia|reflexivity].
      - rewrite highlightNodes_cons. simpl fst. simpl snd.
        destruct (Hx off) as [Hx1 Hx2].
        destruct (IHr (snd (highlightNode ms (sortDesc ms) cur x off)))
          as [Hr1 Hr2].
        rewrite textContentOf_app, Hx2, Hr2, Hr1, Hx1.
        unfold textContentOf. simpl. rewrite length_app. split; [lia|reflexivity]. }
    destruct H as [H1 H2]. split.
    + rewrite H1. reflexivity.
    + unfold textContentOf at 1. simpl. rewrite app_nil_r. exact H2.
Qed.

Lemma highlightNodes_text (ms : list SearchMatch) (cur : option nat)
    (l : list node) (off : nat) :
  Forall wellFormed ms ->
  snd (highlightNodes ms (sortDesc ms) cur l off)
  = off + length (textContentOf l)
  /\ textContentOf (fst (highlightNodes ms (sortDesc ms) cur l off))
     = textContentOf l.
Proof.
  intros Hwf. revert off. induction l as [|x r IH]; intros off.
  - simpl. split; [lia|reflexivity].
  - rewrite highlightNodes_cons. simpl fst. simpl snd.
    destruct (highlightNode_text ms cur x Hwf off) as [Hx1 Hx2].
    destruct (IH (snd (highlightNode ms (sortDesc ms) cur x off)))
      as [Hr1 Hr2].
    rewrite textContentOf_app, Hx2, Hr2, Hr1, Hx1.
    unfold textContentOf. simpl. rewrite length_app. split; [lia|reflexivity].
Qed.

(** [removeHighlights] and [normalize] keep the text. *)
Lemma textContentOf_mergeText (l : list node) :
  textContentOf (mergeText l) = textContentOf l.
Proof.
  induction l as [|x l IH]; [reflexivity|].
  destruct x as [s|t c a ch].
  - simpl mergeText. change (textContentOf (Text s :: l))
      with (s ++ textContentOf l). rewrite <- IH.
    destruct (mergeText l) as [|[s'|t c a ch] r'].
    + destruct s; reflexivity.
    + change (textContentOf (Text (s ++ s') :: r'))
        with ((s ++ s') ++ textContentOf r').
      change (textContentOf (Text s' :: r')) with (s' ++ textContentOf r').
      now rewrite app_assoc.
    + destruct s; reflexivity.
  - simpl mergeText.
    change (textContentOf (Element t c a ch :: mergeText l))
      with (textContent (Element t c a ch) ++ textContentOf (mergeText l)).
    now rewrite IH.
Qed.

Lemma textContentOf_map (f : node -> node) (l : list node) :
  Forall (fun x => textContent (f x) = textContent x) l ->
  textContentOf (map f l) = textContentOf l.
Proof.
  unfold textContentOf. induction 1 as [|x r Hx _ IH]; simpl; [reflexivity|].
  now rewrite Hx, IH.
Qed.

Lemma textContent_normalize (n : node) :
  textContent (normalize n) = textContent n.
Proof.
  induction n as [s|t c a ch IH] using node_ind; [reflexivity|].
  simpl. fold (textContentOf (mergeText (map normalize ch))).
  rewrite textContentOf_mergeText. now apply textContentOf_map.
Qed.

Lemma textContent_removeHighlights (n : node) :
  textContent (removeHighlights n) = textContent n.
Proof.
  induction n as [s|t c a ch IH] using node_ind; [reflexivity|].
  simpl.
  set (ch' := map (fun x => if isHighlight x then Text (textContent x)
                            else removeHighlights x) ch).
  assert (H : textContentOf ch' = textContentOf ch).
  { apply textContentOf_map. eapply Forall_impl; [|exact IH].
    intros x Hx. now destruct (isHighlight x). }
  destruct (existsb isHighlight ch).
  - fold (textContentOf (mergeText (map normalize ch'))).
    rewrite textContentOf_mergeText, textContentOf_map; [exact H|].
    apply Forall_forall. intros x _. apply textContent_normalize.
  - exact H.
Qed.

(** [removeHighlights] leaves no decoration below the element. *)
Lemma decorationsOf_mergeText (l : list node) :
  decorationsOf (mergeText l) = decorationsOf l.
Proof.
  induction l as [|x l IH]; [reflexivity|].
  destruct x as [s|t c a ch].
  - simpl mergeText. change (decorationsOf (Text s :: l))
      with (decorationsOf l). rewrite <- IH.
    destruct (mergeText l) as [|[s'|t c a ch] r']; destruct s; reflexivity.
  - simpl mergeText.
    change (decorationsOf (Element t c a ch :: mergeText l))
      with (decorationsIn (Element t c a ch) ++ decorationsOf (mergeText l)).
    now rewrite IH.
Qed.

Lemma decorationsOf_map (f : node -> node) (l : list node) :
  Forall (fun x => decorationsIn (f x) = decorationsIn x) l ->
  decorationsOf (map f l) = decorationsOf l.
Proof.
  unfold decorationsOf. induction 1 as [|x r Hx _ IH]; simpl; [reflexivity|].
  now rewrite Hx, IH.
Qed.

Lemma decorationsIn_normalize (n : node) :
  decorationsIn (normalize n) = decorationsIn n.
Proof.
  induction n as [s|t c a ch IH] using node_ind; [reflexivity|].
  pose proof (textContent_normalize (Element t c a ch)) as Ht.
  simpl normalize in *. cbn [decorationsIn].
  fold (decorationsOf (mergeText (map normalize ch))).
  fold (decorationsOf ch).
  rewrite decorationsOf_mergeText, (decorationsOf_map normalize ch IH), Ht.
  reflexivity.
Qed.

Lemma decorationsOf_nil (l : list node) :
  Forall (fun x => decorationsIn x = []) l -> decorationsOf l = [].
Proof.
  unfold decorationsOf. induction 1 as [|x r Hx _ IH]; simpl; [reflexivity|].
  now rewrite Hx, IH.
Qed.

Lemma decorationsOf_nil_inv (l : list node) :
  decorationsOf l = [] -> Forall (fun x => decorationsIn x = []) l.
Proof.
  unfold decorationsOf. induction l as [|x r IH]; simpl; intros H;
    [constructor|].
  apply app_eq_nil in H. destruct H as [Hx Hr]. constructor; auto.
Qed.

Lemma removeHighlights_children_clean (ch : list node) :
  Forall (fun x => isHighlight x = false ->
                   decorationsIn (removeHighlights x) = []) ch ->
  decorationsOf
    (map (fun x => if isHighlight x then Text (textContent x)
                   else removeHighlights x) ch) = [].
Proof.
  intros H. apply decorationsOf_nil. apply Forall_map.
  eapply Forall_impl; [|exact H]. intros x Hx. cbv beta in Hx.
  destruct (isHighlight x); [reflexivity|exact (Hx eq_refl)].
Qed.

Lemma removeHighlights_clean (n : node) :
  isHighlight n = false -> decorationsIn (removeHighlights n) = [].
Proof.
  induction n as [s|t c a ch IH] using node_ind; intros Hn; [reflexivity|].
  simpl removeHighlights. cbn [decorationsIn].
  replace (isHighlight (Element t c a _)) with false by (symmetry; exact Hn).
  simpl app.
  match goal with |- concat (map decorationsIn ?l) = [] =>
    fold (decorationsOf l) end.
  destruct (existsb isHighlight ch).
  - rewrite decorationsOf_mergeText, decorationsOf_map.
    + now apply removeHighlights_children_clean.
    + apply Forall_forall. intros x _. apply decorationsIn_normalize.
  - now apply removeHighlights_children_clean.
Qed.

Lemma decorations_removeHighlights (e : node) :
  decorations (removeHighlights e) = [].
Proof.
  destruct e as [s|t c a ch]; [reflexivity|].
  simpl removeHighlights. unfold decorations.
  match goal with |- concat (map decorationsIn ?l) = [] =>
    fold (decorationsOf l) end.
  assert (H : decorationsOf
                (map (fun x => if isHighlight x then Text (textContent x)
                               else removeHighlights x) ch) = []).
  { apply removeHighlights_children_clean. apply Forall_forall.
    intros x _. apply removeHighlights_clean. }
  destruct (existsb isHighlight ch); [|exact H].
  rewrite decorationsOf_mergeText, decorationsOf_map; [exact H|].
  apply Forall_forall. intros x _. apply decorationsIn_normalize.
Qed.

(** [highlightMatches] keeps the text of the element. *)
Lemma textContent_highlightMatches (e : node) (ms : list SearchMatch)
    (cur : option nat) :
  Forall wellFormed ms ->
  textContent (highlightMatches e ms cur) = textContent e.
Proof.
  intros Hwf. unfold highlightMatches.
  rewrite <- (textContent_removeHighlights e).
  destruct (length ms =? 0); [reflexivity|].
  destruct (removeHighlights e) as [s|t c a ch]; [reflexivity|].
  simpl. apply (highlightNodes_text ms cur ch 0 Hwf).
Qed.

Lemma leafRangesFrom_app (off : nat) (l1 l2 : list jstring) :
  leafRangesFrom off (l1 ++ l2)
  = leafRangesFrom off l1 ++ leafRangesFrom (off + length (concat l1)) l2.
Proof.
  revert off. induction l1 as [|s l1 IH]; intros off; simpl.
  - now rewrite Nat.add_0_r.
  - rewrite IH, length_app, Nat.add_assoc. reflexivity.
Qed.

Lemma decorationsIn_nil_inv (t : jstring) (c : list jstring)
    (a : option jstring) (ch : list node) :
  decorationsIn (Element t c a ch) = [] ->
  existsb (jeqb highlightClass) c = false
  /\ Forall (fun x => decorationsIn x = []) ch.
Proof.
  cbn [decorationsIn]. intros H. apply app_eq_nil in H. destruct H as [H1 H2].
  split.
  - unfold isHighlight, hasClass in H1.
    destruct (existsb (jeqb highlightClass) c); [discriminate H1|reflexivity].
  - now apply decorationsOf_nil_inv.
Qed.

(** Below a node without decorations, the decorations after the walk are
    those of its text nodes, in document order. *)
Lemma highlightNode_decorations (ms : list SearchMatch) (cur : option nat)
    (n : node) :
  Forall wellFormed ms ->
  decorationsIn n = [] ->
  forall off,
    decorationsOf (fst (highlightNode ms (sortDesc ms) cur n off))
    = concat (map (leafDecorations ms cur) (leafRangesFrom off (textNodes n))).
Proof.
  intros Hwf. induction n as [s|t c a ch IH] using node_ind; intros Hn off.
  - simpl. unfold leafDecorations. simpl. now rewrite app_nil_r.
  - apply decorationsIn_nil_inv in Hn. destruct Hn as [Hc Hch].
    rewrite highlightNode_Element. simpl fst.
    rewrite decorationsOf_single. cbn [decorationsIn].
    unfold isHighlight at 1, hasClass. rewrite Hc. simpl app.
    match goal with |- concat (map decorationsIn ?l) = _ =>
      fold (decorationsOf l) end.
    simpl textNodes. revert off.
    induction IH as [|x r Hx _ IHr]; intros off; [reflexivity|].
    inversion Hch as [|? ? Hdx Hdr]; subst.
    rewrite highlightNodes_cons. simpl fst.
    rewrite decorationsOf_app, (Hx Hdx off), (IHr Hdr).
    destruct (highlightNode_text ms cur x Hwf off) as [Ho _]. rewrite Ho.
    simpl map. simpl concat.
    rewrite leafRangesFrom_app, map_app, concat_app, length_concat_textNodes.
    reflexivity.
Qed.

Lemma highlightNodes_decorations (ms : list SearchMatch) (cur : option nat)
    (l : list node) :
  Forall wellFormed ms ->
  decorationsOf l = [] ->
  forall off,
    decorationsOf (fst (highlightNodes ms (sortDesc ms) cur l off))
    = concat (map (leafDecorations ms cur)
                (leafRangesFrom off (concat (map textNodes l)))).
Proof.
  intros Hwf Hl. apply decorationsOf_nil_inv in Hl.
  induction Hl as [|x r Hx _ IH]; intros off; [reflexivity|].
  rewrite highlightNodes_cons. simpl fst.
  rewrite decorationsOf_app, (highlightNode_decorations ms cur x Hwf Hx off), IH.
  destruct (highlightNode_text ms cur x Hwf off) as [Ho _]. rewrite Ho.
  simpl map. simpl concat.
  rewrite leafRangesFrom_app, map_app, concat_app, length_concat_textNodes.
  reflexivity.
Qed.

(** The decorations after [highlightMatches], text node by text node. *)
Lemma highlightMatches_decorations (e : node) (ms : list SearchMatch)
    (cur : option nat) :
  Forall wellFormed ms ->
  exists per,
    decorations (highlightMatches e ms cur) = concat per
    /\ Forall2 (leafDecorated ms) (leafRanges (removeHighlights e)) per.
Proof.
  intros Hwf. unfold highlightMatches.
  pose proof (decorations_removeHighlights e) as Hclean.
  destruct (length ms =? 0) eqn:E.
  - exists (map (fun _ => []) (leafRanges (removeHighlights e))).
    apply Nat.eqb_eq in E. destruct ms; [|discriminate E].
    rewrite Hclean. split.
    + induction (leafRanges (removeHighlights e)); simpl; auto.
    + induction (leafRanges (removeHighlights e)) as [|[off s] r IH];
        simpl; constructor; auto.
      left. split; [reflexivity|]. intros m [].
  - destruct (removeHighlights e) as [s|t c a ch].
    + exists []. split; [reflexivity|constructor].
    + exists (map (leafDecorations ms cur)
                (leafRangesFrom 0 (concat (map textNodes ch)))).
      split.
      * unfold decorations.
        match goal with |- concat (map decorationsIn ?l) = _ =>
          fold (decorationsOf l) end.
        now apply highlightNodes_decorations.
      * simpl leafRanges.
        induction (leafRangesFrom 0 (concat (map textNodes ch)))
          as [|[off s] r IH]; simpl; constructor; auto.
        now apply highlightTextNode_decorated.
Qed.

(** A decoration belongs to a match of the list that lies within a text
    node, in the offsets of the walk. *)
Lemma Forall2_In_r (A B : Type) (R : A -> B -> Prop) (l : list A)
    (l' : list B) (y : B) :
  Forall2 R l l' -> In y l' -> exists x, In x l /\ R x y.
Proof.
  induction 1 as [|a b l l' Hab _ IH]; intros Hy; [destruct Hy|].
  destruct Hy as [<-|Hy].
  - exists a. split; [now left|exact Hab].
  - destruct (IH Hy) as (x & Hx & Hr). exists x. split; [now right|exact Hr].
Qed.

Lemma decorations_belong_to_fitting_matches (e : node)
    (ms : list SearchMatch) (cur : option nat) (d : decoration) :
  Forall wellFormed ms ->
  In d (decorations (highlightMatches e ms cur)) ->
  exists m, In m ms /\ fitsLeaf (removeHighlights e) m
            /\ fst (fst d) = Some (id m).
Proof.
  intros Hwf Hd.
  destruct (highlightMatches_decorations e ms cur Hwf) as (per & Hper & HF).
  rewrite Hper in Hd. apply in_concat in Hd. destruct Hd as (ds & Hds & Hd).
  destruct (Forall2_In_r _ _ _ _ _ _ HF Hds) as ([off s] & Hleaf & Hdec).
  destruct Hdec as [[-> _]|(m & c & (Hin & Hw & _) & ->)]; [destruct Hd|].
  destruct Hd as [<-|[]]. exists m. split; [exact Hin|].
  split; [|reflexivity]. exists (off, s). split; assumption.
Qed.

Lemma NoDup_map_injective (A B : Type) (f : A -> B) (l : list A) (a b : A) :
  NoDup (map f l) -> In a l -> In b l -> f a = f b -> a = b.
Proof.
  induction l as [|x l IH]; simpl; intros Hnd Ha Hb Hf; [destruct Ha|].
  inversion Hnd as [|? ? Hx Hl]; subst.
  destruct Ha as [->|Ha], Hb as [->|Hb]; auto.
  - exfalso. apply Hx. rewrite Hf. now apply in_map.
  - exfalso. apply Hx. rewrite <- Hf. now apply in_map.
Qed.

(** In the offsets of the walk, a match that lies within no text node gets
    no decoration (the ids of the matches being distinct). *)
Lemma crossing_match_not_decorated (e : node) (ms : list SearchMatch)
    (cur : option nat) (m : SearchMatch) :
  Forall wellFormed ms -> NoDup (map id ms) -> In m ms ->
  ~ fitsLeaf (removeHighlights e) m ->
  ~ In (Some (id m))
       (map (fun d : decoration => fst (fst d))
          (decorations (highlightMatches e ms cur))).
Proof.
  intros Hwf Hnd Hin Hcross Hdec. apply in_map_iff in Hdec.
  destruct Hdec as (d & Hid & Hd).
  destruct (decorations_belong_to_fitting_matches e ms cur d Hwf Hd)
    as (m' & Hin' & Hfit & Hid').
  rewrite Hid in Hid'. inversion Hid' as [Heq].
  assert (m = m') by (eapply NoDup_map_injective; eauto).
  subst m'. now apply Hcross.
Qed.









Lemma removeHighlights_Element (t : jstring) (c : list jstring)
    (a : option jstring) (ch : list node) :
  removeHighlights (Element t c a ch)
  = Element t c a
      (if existsb isHighlight ch then mergeText (map normalize (map unwrap ch))
       else map unwrap ch).
Proof. reflexivity. Qed.





Lemma isHighlight_false_of_clean (n : node) :
  decorationsIn n = [] -> isHighlight n = false.
Proof.
  destruct n as [s|t c a ch]; [reflexivity|]. intros H.
  now apply decorationsIn_nil_inv in H.
Qed.



(** An element without decorations is left as it is. *)
Lemma removeHighlights_clean_id (n : node) :
  decorationsIn n = [] -> removeHighlights n = n.
Proof.
  induction n as [s|t c a ch IH] using node_ind; intros Hn; [reflexivity|].
  apply decorationsIn_nil_inv in Hn. destruct Hn as [_ Hch].
  rewrite removeHighlights_Element.
  assert (Hmap : map unwrap ch = ch /\ existsb isHighlight ch = false).
  { induction IH as [|x r Hx _ IHr]; [split; reflexivity|].
    inversion Hch as [|? ? Hdx Hdr]; subst.
    destruct (IHr Hdr) as [Hr1 Hr2]. simpl.
    unfold unwrap at 1. rewrite (isHighlight_false_of_clean x Hdx).
    rewrite (Hx Hdx), Hr1, Hr2. split; reflexivity. }
  destruct Hmap as [-> ->]. reflexivity.
Qed.

Lemma removeHighlights_root_id (e : node) :
  decorations e = [] -> removeHighlights e = e.
Proof.
  destruct e as [s|t c a ch]; [reflexivity|]. intros H.
  rewrite removeHighlights_Element.
  apply decorationsOf_nil_inv in H.
  assert (Hmap : map unwrap ch = ch /\ existsb isHighlight ch = false).
  { induction H as [|x r Hx _ IHr]; [split; reflexivity|].
    destruct IHr as [Hr1 Hr2]. simpl.
    unfold unwrap at 1. rewrite (isHighlight_false_of_clean x Hx).
    rewrite (removeHighlights_clean_id x Hx), Hr1, Hr2. split; reflexivity. }
  destruct Hmap as [-> ->]. reflexivity.
Qed.




(** C1 (amended).  For every element and every list of matches with
    [startIndex <= endIndex], [highlightMatches] keeps every character of
    the text, leaves a text node without a match within it undecorated, and
    gives a text node with one or more matches within it exactly one
    decoration: the span of a match within it of least start index, tagged
    with the id of that match. *)
Theorem highlightMatches_one_decoration_per_text_node (e : node)
    (ms : list SearchMatch) (cur : option nat) :
  Forall wellFormed ms ->
  textContent (highlightMatches e ms cur) = textContent e
  /\ exists per,
       decorations (highlightMatches e ms cur) = concat per
       /\ Forall2 (leafDecorated ms) (leafRanges (removeHighlights e)) per.
Proof.
  intros Hwf. split.
  - now apply textContent_highlightMatches.
  - now apply highlightMatches_decorations.
Qed.


End Renderer.

(** *** Terminal adapter *)

Section Terminal.



(** The function that replaces [navigateToMatch] in the object the terminal
    hook returns does pass the active options. *)
Lemma navigateInTerminal_passes_active_options (st : UseSearch.SearchState)
    (d : UseSearch.Direction) :
  isEmpty (trim (UseSearch.query st)) = false ->
  TerminalSearch.navigateInTerminal true st d
  = [navigationCall d (UseSearch.query st)
       (TerminalSearch.mkISearchOptions (UseSearch.caseSensitive st)
          (UseSearch.wholeWord st) false)].
Proof.
  intros Hq. unfold TerminalSearch.navigateInTerminal,
    TerminalSearch.searchInTerminal.
  rewrite Hq. simpl. now destruct d.
Qed.

End Terminal.

(** *** The properties on concrete pages *)

Section Examples.

Lemma fooMatches_found :
  findTextMatches fooFoo 0 (lit "foo") insensitive
    (RichOutputSearch.elementIdOf 0) = Some fooMatches.
Proof. reflexivity. Qed.

Lemma fooMatches_fit : Forall (fitsLeaf fooFoo) fooMatches.
Proof.
  repeat constructor; exists (0, lit "foo foo");
    (split; [now left|unfold within; simpl; lia]).
Qed.

Lemma fooMatches_wellFormed : Forall wellFormed fooMatches.
Proof. repeat constructor; unfold wellFormed; simpl; lia. Qed.

(** C1, counterexample.  Both matches of "foo" in the text node "foo foo"
    lie within that node; after [highlightMatches], and also after the whole
    [onSearch] with its call of [highlightMatches] per match, the only
    decoration is the one of the first match, so the second match has
    none. *)
Lemma highlightMatches_second_match_undecorated :
  Forall (fitsLeaf fooFoo) fooMatches
  /\ decorations (highlightMatches fooFoo fooMatches (Some 0))
     = [(Some (lit "search-element-0-0"), lit "foo", true)]
  /\ map decorations
       (RichOutputSearch.searchableElements
          (snd (RichOutputSearch.onSearch (lit "foo") insensitive
                  (RichOutputSearch.mkPage [fooFoo] false))))
     = [[(Some (lit "search-element-0-0"), lit "foo", false)]]
  /\ ~ everyMatchDecorated fooFoo fooMatches (Some 0).
Proof.
  split; [exact fooMatches_fit|]. split; [reflexivity|].
  split; [reflexivity|].
  intros H.
  specialize (H (mkSearchMatch (lit "search-element-0-1") 0 (lit "foo") 4 7)
                (or_intror (or_introl eq_refl))).
  vm_compute in H. destruct H as [H|[]]. discriminate H.
Qed.

Lemma highlightMatches_one_decoration_per_text_node_witness :
  Forall wellFormed fooMatches
  /\ (textContent (highlightMatches fooFoo fooMatches (Some 0))
      = textContent fooFoo
      /\ exists per,
           decorations (highlightMatches fooFoo fooMatches (Some 0))
           = concat per
           /\ Forall2 (leafDecorated fooMatches)
                (leafRanges (removeHighlights fooFoo)) per).
Proof.
  split.
  - repeat constructor; unfold wellFormed; simpl; lia.
  - apply (highlightMatches_one_decoration_per_text_node fooFoo fooMatches
             (Some 0)).
    repeat constructor; unfold wellFormed; simpl; lia.
Defined.


Lemma counters_invariant_witness :
  let st := UseSearch.searchState
              (richRun (pageOf "foo foo foo")
                 [UseSearch.EvOpen; UseSearch.EvSetQuery (lit "foo");
                  UseSearch.EvNavigate UseSearch.next]) in
  0 < UseSearch.totalMatches st
  /\ 1 <= UseSearch.currentMatch st <= UseSearch.totalMatches st.
Proof.
  split.
  - vm_compute. lia.
  - apply (counters_invariant _ (Some RichOutputSearch.onSearch) None None
             (pageOf "foo foo foo")
             [UseSearch.EvOpen; UseSearch.EvSetQuery (lit "foo");
              UseSearch.EvNavigate UseSearch.next]).
    vm_compute. lia.
Defined.

Lemma navigate_wraparound_witness :
  (forall d,
     UseSearch.step (Some RichOutputSearch.onSearch) None None
       (richRun (pageOf "foo foo foo") [UseSearch.EvOpen])
       (UseSearch.EvNavigate d)
     = richRun (pageOf "foo foo foo") [UseSearch.EvOpen])
  /\ UseSearch.currentMatch
       (UseSearch.searchState
          (UseSearch.run (Some RichOutputSearch.onSearch) None None
             (richRun (pageOf "foo foo foo")
                [UseSearch.EvOpen; UseSearch.EvSetQuery (lit "foo")])
             (repeat (UseSearch.EvNavigate UseSearch.next) 3))) = 1
  /\ UseSearch.currentMatch
       (UseSearch.searchState
          (UseSearch.run (Some RichOutputSearch.onSearch) None None
             (richRun (pageOf "foo foo foo")
                [UseSearch.EvOpen; UseSearch.EvSetQuery (lit "foo")])
             (repeat (UseSearch.EvNavigate UseSearch.prev) 3))) = 1.
Proof.
  split.
  - apply (proj1 (navigate_wraparound _ (Some RichOutputSearch.onSearch)
                    None None (pageOf "foo foo foo") [UseSearch.EvOpen])).
    reflexivity.
  - apply (proj2 (navigate_wraparound _ (Some RichOutputSearch.onSearch)
                    None None (pageOf "foo foo foo")
                    [UseSearch.EvOpen; UseSearch.EvSetQuery (lit "foo")])).
    + vm_compute. lia.
    + reflexivity.
Defined.

Lemma empty_query_short_circuits_witness :
  trim blank = []
  /\ UseSearch.matches
       (UseSearch.performSearch (Some RichOutputSearch.onSearch) None
          false false blank
          (richRun (pageOf "foo foo foo")
             [UseSearch.EvOpen; UseSearch.EvSetQuery (lit "foo")])) = [].
Proof.
  split.
  - reflexivity.
  - apply (empty_query_short_circuits _ (Some RichOutputSearch.onSearch) None
             None false false blank
             (richRun (pageOf "foo foo foo")
                [UseSearch.EvOpen; UseSearch.EvSetQuery (lit "foo")])).
    reflexivity.
Defined.

(** C2, at a failing input.  The page reads "foo Foo" and the query is
    "Foo".  With the initial options the search finds both words.  After
    [toggleCaseSensitive] and the timer it sets, the state says
    [caseSensitive = true], yet the backend was asked again with
    [caseSensitive = false] and the state holds the two matches of that
    search; a search of the same page under the new options finds one.
    Likewise for [toggleWholeWord] on the page "cats catalog cat" with the
    query "cat": three matches are kept where the whole-word search finds
    one. *)
Theorem toggleCaseSensitive_researches_with_previous_options :
  let before := richRun (pageOf "foo Foo")
                  [UseSearch.EvOpen; UseSearch.EvSetQuery (lit "Foo")] in
  let after := richRun (pageOf "foo Foo")
                 [UseSearch.EvOpen; UseSearch.EvSetQuery (lit "Foo");
                  UseSearch.EvToggleCaseSensitive; UseSearch.EvTimer] in
  let before' := richRun (pageOf "cats catalog cat")
                   [UseSearch.EvOpen; UseSearch.EvSetQuery (lit "cat")] in
  let after' := richRun (pageOf "cats catalog cat")
                  [UseSearch.EvOpen; UseSearch.EvSetQuery (lit "cat");
                   UseSearch.EvToggleWholeWord; UseSearch.EvTimer] in
  (UseSearch.caseSensitive (UseSearch.searchState before) = false
   /\ UseSearch.caseSensitive (UseSearch.searchState after) = true
   /\ UseSearch.query (UseSearch.searchState after) = lit "Foo"
   /\ UseSearch.timers after = []
   /\ last (UseSearch.calls after) UseSearch.CallClose
      = UseSearch.CallSearch (lit "Foo") (mkSearchOptions false false)
   /\ UseSearch.totalMatches (UseSearch.searchState after) = 2
   /\ map text (UseSearch.matches after) = [lit "foo"; lit "Foo"]
   /\ map text
        (fst (RichOutputSearch.onSearch (lit "Foo")
                (mkSearchOptions true false) (UseSearch.backend before)))
      = [lit "Foo"])
  /\ (UseSearch.wholeWord (UseSearch.searchState before') = false
      /\ UseSearch.wholeWord (UseSearch.searchState after') = true
      /\ last (UseSearch.calls after') UseSearch.CallClose
         = UseSearch.CallSearch (lit "cat") (mkSearchOptions false false)
      /\ map startIndex (UseSearch.matches after') = [0; 5; 13]
      /\ map startIndex
           (fst (RichOutputSearch.onSearch (lit "cat")
                   (mkSearchOptions false true) (UseSearch.backend before')))
         = [13]).
Proof. vm_compute. repeat split. Qed.

(** C3, at a failing input.  The searched text of [styled] is "xxxab", with
    the text nodes "xxxa" at [0, 4] and "b" at [4, 5]; the match of "ab" at
    [3, 5] crosses their boundary and is returned by [findTextMatches].
    [highlightMatches] counts the text of the style element in its offsets,
    finds the match within [1, 5], the range it gives to "xxxa", and wraps
    "xa" in a decoration tagged with the id of the match. *)
Theorem highlightMatches_decorates_crossing_match :
  extractTextContent styled = lit "xxxab"
  /\ leafRanges (removeScriptStyle styled) = [(0, lit "xxxa"); (4, lit "b")]
  /\ findTextMatches styled 0 (lit "ab") insensitive
       (RichOutputSearch.elementIdOf 0) = Some [abMatch]
  /\ ~ fitsLeaf (removeScriptStyle styled) abMatch
  /\ decorations (highlightMatches styled [abMatch] (Some 0))
     = [(Some (id abMatch), lit "xa", true)]
  /\ highlightMatches styled [abMatch] (Some 0)
     = div [ Element (lit "style") [] None [Text (lit "Z")];
             Element (lit "b") [] None
               [ Text (lit "xx");
                 Element (lit "span") [highlightClass; currentClass]
                   (Some (id abMatch)) [Text (lit "xa")] ];
             Element (lit "i") [] None [Text (lit "b")] ].
Proof.
  repeat split; try reflexivity.
  intros (leaf & Hin & Hw). simpl in Hin.
  destruct Hin as [<-|[<-|[]]]; unfold within in Hw; simpl in Hw; lia.
Qed.

(** The matcher on the sample texts: case folding, whole words, escaping,
    and the empty pattern with its zero-length matches. *)
Example case_insensitive_search :
  spansOf (findTextMatches (div [Text (lit "foo FOO Foo")]) 0 (lit "Foo")
             (mkSearchOptions false false) (lit "e"))
  = Some [(0, 3); (4, 7); (8, 11)].
Proof. reflexivity. Qed.

Example case_sensitive_search :
  spansOf (findTextMatches (div [Text (lit "foo FOO Foo")]) 0 (lit "Foo")
             (mkSearchOptions true false) (lit "e"))
  = Some [(8, 11)].
Proof. reflexivity. Qed.

Example whole_word_search :
  spansOf (findTextMatches (div [Text (lit "cats catalog cat")]) 0
             (lit "cat") (mkSearchOptions false true) (lit "e"))
  = Some [(13, 16)]
  /\ spansOf (findTextMatches (div [Text (lit "cats catalog cat")]) 0
                (lit "cat") (mkSearchOptions false false) (lit "e"))
     = Some [(0, 3); (5, 8); (13, 16)].
Proof. split; reflexivity. Qed.

Example escaped_search :
  source (createSearchRegex (lit "a.b*c") (mkSearchOptions false true))
  = lit "\ba\.b\*c\b"
  /\ spansOf (findTextMatches (div [Text (lit "aXbbc a.b*c abc")]) 0
                (lit "a.b*c") (mkSearchOptions false false) (lit "e"))
     = Some [(6, 11)].
Proof. split; reflexivity. Qed.

Example empty_pattern_search :
  spansOf (findTextMatches (div [Text (lit "ab")]) 0 []
             (mkSearchOptions false false) (lit "e"))
  = Some [(0, 0); (1, 1); (2, 2)].
Proof. reflexivity. Qed.

End Examples.

(* ===================================================================== *)
(** ** Further properties *)
(* ===================================================================== *)

(** *** The matcher: what [findTextMatches] returns *)

Section MatcherResults.

Variable ic : bool.
Variable p : list atom.
Variable text : jstring.
Variable ref : ElementRef.
Variable elementId : jstring.

Lemma searchFrom_leftmost (n i index e : nat) :
  searchFrom ic p text i n = Some (index, e) ->
  forall j, i <= j < index -> matchAtoms ic p text j = None.
Proof.
  revert i. induction n as [|n IH]; simpl; intros i H j Hj; [discriminate|].
  destruct (matchAtoms ic p text i) as [e'|] eqn:E.
  - inversion H; subst. lia.
  - destruct (Nat.eq_dec j i) as [->|Hne]; [exact E|].
    apply (IH (S i) H). lia.
Qed.

Lemma searchFrom_none (n i : nat) :
  searchFrom ic p text i n = None ->
  forall j, i <= j < i + n -> matchAtoms ic p text j = None.
Proof.
  revert i. induction n as [|n IH]; simpl; intros i H j Hj; [lia|].
  destruct (matchAtoms ic p text i) as [e'|] eqn:E; [discriminate|].
  destruct (Nat.eq_dec j i) as [->|Hne]; [exact E|].
  apply (IH (S i) H). lia.
Qed.

Lemma exec_found (lastIndex index e : nat) :
  exec ic p text lastIndex = Some (index, e) ->
  lastIndex <= index /\ index <= e /\ e <= length text
  /\ matchAtoms ic p text index = Some e
  /\ forall j, lastIndex <= j < index -> matchAtoms ic p text j = None.
Proof.
  intros H. pose proof (exec_bounds ic p text lastIndex index e H) as Hb.
  unfold exec in H. destruct (length text <? lastIndex); [discriminate|].
  pose proof (searchFrom_bounds ic p text _ _ _ _ H) as [_ Hm].
  pose proof (searchFrom_leftmost _ _ _ _ H) as Hl.
  split; [tauto|]. split; [tauto|]. split; [tauto|].
  split; [exact Hm|exact Hl].
Qed.

Lemma exec_not_found (lastIndex : nat) :
  exec ic p text lastIndex = None ->
  forall j, lastIndex <= j <= length text -> matchAtoms ic p text j = None.
Proof.
  unfold exec. destruct (length text <? lastIndex) eqn:L; intros H j Hj.
  - apply Nat.ltb_lt in L. lia.
  - apply Nat.ltb_ge in L. apply (searchFrom_none _ _ H). lia.
Qed.

Lemma substring_length (s : jstring) (a b : nat) :
  a <= b -> b <= length s -> length (substring s a b) = b - a.
Proof.
  intros Hab Hb. unfold substring.
  rewrite length_firstn, length_skipn. lia.
Qed.

(** The loop returns the array it was given followed by a scan. *)
Lemma matchLoop_scan (fuel : nat) :
  forall lastIndex acc r,
    matchLoop fuel ic p text ref elementId lastIndex acc = Some r ->
    exists new,
      r = acc ++ new
      /\ scanFrom ic p text ref elementId lastIndex (length acc) new.
Proof.
  induction fuel as [|fuel IH]; intros lastIndex acc r H; [discriminate|].
  simpl in H. destruct (exec ic p text lastIndex) as [[index e]|] eqn:E.
  - apply IH in H. destruct H as (new & -> & Hs).
    rewrite length_app, Nat.add_1_r in Hs.
    eexists (_ :: new). split.
    + rewrite <- app_assoc. reflexivity.
    + now apply scan_match.
  - inversion H; subst. exists []. split; [now rewrite app_nil_r|].
    now apply scan_done.
Qed.

Lemma scan_sound (lastIndex n : nat) (new : list SearchMatch) :
  scanFrom ic p text ref elementId lastIndex n new ->
  Forall (fun m =>
            lastIndex <= startIndex m
            /\ matchAtoms ic p text (startIndex m) = Some (endIndex m)
            /\ endIndex m <= length text
            /\ SearchUtils.text m
               = substring text (startIndex m) (endIndex m)
            /\ element m = ref) new.
Proof.
  induction 1 as [li n Hn|li n index e rest He _ IH]; constructor.
  - apply exec_found in He. destruct He as (H1 & H2 & H3 & H4 & _).
    unfold matchRecord. simpl.
    rewrite (substring_length text _ _ H2 H3).
    replace (index + (e - index)) with e by lia. auto.
  - pose proof (cursor_advances ic p text li index e He) as Hc.
    simpl in Hc. eapply Forall_impl; [|exact IH].
    intros m (Hm & Hrest). split; [lia|exact Hrest].
Qed.

Lemma scan_inOrder (lastIndex n : nat) (new : list SearchMatch) :
  scanFrom ic p text ref elementId lastIndex n new -> inOrder new.
Proof.
  induction 1 as [li n Hn|li n index e rest He Hs IH]; [exact I|].
  split; [|exact IH].
  pose proof (exec_found _ _ _ He) as (H1 & H2 & H3 & _).
  apply scan_sound in Hs. eapply Forall_impl; [|exact Hs].
  intros m (Hm & _). unfold precedes, matchRecord. simpl.
  rewrite (substring_length text _ _ H2 H3).
  destruct (index =? e) eqn:Q.
  - apply Nat.eqb_eq in Q. lia.
  - apply Nat.eqb_neq in Q. lia.
Qed.

Lemma scan_complete (lastIndex n : nat) (new : list SearchMatch) :
  scanFrom ic p text ref elementId lastIndex n new ->
  forall j e',
    lastIndex <= j <= length text ->
    matchAtoms ic p text j = Some e' ->
    exists m, In m new
              /\ startIndex m <= j
              /\ (j < endIndex m \/ j = startIndex m).
Proof.
  induction 1 as [li n Hn|li n index e rest He _ IH]; intros j e' Hj Hm.
  - rewrite (exec_not_found _ Hn j Hj) in Hm. discriminate.
  - pose proof (exec_found _ _ _ He) as (H1 & H2 & H3 & _ & Hleft).
    destruct (Nat.lt_ge_cases j index) as [Hlt|Hge].
    { rewrite (Hleft j) in Hm by lia. discriminate. }
    assert (Hend : endIndex (matchRecord ref elementId text n index e) = e).
    { unfold matchRecord. simpl. rewrite (substring_length text _ _ H2 H3). lia. }
    destruct (Nat.eq_dec j index) as [->|Hne].
    { eexists. split; [now left|]. simpl. split; [lia|now right]. }
    destruct (Nat.lt_ge_cases j e) as [Hje|Hje].
    { eexists. split; [now left|]. rewrite Hend. simpl. split; [lia|now left]. }
    destruct (IH j e') as (m & Hin & Hm1 & Hm2); [|exact Hm|].
    { destruct (index =? e) eqn:Q; [apply Nat.eqb_eq in Q|]; lia. }
    exists m. split; [now right|]. split; assumption.
Qed.

Lemma scan_ids (lastIndex n : nat) (new : list SearchMatch) :
  scanFrom ic p text ref elementId lastIndex n new ->
  map id new = map (matchId elementId) (seq n (length new)).
Proof.
  induction 1 as [li n Hn|li n index e rest He _ IH]; [reflexivity|].
  simpl. now rewrite IH.
Qed.

(** With matches of a fixed length [k > 0], [k] times their number fits in
    what is left of the text. *)
Lemma scan_count (k : nat) (lastIndex n : nat) (new : list SearchMatch) :
  0 < k ->
  (forall i e, matchAtoms ic p text i = Some e -> e = i + k) ->
  scanFrom ic p text ref elementId lastIndex n new ->
  length new * k <= S (length text) - lastIndex
  /\ (new <> [] -> lastIndex + length new * k <= length text).
Proof.
  intros Hk Hlen.
  induction 1 as [li n Hn|li n index e rest He _ IH].
  - simpl. split; [lia|congruence].
  - pose proof (exec_found _ _ _ He) as (H1 & H2 & H3 & Hm & _).
    pose proof (Hlen _ _ Hm) as ->.
    destruct (index =? index + k) eqn:Q; [apply Nat.eqb_eq in Q; lia|].
    destruct IH as [IH1 IH2].
    change (length (matchRecord ref elementId text n index (index + k)
                      :: rest)) with (S (length rest)).
    rewrite Nat.mul_succ_l.
    destruct rest as [|m rest].
    + change (length (@nil SearchMatch)) with 0. rewrite Nat.mul_0_l.
      split; [lia|intros _; lia].
    + assert (Hne : m :: rest <> []) by discriminate.
      specialize (IH2 Hne). split; [lia|intros _; lia].
Qed.

End MatcherResults.

Section FindTextMatches.

Lemma matchAtoms_compiledPattern (q : jstring) (o : SearchOptions)
    (text : jstring) (i e : nat) :
  matchAtoms (negb (caseSensitive o)) (compiledPattern q o) text i = Some e
  <-> e = i + length q /\ matchesAt q o text i.
Proof.
  unfold compiledPattern, matchesAt.
  rewrite matchAtoms_boundary, matchAtoms_chars.
  rewrite <- (app_nil_r (boundaryAtoms (wholeWord o))).
  rewrite matchAtoms_boundary. simpl. split.
  - intros (Hb & Ho & Hb' & He). inversion He; subst. auto.
  - intros (-> & Ho & Hb). repeat split; auto; intros H; now apply Hb.
Qed.

(** [findTextMatches] returns the scan of the searched text from cursor 0
    with an empty array. *)
Lemma findTextMatches_scan (element : node) (ref : ElementRef)
    (q : jstring) (o : SearchOptions) (elementId : jstring) :
  exists ms,
    findTextMatches element ref q o elementId = Some ms
    /\ scanFrom (negb (caseSensitive o)) (compiledPattern q o)
         (extractTextContent element) ref elementId 0 0 ms.
Proof.
  unfold findTextMatches, findTextMatchesWithin.
  rewrite compile_createSearchRegex.
  change (ignoreCase (createSearchRegex q o)) with (negb (caseSensitive o)).
  destruct (matchLoop_terminates (negb (caseSensitive o))
              (compiledPattern q o) (extractTextContent element) ref
              elementId (length (extractTextContent element) + 2) 0 [])
    as [r Hr]; [lia|].
  specialize (Hr 0). rewrite Hr. exists r. split; [reflexivity|].
  apply matchLoop_scan in Hr. destruct Hr as (new & -> & Hs). exact Hs.
Qed.

(** X1.  Every match [findTextMatches] returns is an occurrence of the
    query in the searched text: it starts where the query occurs (with the
    word boundaries of a whole-word search), is as long as the query, ends
    within the text, holds the matched slice of the text as its [text], and
    refers to the searched element. *)
Theorem findTextMatches_returns_occurrences (element : node)
    (ref : ElementRef) (q : jstring) (o : SearchOptions)
    (elementId : jstring) :
  exists ms,
    findTextMatches element ref q o elementId = Some ms
    /\ Forall (fun m =>
                 matchesAt q o (extractTextContent element) (startIndex m)
                 /\ endIndex m = startIndex m + length q
                 /\ endIndex m <= length (extractTextContent element)
                 /\ text m = substring (extractTextContent element)
                               (startIndex m) (endIndex m)
                 /\ SearchUtils.element m = ref) ms.
Proof.
  destruct (findTextMatches_scan element ref q o elementId) as (ms & H & Hs).
  exists ms. split; [exact H|].
  apply scan_sound in Hs. eapply Forall_impl; [|exact Hs].
  intros m (_ & Hm & Hl & Ht & Hr).
  apply matchAtoms_compiledPattern in Hm. destruct Hm as [He Hm]. auto.
Qed.

(** X2.  The matches [findTextMatches] returns are in text order and do not
    overlap: each one ends at or before the start of every later one, and
    starts strictly before it. *)
Theorem findTextMatches_in_order (element : node) (ref : ElementRef)
    (q : jstring) (o : SearchOptions) (elementId : jstring) :
  exists ms,
    findTextMatches element ref q o elementId = Some ms /\ inOrder ms.
Proof.
  destruct (findTextMatches_scan element ref q o elementId) as (ms & H & Hs).
  exists ms. split; [exact H|]. now apply scan_inOrder in Hs.
Qed.

(** X3.  [findTextMatches] misses no occurrence: wherever the query occurs
    in the searched text, a returned match starts there or is still running
    there (the occurrence overlaps a match reported before it). *)
Theorem findTextMatches_covers_every_occurrence (element : node)
    (ref : ElementRef) (q : jstring) (o : SearchOptions)
    (elementId : jstring) :
  exists ms,
    findTextMatches element ref q o elementId = Some ms
    /\ forall i,
         i <= length (extractTextContent element) ->
         matchesAt q o (extractTextContent element) i ->
         exists m, In m ms
                   /\ startIndex m <= i
                   /\ (i < endIndex m \/ i = startIndex m).
Proof.
  destruct (findTextMatches_scan element ref q o elementId) as (ms & H & Hs).
  exists ms. split; [exact H|]. intros i Hi Hm.
  eapply scan_complete with (e' := i + length q); [exact Hs|lia|].
  apply matchAtoms_compiledPattern. auto.
Qed.

(** X4.  The ids of the returned matches are the element id followed by
    "-0", "-1", ... in the order of the matches. *)
Theorem findTextMatches_numbers_ids (element : node) (ref : ElementRef)
    (q : jstring) (o : SearchOptions) (elementId : jstring) :
  exists ms,
    findTextMatches element ref q o elementId = Some ms
    /\ map id ms = map (matchId elementId) (seq 0 (length ms)).
Proof.
  destruct (findTextMatches_scan element ref q o elementId) as (ms & H & Hs).
  exists ms. split; [exact H|]. now apply scan_ids in Hs.
Qed.

(** X5.  For a non-empty query the matches fit side by side in the
    searched text: their number times the length of the query is at most
    the length of the text. *)
Theorem findTextMatches_count_bound (element : node) (ref : ElementRef)
    (q : jstring) (o : SearchOptions) (elementId : jstring) :
  q <> [] ->
  exists ms,
    findTextMatches element ref q o elementId = Some ms
    /\ length ms * length q <= length (extractTextContent element).
Proof.
  intros Hq.
  destruct (findTextMatches_scan element ref q o elementId) as (ms & H & Hs).
  exists ms. split; [exact H|].
  assert (Hk : 0 < length q) by (destruct q; [congruence|simpl; lia]).
  assert (Hlen : forall i e,
             matchAtoms (negb (caseSensitive o)) (compiledPattern q o)
               (extractTextContent element) i = Some e ->
             e = i + length q).
  { intros i e Hm. now apply matchAtoms_compiledPattern in Hm. }
  destruct (scan_count _ _ _ _ _ (length q) 0 0 ms Hk Hlen Hs) as [H1 H2].
  destruct ms as [|m ms]; [simpl; lia|].
  assert (Hne : m :: ms <> []) by discriminate.
  specialize (H2 Hne). lia.
Qed.

Lemma isWordChar_canonicalize (c : ascii) :
  isWordChar (canonicalize c) = isWordChar c.
Proof. destruct c as [[] [] [] [] [] [] [] []]; reflexivity. Qed.

Lemma sameChar_isWordChar (cs : bool) (c d : ascii) :
  sameChar cs c d -> isWordChar d = isWordChar c.
Proof.
  unfold sameChar. destruct cs; intros H; [now subst|].
  rewrite <- (isWordChar_canonicalize d), <- H.
  apply isWordChar_canonicalize.
Qed.

Lemma occursAt_nth (cs : bool) (q text : jstring) :
  forall i k c,
    occursAt cs q text i -> nth_error q k = Some c ->
    exists d, nth_error text (i + k) = Some d /\ sameChar cs c d.
Proof.
  induction q as [|c0 q IH]; intros i k c Ho Hk.
  - destruct k; discriminate.
  - apply occursAt_cons in Ho. destruct Ho as (d & Hd & Hs & Ho).
    destruct k as [|k].
    + inversion Hk; subst. exists d. now rewrite Nat.add_0_r.
    + simpl in Hk. destruct (IH (S i) k c Ho Hk) as (d' & Hd' & Hs').
      exists d'. split; [|exact Hs'].
      now replace (i + S k) with (S i + k) by lia.
Qed.

(** X6.  A whole-word search for a query that begins with a character that
    is not a word character (such as ".net") only reports occurrences
    directly preceded by a word character: never one at the start of the
    text or after a space. *)
Theorem whole_word_needs_word_before_nonword_start (element : node)
    (ref : ElementRef) (c : ascii) (q : jstring) (o : SearchOptions)
    (elementId : jstring) :
  wholeWord o = true ->
  isWordChar c = false ->
  exists ms,
    findTextMatches element ref (c :: q) o elementId = Some ms
    /\ Forall (fun m =>
                 0 < startIndex m
                 /\ wordAt (extractTextContent element) (startIndex m - 1)
                    = true) ms.
Proof.
  intros Hww Hc.
  destruct (findTextMatches_scan element ref (c :: q) o elementId)
    as (ms & H & Hs).
  exists ms. split; [exact H|].
  apply scan_sound in Hs. eapply Forall_impl; [|exact Hs].
  intros m (_ & Hm & _).
  apply matchAtoms_compiledPattern in Hm. destruct Hm as (_ & Ho & Hb).
  destruct (Hb Hww) as [Hb1 _].
  destruct (occursAt_nth _ _ _ _ 0 c Ho eq_refl) as (d & Hd & Hsame).
  rewrite Nat.add_0_r in Hd.
  assert (Hw : wordAt (extractTextContent element) (startIndex m) = false).
  { unfold wordAt. rewrite Hd, (sameChar_isWordChar _ _ _ Hsame). exact Hc. }
  unfold isWordBoundary in Hb1. rewrite Hw in Hb1.
  destruct (startIndex m) as [|j]; [discriminate Hb1|].
  split; [lia|]. replace (S j - 1) with j by lia.
  destruct (wordAt (extractTextContent element) j); [reflexivity|].
  discriminate Hb1.
Qed.

End FindTextMatches.

(** *** The pattern builder: escaping *)

Section Escaping.

(** X7.  [escapeRegExp] is injective: two different queries never give the
    same pattern text. *)
Theorem escapeRegExp_injective (q1 q2 : jstring) :
  escapeRegExp q1 = escapeRegExp q2 -> q1 = q2.
Proof.
  intros H.
  pose proof (tokenize_escapeRegExp q1 []) as H1.
  pose proof (tokenize_escapeRegExp q2 []) as H2.
  rewrite H, H2 in H1. simpl in H1. rewrite !app_nil_r in H1.
  clear H H2. revert q2 H1.
  induction q1 as [|c q1 IH]; intros [|d q2] H1; try discriminate;
    [reflexivity|].
  simpl in H1. inversion H1; subst. f_equal. now apply IH.
Qed.

End Escaping.

(** *** The renderer: exact restoration of a normalized element *)

Section Restoration.

Lemma normalizedList_Forall (l : list node) :
  normalizedList normalized l -> Forall normalized l.
Proof.
  induction l as [|x l IH]; simpl; intros H; [constructor|].
  destruct x as [s|t c a ch].
  - destruct H as (Hs & _ & Hl). constructor; [exact Hs|auto].
  - destruct H as (Hx & Hl). constructor; [exact Hx|auto].
Qed.

Lemma mergeText_normalizedList (l : list node) :
  normalizedList normalized l -> mergeText l = l.
Proof.
  induction l as [|x l IH]; simpl; intros H; [reflexivity|].
  destruct x as [s|t c a ch].
  - destruct H as (Hs & Hst & Hl). rewrite (IH Hl).
    destruct l as [|[s'|t c a ch] r]; try discriminate Hst;
      destruct s; try congruence; reflexivity.
  - destruct H as (_ & Hl). now rewrite (IH Hl).
Qed.

Lemma map_id_Forall (f : node -> node) (l : list node) :
  Forall (fun x => f x = x) l -> map f l = l.
Proof. induction 1 as [|x r Hx _ IH]; simpl; [|rewrite Hx, IH]; reflexivity. Qed.

Lemma normalize_normalized (n : node) : normalized n -> normalize n = n.
Proof.
  induction n as [s|t c a ch IH] using node_ind; intros Hn; [reflexivity|].
  simpl in *. pose proof (normalizedList_Forall ch Hn) as Hall.
  rewrite (map_id_Forall normalize ch).
  - now rewrite mergeText_normalizedList.
  - rewrite Forall_forall in *. intros x Hx. apply IH; auto.
Qed.

(** Merging a run of text nodes in front of a list. *)
Lemma mergeText_texts (T : list jstring) (R : list node) :
  mergeText (map Text T ++ R)
  = match mergeText R with
    | Text s' :: r' => Text (concat T ++ s') :: r'
    | r' => if isEmpty (concat T) then r' else Text (concat T) :: r'
    end.
Proof.
  induction T as [|t T IH]; simpl map; simpl app.
  - destruct (mergeText R) as [|[s'|? ? ? ?] r']; reflexivity.
  - simpl mergeText. rewrite IH. simpl concat.
    destruct (mergeText R) as [|[s'|t0 c a ch] r'].
    + destruct (concat T) eqn:E; simpl.
      * now rewrite app_nil_r.
      * destruct t; reflexivity.
    + now rewrite app_assoc.
    + destruct (concat T) eqn:E; simpl.
      * now rewrite app_nil_r.
      * destruct t; reflexivity.
Qed.

Lemma unwrap_Text (s : jstring) : unwrap (Text s) = Text s.
Proof. reflexivity. Qed.

Lemma unwrap_span (ms : list SearchMatch) (cur : option nat)
    (m : SearchMatch) (t : jstring) :
  unwrap (highlightSpan ms cur m t) = Text t.
Proof.
  unfold unwrap. replace (isHighlight (highlightSpan ms cur m t)) with true
    by reflexivity.
  now rewrite textContent_span.
Qed.

Lemma optional_texts (t : jstring) :
  (if isEmpty t then [] else [Text t])
  = map Text (if isEmpty t then [] else [t]).
Proof. destruct t; reflexivity. Qed.

Lemma concat_optional (t : jstring) :
  concat (if isEmpty t then [] else [t]) = t.
Proof. destruct t; simpl; [reflexivity|now rewrite app_nil_r]. Qed.

Lemma existsb_optional (t : jstring) :
  existsb isHighlight (if isEmpty t then [] else [Text t]) = false.
Proof. destruct t; reflexivity. Qed.

(** The fragments of a text node, their decorations removed, are text
    nodes that spell the node; without a decoration among them the node is
    untouched. *)
Lemma highlightTextNode_unwrapped (ms : list SearchMatch) (cur : option nat)
    (s : jstring) (off : nat) :
  Forall wellFormed ms ->
  exists T,
    map unwrap (highlightTextNode ms (sortDesc ms) cur s off) = map Text T
    /\ concat T = s
    /\ (existsb isHighlight (highlightTextNode ms (sortDesc ms) cur s off)
        = false ->
        highlightTextNode ms (sortDesc ms) cur s off = [Text s]).
Proof.
  intros Hwf. unfold highlightTextNode.
  destruct (rev (filter (fallsWithin off (off + length s)) (sortDesc ms)))
    as [|m r] eqn:E.
  - exists [s]. simpl. rewrite app_nil_r. auto.
  - apply head_of_reversed_nodeMatches in E. destruct E as (Hin & Hf & _).
    pose proof (Forall_wellFormed_In ms m Hwf Hin) as Hm.
    cbv zeta.
    set (b := substring s 0 (startIndex m - off)).
    set (mt := substring s (startIndex m - off) (endIndex m - off)).
    set (a := substringFrom s (endIndex m - off)).
    exists ((if isEmpty b then [] else [b]) ++ [mt]
            ++ (if isEmpty a then [] else [a])).
    split; [|split].
    + rewrite !map_app, !optional_texts, !map_map. simpl map.
      rewrite unwrap_span. reflexivity.
    + rewrite !concat_app, !concat_optional. simpl. rewrite app_nil_r.
      subst b mt a. apply substring_split. unfold wellFormed in Hm. lia.
    + rewrite !existsb_app, existsb_optional. simpl.
      replace (isHighlight (highlightSpan ms cur m mt)) with true
        by reflexivity.
      simpl. discriminate.
Qed.

Lemma map_normalize_texts (T : list jstring) :
  map normalize (map Text T) = map Text T.
Proof. induction T as [|t T IH]; simpl; [|rewrite IH]; reflexivity. Qed.

(** The walk over a normalized list without decorations, then the removal
    of the decorations, gives the list back. *)
Lemma highlightNodes_restored (ms : list SearchMatch) (cur : option nat)
    (l : list node) :
  Forall wellFormed ms ->
  Forall (fun x =>
            forall off,
              match x with
              | Text _ => True
              | Element _ _ _ _ =>
                  map unwrap (fst (highlightNode ms (sortDesc ms) cur x off))
                  = [x]
                  /\ existsb isHighlight
                       (fst (highlightNode ms (sortDesc ms) cur x off))
                     = false
              end) l ->
  normalizedList normalized l ->
  forall off,
    mergeText (map normalize
                 (map unwrap (fst (highlightNodes ms (sortDesc ms) cur l off))))
    = l
    /\ (existsb isHighlight (fst (highlightNodes ms (sortDesc ms) cur l off))
        = false ->
        map unwrap (fst (highlightNodes ms (sortDesc ms) cur l off)) = l).
Proof.
  intros Hwf HP. induction HP as [|x r Hx _ IH]; intros Hn off.
  - split; reflexivity.
  - rewrite highlightNodes_cons. simpl fst.
    rewrite !map_app, existsb_app.
    destruct x as [s|t c a ch].
    + destruct Hn as (Hs & Hst & Hr).
      destruct (IH Hr (off + length s)) as [IHa IHb].
      simpl fst. simpl snd.
      destruct (highlightTextNode_unwrapped ms cur s off Hwf)
        as (T & HT & Hc & Hno).
      rewrite HT, map_normalize_texts. split.
      * rewrite mergeText_texts, IHa, Hc.
        destruct r as [|[s'|? ? ? ?] r']; try discriminate Hst;
          destruct s; try congruence; reflexivity.
      * intros He. apply orb_false_iff in He. destruct He as [He1 He2].
        rewrite <- HT, (Hno He1), (IHb He2). reflexivity.
    + destruct Hn as (Hnx & Hr).
      set (o1 := snd (highlightNode ms (sortDesc ms) cur
                        (Element t c a ch) off)).
      destruct (IH Hr o1) as [IHa IHb].
      destruct (Hx off) as [Hx1 Hx2]. rewrite Hx1, Hx2. split.
      * change (map normalize [Element t c a ch])
          with [normalize (Element t c a ch)].
        rewrite (normalize_normalized (Element t c a ch) Hnx).
        cbn [app mergeText]. now rewrite IHa.
      * rewrite orb_false_l. intros He. now rewrite (IHb He).
Qed.

Lemma highlightNode_restored (ms : list SearchMatch) (cur : option nat)
    (n : node) :
  Forall wellFormed ms ->
  normalized n -> decorationsIn n = [] ->
  forall off,
    match n with
    | Text _ => True
    | Element _ _ _ _ =>
        map unwrap (fst (highlightNode ms (sortDesc ms) cur n off)) = [n]
        /\ existsb isHighlight (fst (highlightNode ms (sortDesc ms) cur n off))
           = false
    end.
Proof.
  intros Hwf. induction n as [s|t c a ch IH] using node_ind;
    intros Hn Hclean off; [exact I|].
  pose proof (isHighlight_false_of_clean _ Hclean) as Hh.
  apply decorationsIn_nil_inv in Hclean. destruct Hclean as [_ Hch].
  simpl in Hn. pose proof (normalizedList_Forall ch Hn) as Hall.
  rewrite highlightNode_Element. cbn [fst].
  set (ch' := fst (highlightNodes ms (sortDesc ms) cur ch off)).
  assert (Hh' : isHighlight (Element t c a ch') = false) by exact Hh.
  split.
  2:{ change (existsb isHighlight [Element t c a ch'])
        with (isHighlight (Element t c a ch') || false).
      now rewrite Hh'. }
  change (map unwrap [Element t c a ch']) with [unwrap (Element t c a ch')].
  unfold unwrap. rewrite Hh', removeHighlights_Element. subst ch'.
  assert (HP : Forall (fun x =>
            forall off,
              match x with
              | Text _ => True
              | Element _ _ _ _ =>
                  map unwrap (fst (highlightNode ms (sortDesc ms) cur x off))
                  = [x]
                  /\ existsb isHighlight
                       (fst (highlightNode ms (sortDesc ms) cur x off))
                     = false
              end) ch).
  { rewrite Forall_forall in *. intros x Hx off'. apply IH; auto. }
  destruct (highlightNodes_restored ms cur ch Hwf HP Hn off) as [Ha Hb].
  destruct (existsb isHighlight (fst (highlightNodes ms (sortDesc ms) cur ch off))).
  - now rewrite Ha.
  - now rewrite Hb.
Qed.

(** On a normalized element without decorations, [removeHighlights] undoes
    [highlightMatches] node for node. *)
Lemma removeHighlights_highlightMatches (e : node) (ms : list SearchMatch)
    (cur : option nat) :
  Forall wellFormed ms ->
  normalized e -> decorations e = [] ->
  removeHighlights (highlightMatches e ms cur) = e.
Proof.
  intros Hwf Hn Hclean. unfold highlightMatches.
  rewrite (removeHighlights_root_id e Hclean).
  destruct (length ms =? 0); [exact (removeHighlights_root_id e Hclean)|].
  destruct e as [s|t c a ch]; [reflexivity|].
  rewrite removeHighlights_Element. simpl in Hn.
  assert (HP : Forall (fun x =>
            forall off,
              match x with
              | Text _ => True
              | Element _ _ _ _ =>
                  map unwrap (fst (highlightNode ms (sortDesc ms) cur x off))
                  = [x]
                  /\ existsb isHighlight
                       (fst (highlightNode ms (sortDesc ms) cur x off))
                     = false
              end) ch).
  { pose proof (normalizedList_Forall ch Hn) as Hall.
    apply decorationsOf_nil_inv in Hclean.
    rewrite Forall_forall in Hall, Hclean. apply Forall_forall.
    intros x Hx off. apply highlightNode_restored; auto. }
  destruct (highlightNodes_restored ms cur ch Hwf HP Hn 0) as [Ha Hb].
  destruct (existsb isHighlight (fst (highlightNodes ms (sortDesc ms) cur ch 0))).
  - now rewrite Ha.
  - now rewrite Hb.
Qed.

(** [highlightMatches] only looks at the element through
    [removeHighlights]. *)
Lemma highlightMatches_after_removeHighlights (e : node)
    (ms : list SearchMatch) (cur : option nat) :
  highlightMatches (removeHighlights e) ms cur = highlightMatches e ms cur.
Proof.
  unfold highlightMatches.
  now rewrite (removeHighlights_root_id (removeHighlights e)
                 (decorations_removeHighlights e)).
Qed.

End Restoration.

Section RestorationResults.

(** X8.  On a normalized element without decorations, [removeHighlights]
    after [highlightMatches] gives back the element itself, node for node:
    the fragments of every split text node are merged into the original
    text node again. *)
Theorem highlight_then_remove_restores_element (e : node)
    (ms : list SearchMatch) (cur : option nat) :
  Forall wellFormed ms ->
  normalized e -> decorations e = [] ->
  removeHighlights (highlightMatches e ms cur) = e.
Proof. apply removeHighlights_highlightMatches. Qed.

(** X9.  Every call of [highlightMatches] is a full replacement: on a
    normalized element without decorations, highlighting a second time
    (with any match list and current index) gives what that second call
    alone gives on the original element; in particular the call is
    idempotent. *)
Theorem highlightMatches_replaces_previous_highlights (e : node)
    (ms1 ms2 : list SearchMatch) (cur1 cur2 : option nat) :
  Forall wellFormed ms1 ->
  normalized e -> decorations e = [] ->
  highlightMatches (highlightMatches e ms1 cur1) ms2 cur2
  = highlightMatches e ms2 cur2.
Proof.
  intros Hwf Hn Hc.
  rewrite <- (highlightMatches_after_removeHighlights
                (highlightMatches e ms1 cur1)).
  now rewrite (removeHighlights_highlightMatches e ms1 cur1 Hwf Hn Hc).
Qed.

(** X10.  [removeHighlights] is idempotent, and after it a call of
    [highlightMatches] with no match changes nothing more. *)
Theorem removeHighlights_idempotent (e : node) (cur : option nat) :
  removeHighlights (removeHighlights e) = removeHighlights e
  /\ highlightMatches (removeHighlights e) [] cur = removeHighlights e.
Proof.
  pose proof (removeHighlights_root_id (removeHighlights e)
                (decorations_removeHighlights e)) as H.
  split; [exact H|]. unfold highlightMatches. simpl. exact H.
Qed.

Lemma scan_wellFormed (ic : bool) (p : list atom) (text : jstring)
    (ref : ElementRef) (elementId : jstring) (lastIndex n : nat)
    (new : list SearchMatch) :
  scanFrom ic p text ref elementId lastIndex n new -> Forall wellFormed new.
Proof.
  intros H. apply scan_sound in H. eapply Forall_impl; [|exact H].
  intros m (_ & Hm & _). apply matchAtoms_bounds in Hm.
  unfold wellFormed. lia.
Qed.

Lemma collectMatches_wellFormed (q : jstring) (o : SearchOptions)
    (els : list node) :
  forall index,
    Forall wellFormed (RichOutputSearch.collectMatches q o els index).
Proof.
  induction els as [|el els IH]; intros index; simpl; [constructor|].
  apply Forall_app. split; [|apply IH].
  destruct (findTextMatches_scan el index q o
              (RichOutputSearch.elementIdOf index)) as (ms & -> & Hs).
  now apply scan_wellFormed in Hs.
Qed.

Lemma updateAt_Forall2 (R : node -> node -> Prop) (f : node -> node)
    (els origs : list node) :
  Forall2 R els origs ->
  (forall x o, R x o -> In o origs -> R (f x) o) ->
  forall i, Forall2 R (RichOutputSearch.updateAt f i els) origs.
Proof.
  induction 1 as [|x o els origs Hxo Hrest IH]; intros Hf i;
    [destruct i; constructor|].
  destruct i as [|i]; simpl.
  - constructor; [apply Hf; [exact Hxo|now left]|].
    exact Hrest.
  - constructor; [exact Hxo|]. apply IH. intros x' o' Hr Hin.
    apply Hf; [exact Hr|now right].
Qed.

(** The loop over the matches keeps every element restorable. *)
Lemma highlightEach_restorable (allMatches todo : list SearchMatch)
    (origs : list node) :
  Forall wellFormed allMatches ->
  Forall normalized origs ->
  Forall (fun e => decorations e = []) origs ->
  forall index els,
    Forall2 (fun x o => removeHighlights x = o) els origs ->
    Forall2 (fun x o => removeHighlights x = o)
      (RichOutputSearch.highlightEach allMatches todo index els) origs.
Proof.
  intros Hwf Hn Hc. induction todo as [|m todo IH]; intros index els H;
    [exact H|].
  simpl. apply IH. apply updateAt_Forall2; [exact H|].
  intros x o Hx Hin. cbv beta.
  rewrite <- highlightMatches_after_removeHighlights, Hx.
  apply removeHighlights_highlightMatches.
  - apply Forall_forall. intros m' Hm'. apply filter_In in Hm'.
    rewrite Forall_forall in Hwf. apply Hwf, Hm'.
  - rewrite Forall_forall in Hn. now apply Hn.
  - rewrite Forall_forall in Hc. now apply Hc.
Qed.

Lemma Forall2_map_eq (f : node -> node) (l l' : list node) :
  Forall2 (fun x o => f x = o) l l' -> map f l = l'.
Proof. induction 1 as [|x o l l' H _ IH]; simpl; [|rewrite H, IH]; reflexivity. Qed.

Lemma Forall2_refl_eq (f : node -> node) (l : list node) :
  Forall (fun x => f x = x) l -> Forall2 (fun x o => f x = o) l l.
Proof. induction 1; constructor; auto. Qed.

(** X11.  Closing the search undoes what the search did to the page: on a
    page whose searchable elements are normalized and carry no decoration,
    [onClose] after [onSearch] leaves exactly the original elements. *)
Theorem onClose_after_onSearch_restores_page (q : jstring)
    (o : SearchOptions) (pg : RichOutputSearch.Page) :
  Forall normalized (RichOutputSearch.searchableElements pg) ->
  Forall (fun e => decorations e = [])
    (RichOutputSearch.searchableElements pg) ->
  RichOutputSearch.onClose (snd (RichOutputSearch.onSearch q o pg))
  = RichOutputSearch.mkPage (RichOutputSearch.searchableElements pg) false.
Proof.
  intros Hn Hc. unfold RichOutputSearch.onSearch. cbv zeta. simpl snd.
  unfold RichOutputSearch.onClose. simpl RichOutputSearch.currentContainer.
  simpl RichOutputSearch.searchableElements.
  assert (Hid : Forall (fun x => removeHighlights x = x)
                  (RichOutputSearch.searchableElements pg)).
  { eapply Forall_impl; [|exact Hc]. intros e. apply removeHighlights_root_id. }
  assert (Hels : (if RichOutputSearch.currentContainer pg
                  then map removeHighlights
                         (RichOutputSearch.searchableElements pg)
                  else RichOutputSearch.searchableElements pg)
                 = RichOutputSearch.searchableElements pg).
  { destruct (RichOutputSearch.currentContainer pg); [|reflexivity].
    now apply map_id_Forall. }
  rewrite Hels. f_equal. apply Forall2_map_eq.
  apply highlightEach_restorable; auto.
  - apply collectMatches_wellFormed.
  - now apply Forall2_refl_eq.
Qed.

End RestorationResults.

(** *** The renderer: moving the current-match mark *)

Section CurrentMatch.

Lemma jeqb_eq (a b : jstring) : jeqb a b = true <-> a = b.
Proof.
  revert b. induction a as [|x a IH]; intros [|y b]; simpl;
    try (split; [discriminate|discriminate]); [tauto|].
  rewrite andb_true_iff, Ascii.eqb_eq, IH. split.
  - intros [-> ->]. reflexivity.
  - intros H. inversion H. auto.
Qed.

Lemma existsb_removeClass (h cls : jstring) (c : list jstring) :
  jeqb cls h = false ->
  existsb (jeqb h) (removeClass cls c) = existsb (jeqb h) c.
Proof.
  intros Hne. unfold removeClass. induction c as [|x c IH]; [reflexivity|].
  simpl. destruct (jeqb cls x) eqn:E; simpl.
  - apply jeqb_eq in E. subst x.
    assert (Hh : jeqb h cls = false).
    { destruct (jeqb h cls) eqn:F; [|reflexivity].
      apply jeqb_eq in F. subst h.
      assert (jeqb cls cls = true) by now apply jeqb_eq. congruence. }
    now rewrite Hh.
  - now rewrite IH.
Qed.

Lemma existsb_removeClass_self (cls : jstring) (c : list jstring) :
  existsb (jeqb cls) (removeClass cls c) = false.
Proof.
  unfold removeClass. induction c as [|x c IH]; [reflexivity|].
  simpl. destruct (jeqb cls x) eqn:E; simpl; [exact IH|].
  now rewrite E.
Qed.

Lemma existsb_addClass (h cls : jstring) (c : list jstring) :
  jeqb h cls = false ->
  existsb (jeqb h) (addClass cls c) = existsb (jeqb h) c.
Proof.
  intros Hne. unfold addClass. destruct (existsb (jeqb cls) c); [reflexivity|].
  rewrite existsb_app. simpl. rewrite Hne. now rewrite !orb_false_r.
Qed.

Lemma existsb_addClass_self (cls : jstring) (c : list jstring) :
  existsb (jeqb cls) (addClass cls c) = true.
Proof.
  unfold addClass. destruct (existsb (jeqb cls) c) eqn:E; [exact E|].
  rewrite existsb_app. simpl.
  assert (jeqb cls cls = true) by now apply jeqb_eq.
  rewrite H. now rewrite orb_true_r.
Qed.

Lemma markFirst_Element (ident : jstring) (t : jstring) (c : list jstring)
    (a : option jstring) (ch : list node) (found : bool) :
  markFirst ident (Element t c a ch) found
  = (Element t
       (if negb found && attributeIs ident a then addClass currentClass c
        else c) a
       (fst (markFirstIn ident ch (found || negb found && attributeIs ident a))),
     snd (markFirstIn ident ch (found || negb found && attributeIs ident a))).
Proof.
  simpl.
  match goal with |- (let '(_, _) := ?w ch ?f in _) = _ =>
    assert (Hw : forall l o, w l o = markFirstIn ident l o)
  end.
  { induction l as [|x l IH]; intros o; [reflexivity|].
    simpl. destruct (markFirst ident x o) as [x' o1].
    rewrite IH. reflexivity. }
  rewrite Hw.
  now destruct (markFirstIn ident ch
                  (found || negb found && attributeIs ident a)).
Qed.

Lemma markFirstIn_cons (ident : jstring) (x : node) (r : list node)
    (found : bool) :
  markFirstIn ident (x :: r) found
  = (fst (markFirst ident x found)
       :: fst (markFirstIn ident r (snd (markFirst ident x found))),
     snd (markFirstIn ident r (snd (markFirst ident x found)))).
Proof.
  simpl. destruct (markFirst ident x found) as [x' f1]. simpl.
  now destruct (markFirstIn ident r f1).
Qed.

Lemma list_sum_step (a : nat) (l : list nat) :
  list_sum (a :: l) = a + list_sum l.
Proof. reflexivity. Qed.

(** Clearing removes every mark. *)
Lemma currentIn_clearCurrent (n : node) : currentIn (clearCurrent n) = 0.
Proof.
  induction n as [s|t c a ch IH] using node_ind; [reflexivity|].
  cbn [clearCurrent currentIn]. rewrite existsb_removeClass_self.
  cbn [Nat.add].
  induction IH as [|x r Hx _ IHr]; [reflexivity|].
  simpl map. now rewrite list_sum_step, Hx, IHr.
Qed.

Lemma carries_clearCurrent (ident : jstring) (n : node) :
  carries ident (clearCurrent n) = carries ident n.
Proof.
  induction n as [s|t c a ch IH] using node_ind; [reflexivity|].
  cbn [clearCurrent carries]. f_equal.
  induction IH as [|x r Hx _ IHr]; [reflexivity|].
  simpl map. simpl existsb. now rewrite Hx, IHr.
Qed.

(** On nodes without a mark, the walk marks the first carrier met, if none
    was met before. *)
Lemma markFirstIn_count_gen (ident : jstring) (l : list node) :
  Forall (fun x =>
            currentIn x = 0 ->
            forall found,
              snd (markFirst ident x found) = found || carries ident x
              /\ currentIn (fst (markFirst ident x found))
                 = if found then 0 else if carries ident x then 1 else 0) l ->
  list_sum (map currentIn l) = 0 ->
  forall f,
    snd (markFirstIn ident l f) = f || existsb (carries ident) l
    /\ list_sum (map currentIn (fst (markFirstIn ident l f)))
       = if f then 0 else if existsb (carries ident) l then 1 else 0.
Proof.
  induction 1 as [|x r Hx _ IHr]; intros Hn f.
  - simpl. rewrite orb_false_r. split; [reflexivity|now destruct f].
  - simpl map in Hn. rewrite list_sum_step in Hn.
    apply Nat.eq_add_0 in Hn. destruct Hn as [Hnx Hnr].
    rewrite markFirstIn_cons. cbn [fst snd].
    destruct (Hx Hnx f) as [Hx1 Hx2].
    destruct (IHr Hnr (snd (markFirst ident x f))) as [Hr1 Hr2].
    simpl map. rewrite list_sum_step, Hr1, Hr2, Hx2, Hx1. simpl existsb.
    split; [now rewrite orb_assoc|].
    destruct f; simpl; [reflexivity|].
    destruct (carries ident x); simpl; [reflexivity|].
    now destruct (existsb (carries ident) r).
Qed.

Lemma markFirst_count (ident : jstring) (n : node) :
  currentIn n = 0 ->
  forall found,
    snd (markFirst ident n found) = found || carries ident n
    /\ currentIn (fst (markFirst ident n found))
       = if found then 0 else if carries ident n then 1 else 0.
Proof.
  induction n as [s|t c a ch IH] using node_ind; intros Hn found.
  - simpl. rewrite orb_false_r. split; [reflexivity|now destruct found].
  - rewrite markFirst_Element. cbn [fst snd].
    cbn [currentIn] in Hn. apply Nat.eq_add_0 in Hn.
    destruct Hn as [Hc0 Hsum].
    assert (Hc : existsb (jeqb currentClass) c = false).
    { destruct (existsb (jeqb currentClass) c);
        [discriminate Hc0|reflexivity]. }
    destruct (markFirstIn_count_gen ident ch IH Hsum
                (found || negb found && attributeIs ident a)) as [Hl1 Hl2].
    cbn [carries currentIn]. rewrite Hl1, Hl2. split.
    + destruct found, (attributeIs ident a); reflexivity.
    + destruct found; cbn [negb andb orb].
      * now rewrite Hc.
      * destruct (attributeIs ident a); cbn [orb].
        -- now rewrite existsb_addClass_self.
        -- rewrite Hc. reflexivity.
Qed.

Lemma markFirstIn_count (ident : jstring) (l : list node) :
  list_sum (map currentIn l) = 0 ->
  list_sum (map currentIn (fst (markFirstIn ident l false)))
  = if existsb (carries ident) l then 1 else 0.
Proof.
  intros Hn.
  assert (HF : Forall (fun x =>
            currentIn x = 0 ->
            forall found,
              snd (markFirst ident x found) = found || carries ident x
              /\ currentIn (fst (markFirst ident x found))
                 = if found then 0 else if carries ident x then 1 else 0) l).
  { apply Forall_forall. intros x _. apply markFirst_count. }
  exact (proj2 (markFirstIn_count_gen ident l HF Hn false)).
Qed.

Lemma list_sum_clearCurrent (ch : list node) :
  list_sum (map currentIn (map clearCurrent ch)) = 0.
Proof.
  induction ch as [|x r IH]; [reflexivity|].
  simpl map. now rewrite list_sum_step, currentIn_clearCurrent, IH.
Qed.

Lemma existsb_carries_clearCurrent (ident : jstring) (ch : list node) :
  existsb (carries ident) (map clearCurrent ch) = existsb (carries ident) ch.
Proof.
  induction ch as [|x r IH]; [reflexivity|].
  simpl map. simpl existsb. now rewrite carries_clearCurrent, IH.
Qed.

Lemma updateCurrentMatch_count (e : node)
    (ms : list SearchMatch) (idx : option nat) :
  currentBelow (updateCurrentMatch e ms idx)
  = match idx with
    | Some k =>
        match nth_error ms k with
        | Some m => if carriesBelow (id m) e then 1 else 0
        | None => 0
        end
    | None => 0
    end.
Proof.
  destruct e as [s|t c a ch]; simpl.
  - destruct idx as [k|]; [|reflexivity].
    now destruct (nth_error ms k).
  - destruct idx as [k|]; [|apply list_sum_clearCurrent].
    destruct (nth_error ms k) as [m|]; [|apply list_sum_clearCurrent].
    simpl. rewrite markFirstIn_count by apply list_sum_clearCurrent.
    now rewrite existsb_carries_clearCurrent.
Qed.

(** X12.  After [updateCurrentMatch] at most one element below the element
    carries the current-match class: exactly one when the index is within
    the match list and some element has the id of that match as its
    attribute, none otherwise (index out of range, -1, or the match has no
    decoration). *)
Theorem updateCurrentMatch_single_current (e : node)
    (ms : list SearchMatch) (idx : option nat) :
  currentBelow (updateCurrentMatch e ms idx)
  = match idx with
    | Some k =>
        match nth_error ms k with
        | Some m => if carriesBelow (id m) e then 1 else 0
        | None => 0
        end
    | None => 0
    end.
Proof. exact (updateCurrentMatch_count e ms idx). Qed.

End CurrentMatch.

Section CurrentMatchKeeps.

Lemma unflagged_Element (t : jstring) (c : list jstring)
    (a : option jstring) (ch : list node) :
  map unflagged (decorationsIn (Element t c a ch))
  = (if existsb (jeqb highlightClass) c
     then [(a, textContentOf ch)] else [])
    ++ concat (map (fun x => map unflagged (decorationsIn x)) ch).
Proof.
  cbn [decorationsIn]. rewrite map_app, concat_map, map_map.
  unfold isHighlight, hasClass.
  now destruct (existsb (jeqb highlightClass) c).
Qed.

Lemma concat_map_ext (A : Type) (f g : node -> list A) (l : list node) :
  Forall (fun x => f x = g x) l -> concat (map f l) = concat (map g l).
Proof. induction 1 as [|x r Hx _ IH]; simpl; [|rewrite Hx, IH]; reflexivity. Qed.

Lemma clearCurrent_keeps (n : node) :
  textContent (clearCurrent n) = textContent n
  /\ map unflagged (decorationsIn (clearCurrent n))
     = map unflagged (decorationsIn n).
Proof.
  induction n as [s|t c a ch IH] using node_ind; [split; reflexivity|].
  assert (Ht : textContentOf (map clearCurrent ch) = textContentOf ch).
  { apply textContentOf_map. eapply Forall_impl; [|exact IH].
    intros x Hx. apply Hx. }
  split; [exact Ht|].
  cbn [clearCurrent]. rewrite !unflagged_Element, Ht.
  rewrite existsb_removeClass by reflexivity. f_equal.
  rewrite map_map. apply concat_map_ext.
  eapply Forall_impl; [|exact IH]. intros x Hx. apply Hx.
Qed.

Lemma markFirst_keeps (ident : jstring) (n : node) :
  forall found,
    textContent (fst (markFirst ident n found)) = textContent n
    /\ map unflagged (decorationsIn (fst (markFirst ident n found)))
       = map unflagged (decorationsIn n).
Proof.
  induction n as [s|t c a ch IH] using node_ind; intros found;
    [split; reflexivity|].
  rewrite markFirst_Element. cbn [fst].
  set (f0 := found || negb found && attributeIs ident a).
  assert (Hl : forall f,
            textContentOf (fst (markFirstIn ident ch f)) = textContentOf ch
            /\ concat (map (fun x => map unflagged (decorationsIn x))
                         (fst (markFirstIn ident ch f)))
               = concat (map (fun x => map unflagged (decorationsIn x)) ch)).
  { clear f0. induction IH as [|x r Hx _ IHr]; intros f; [split; reflexivity|].
    rewrite markFirstIn_cons. cbn [fst].
    destruct (Hx f) as [Hx1 Hx2].
    destruct (IHr (snd (markFirst ident x f))) as [Hr1 Hr2].
    unfold textContentOf in *. simpl map. simpl concat.
    now rewrite Hx1, Hx2, Hr1, Hr2. }
  destruct (Hl f0) as [Hl1 Hl2]. split; [exact Hl1|].
  rewrite !unflagged_Element, Hl1, Hl2. f_equal.
  destruct (negb found && attributeIs ident a); [|reflexivity].
  now rewrite existsb_addClass by reflexivity.
Qed.

Lemma markFirstIn_keeps (ident : jstring) (l : list node) :
  forall f,
    textContentOf (fst (markFirstIn ident l f)) = textContentOf l
    /\ concat (map (fun x => map unflagged (decorationsIn x))
                 (fst (markFirstIn ident l f)))
       = concat (map (fun x => map unflagged (decorationsIn x)) l).
Proof.
  induction l as [|x r IHr]; intros f; [split; reflexivity|].
  rewrite markFirstIn_cons. cbn [fst].
  destruct (markFirst_keeps ident x f) as [Hx1 Hx2].
  destruct (IHr (snd (markFirst ident x f))) as [Hr1 Hr2].
  unfold textContentOf in *. simpl map. simpl concat.
  now rewrite Hx1, Hx2, Hr1, Hr2.
Qed.

Lemma unflagged_decorations (e : node) :
  map unflagged (decorations e)
  = match e with
    | Text _ => []
    | Element _ _ _ ch =>
        concat (map (fun x => map unflagged (decorationsIn x)) ch)
    end.
Proof.
  destruct e as [s|t c a ch]; [reflexivity|].
  unfold decorations. now rewrite concat_map, map_map.
Qed.

Lemma updateCurrentMatch_keeps (e : node)
    (ms : list SearchMatch) (idx : option nat) :
  textContent (updateCurrentMatch e ms idx) = textContent e
  /\ map unflagged (decorations (updateCurrentMatch e ms idx))
     = map unflagged (decorations e).
Proof.
  rewrite !unflagged_decorations.
  destruct e as [s|t c a ch]; [split; reflexivity|].
  assert (Hc : textContentOf (map clearCurrent ch) = textContentOf ch
               /\ concat (map (fun x => map unflagged (decorationsIn x))
                            (map clearCurrent ch))
                  = concat (map (fun x => map unflagged (decorationsIn x)) ch)).
  { split.
    - apply textContentOf_map. apply Forall_forall. intros x _.
      apply clearCurrent_keeps.
    - rewrite map_map. apply concat_map_ext. apply Forall_forall.
      intros x _. apply clearCurrent_keeps. }
  destruct Hc as [Hc1 Hc2].
  unfold updateCurrentMatch.
  destruct idx as [k|]; [|split; [exact Hc1|exact Hc2]].
  destruct (nth_error ms k) as [m|]; [|split; [exact Hc1|exact Hc2]].
  destruct (markFirstIn_keeps (id m) (map clearCurrent ch) false)
    as [Hm1 Hm2].
  split.
  - change (textContentOf (fst (markFirstIn (id m) (map clearCurrent ch)
                                  false)) = textContentOf ch).
    now rewrite Hm1.
  - now rewrite Hm2.
Qed.

(** X13.  [updateCurrentMatch] touches nothing but the current-match class:
    the text of the element and the decorations below it (their ids and
    texts, in order) are what they were. *)
Theorem updateCurrentMatch_keeps_text_and_decorations (e : node)
    (ms : list SearchMatch) (idx : option nat) :
  textContent (updateCurrentMatch e ms idx) = textContent e
  /\ map unflagged (decorations (updateCurrentMatch e ms idx))
     = map unflagged (decorations e).
Proof. exact (updateCurrentMatch_keeps e ms idx). Qed.

End CurrentMatchKeeps.

(** *** The navigation state: further behaviour of the hook *)

Section HookResults.
Import UseSearch.

Variable Backend : Type.
Variable onSearch :
  option (jstring -> SearchOptions -> Backend -> list SearchMatch * Backend).
Variable onNavigate : option (SearchMatch -> Direction -> Backend -> Backend).
Variable onClose : option (Backend -> Backend).

Local Abbreviation World := (World Backend).
Local Abbreviation step := (step onSearch onNavigate onClose).
Local Abbreviation run := (run onSearch onNavigate onClose).
Local Abbreviation performSearch := (performSearch onSearch onNavigate).

Lemma callNavigate_keeps (m : SearchMatch) (d : Direction) (w : World) :
  searchState (callNavigate onNavigate m d w) = searchState w
  /\ matches (callNavigate onNavigate m d w) = matches w
  /\ timers (callNavigate onNavigate m d w) = timers w.
Proof. unfold callNavigate. destruct onNavigate; auto. Qed.

(** What a search with a non-blank query leaves in the search state. *)
Lemma performSearch_state
    (f : jstring -> SearchOptions -> Backend -> list SearchMatch * Backend)
    (cs ww : bool) (q : jstring) (w : World) :
  onSearch = Some f ->
  isEmpty (trim q) = false ->
  searchState (performSearch cs ww q w)
  = mkSearchState (isOpen (searchState w)) q
      (if 0 <? length (fst (f q (mkSearchOptions cs ww) (backend w)))
       then 1 else 0)
      (length (fst (f q (mkSearchOptions cs ww) (backend w))))
      (caseSensitive (searchState w)) (wholeWord (searchState w))
  /\ matches (performSearch cs ww q w)
     = fst (f q (mkSearchOptions cs ww) (backend w)).
Proof.
  intros Hf Hq. unfold UseSearch.performSearch. rewrite Hq, Hf.
  destruct (f q (mkSearchOptions cs ww) (backend w)) as [ms b'].
  destruct ms as [|m ms]; [split; reflexivity|].
  cbv zeta.
  match goal with |- context [callNavigate onNavigate m next ?x] =>
    destruct (callNavigate_keeps m next x) as (Hs & Hm & _)
  end.
  rewrite Hs, Hm. split; reflexivity.
Qed.

(** X14.  After [setQuery] with a query that is not blank, the state holds
    exactly what the backend returned for that query under the options of
    the state: the matches, their number as [totalMatches], 1 (or 0 when
    there is none) as [currentMatch], and the query as typed (not
    trimmed); open flag and options are untouched. *)
Theorem setQuery_stores_search_result
    (f : jstring -> SearchOptions -> Backend -> list SearchMatch * Backend)
    (q : jstring) (w : World) :
  onSearch = Some f ->
  isEmpty (trim q) = false ->
  let found :=
    fst (f q (mkSearchOptions (caseSensitive (searchState w))
                (wholeWord (searchState w))) (backend w)) in
  matches (step w (EvSetQuery q)) = found
  /\ searchState (step w (EvSetQuery q))
     = mkSearchState (isOpen (searchState w)) q
         (if 0 <? length found then 1 else 0) (length found)
         (caseSensitive (searchState w)) (wholeWord (searchState w)).
Proof.
  intros Hf Hq. cbv zeta.
  destruct (performSearch_state f (caseSensitive (searchState w))
              (wholeWord (searchState w)) q w Hf Hq) as [Hs Hm].
  split; [exact Hm|exact Hs].
Qed.

(** X15.  In every state the hook reaches from its initial state,
    [totalMatches] is the number of stored matches. *)
Theorem totalMatches_counts_matches (b : Backend) (es : list Event) :
  totalMatches (searchState (run (initialWorld b) es))
  = length (matches (run (initialWorld b) es)).
Proof.
  exact (proj1 (run_consistent Backend onSearch onNavigate onClose es
                  (initialWorld b) (initial_consistent Backend b))).
Qed.

(** X16.  In every state the hook reaches with at least one match, a
    navigation hands the backend the match whose 1-based position is the
    new [currentMatch], together with the direction. *)
Theorem navigate_hands_over_current_match
    (g : SearchMatch -> Direction -> Backend -> Backend)
    (b : Backend) (es : list Event) (d : Direction) :
  onNavigate = Some g ->
  matches (run (initialWorld b) es) <> [] ->
  let w := run (initialWorld b) es in
  let w' := step w (EvNavigate d) in
  exists m,
    nth_error (matches w) (currentMatch (searchState w') - 1) = Some m
    /\ calls w' = calls w ++ [CallNavigate m d]
    /\ backend w' = g m d (backend w).
Proof.
  intros Hg Hne. cbv zeta.
  set (w := run (initialWorld b) es) in *.
  assert (Hc : consistent w)
    by (apply run_consistent, initial_consistent).
  destruct Hc as [Ht Hr].
  assert (Hlen : 0 < length (matches w))
    by (destruct (matches w); [congruence|simpl; lia]).
  change (step w (EvNavigate d))
    with (navigateToMatch onNavigate (matches w)
            (currentMatch (searchState w)) d w).
  unfold navigateToMatch.
  destruct (length (matches w) =? 0) eqn:E;
    [apply Nat.eqb_eq in E; lia|].
  set (newIndex := match d with
                   | next => if length (matches w) <=? currentMatch (searchState w)
                             then 1 else currentMatch (searchState w) + 1
                   | prev => if currentMatch (searchState w) <=? 1
                             then length (matches w)
                             else currentMatch (searchState w) - 1
                   end).
  assert (Hin : 1 <= newIndex <= length (matches w)).
  { subst newIndex. destruct d.
    - destruct (length (matches w) <=? currentMatch (searchState w)) eqn:L;
        [lia|apply Nat.leb_gt in L; lia].
    - destruct (currentMatch (searchState w) <=? 1) eqn:L;
        [lia|apply Nat.leb_gt in L; lia]. }
  destruct (nth_error (matches w) (newIndex - 1)) as [m|] eqn:En.
  - exists m. unfold callNavigate. rewrite Hg. simpl.
    split; [exact En|split; reflexivity].
  - apply nth_error_None in En. lia.
Qed.

(** X17.  In every state the hook reaches, prev undoes next and next
    undoes prev: after the two navigations [currentMatch] is what it
    was. *)
Theorem next_and_prev_are_inverse (b : Backend) (es : list Event) :
  let w := run (initialWorld b) es in
  currentMatch (searchState (run w [EvNavigate next; EvNavigate prev]))
  = currentMatch (searchState w)
  /\ currentMatch (searchState (run w [EvNavigate prev; EvNavigate next]))
     = currentMatch (searchState w).
Proof.
  cbv zeta. set (w := run (initialWorld b) es).
  assert (Hc : consistent w)
    by (apply run_consistent, initial_consistent).
  assert (Hround : forall d1 d2,
            (d1 = next /\ d2 = prev) \/ (d1 = prev /\ d2 = next) ->
            currentMatch
              (searchState (run w [EvNavigate d1; EvNavigate d2]))
            = currentMatch (searchState w)).
  { intros d1 d2 Hd.
    change (run w [EvNavigate d1; EvNavigate d2])
      with (step (step w (EvNavigate d1)) (EvNavigate d2)).
    destruct (Nat.eq_dec (totalMatches (searchState w)) 0) as [H0|H0].
    - destruct Hc as [Ht _].
      assert (Hm : matches w = [])
        by (destruct (matches w); [reflexivity|simpl in Ht; lia]).
      assert (Hs : forall d, step w (EvNavigate d) = w).
      { intros d. simpl. unfold navigateToMatch. now rewrite Hm. }
      now rewrite !Hs.
    - destruct (navigate_step Backend onSearch onNavigate onClose d1 w Hc)
        as (Hc1 & Ht1 & Hcur1); [lia|].
      destruct (navigate_step Backend onSearch onNavigate onClose d2
                  (step w (EvNavigate d1)) Hc1) as (_ & _ & Hcur2); [lia|].
      rewrite Hcur2, Ht1, Hcur1. destruct Hc as [_ [[Hz _]|Hr]]; [lia|].
      destruct Hd as [[-> ->]|[-> ->]].
      + destruct (currentMatch (searchState w) =? totalMatches (searchState w))
          eqn:Q.
        * apply Nat.eqb_eq in Q. rewrite Nat.eqb_refl. lia.
        * apply Nat.eqb_neq in Q.
          destruct (currentMatch (searchState w) + 1 =? 1) eqn:Q1;
            [apply Nat.eqb_eq in Q1; lia|lia].
      + destruct (currentMatch (searchState w) =? 1) eqn:Q.
        * apply Nat.eqb_eq in Q. rewrite Nat.eqb_refl. lia.
        * apply Nat.eqb_neq in Q.
          destruct (currentMatch (searchState w) - 1
                    =? totalMatches (searchState w)) eqn:Q1;
            [apply Nat.eqb_eq in Q1; lia|lia]. }
  split; apply Hround; auto.
Qed.

(** X18.  [closeSearch] does not cancel a re-search a toggle has scheduled:
    when the timer fires after the close (its query not blank), the closed
    state holds the timer's query and the matches of a search for it
    again. *)
Theorem timer_fires_after_close
    (f : jstring -> SearchOptions -> Backend -> list SearchMatch * Backend)
    (t : Timer) (rest : list Timer) (w : World) :
  onSearch = Some f ->
  timers w = t :: rest ->
  isEmpty (trim (timerQuery t)) = false ->
  let closed := step w EvClose in
  let w' := run w [EvClose; EvTimer] in
  query (searchState closed) = []
  /\ matches closed = []
  /\ isOpen (searchState w') = false
  /\ query (searchState w') = timerQuery t
  /\ matches w'
     = fst (f (timerQuery t)
              (mkSearchOptions (closureCaseSensitive t) (closureWholeWord t))
              (backend closed)).
Proof.
  intros Hf Ht Hq. cbv zeta.
  change (run w [EvClose; EvTimer]) with (step (step w EvClose) EvTimer).
  assert (Hclosed : searchState (step w EvClose)
                    = mkSearchState false [] 0 0
                        (caseSensitive (searchState w))
                        (wholeWord (searchState w))
                    /\ matches (step w EvClose) = []
                    /\ timers (step w EvClose) = t :: rest).
  { simpl. unfold closeSearch. destruct onClose; simpl; rewrite Ht; auto. }
  destruct Hclosed as (Hs & Hm & Htm).
  split; [now rewrite Hs|]. split; [exact Hm|].
  change (step (step w EvClose) EvTimer) with (runTimer onSearch onNavigate
                                                 (step w EvClose)).
  unfold runTimer. rewrite Htm.
  match goal with |- context [UseSearch.performSearch _ _ ?cs ?ww ?q ?x] =>
    destruct (performSearch_state f cs ww q x Hf Hq) as [Hs' Hm']
  end.
  rewrite Hs', Hm'. cbn [searchState backend isOpen query].
  rewrite Hs. cbn [isOpen]. auto.
Qed.

(** A backend that returns at most [k] matches keeps the stored matches at
    or below [k]. *)
Lemma performSearch_bounded (k : nat) (cs ww : bool) (q : jstring)
    (w : World) :
  boundedSearch onSearch k ->
  length (matches (performSearch cs ww q w)) <= k.
Proof.
  unfold boundedSearch. intros Hb. unfold UseSearch.performSearch.
  destruct (isEmpty (trim q)); [simpl; lia|].
  destruct onSearch as [f|]; [|simpl; lia].
  specialize (Hb q (mkSearchOptions cs ww) (backend w)).
  destruct (f q (mkSearchOptions cs ww) (backend w)) as [ms b'].
  simpl in Hb. destruct ms as [|m ms]; [simpl; lia|].
  cbv zeta.
  match goal with |- context [callNavigate onNavigate m next ?x] =>
    destruct (callNavigate_keeps m next x) as (_ & Hm & _)
  end.
  rewrite Hm. exact Hb.
Qed.

Lemma step_bounded (k : nat) (w : World) (e : Event) :
  boundedSearch onSearch k ->
  length (matches w) <= k -> length (matches (step w e)) <= k.
Proof.
  intros Hb Hw. destruct e; simpl.
  - exact Hw.
  - unfold closeSearch. destruct onClose; simpl; lia.
  - now apply performSearch_bounded.
  - destruct (navigateToMatch_state Backend onNavigate d w)
      as (Hm & _). simpl in Hm. rewrite Hm. exact Hw.
  - unfold toggleCaseSensitive.
    destruct (isEmpty (query (searchState w))); exact Hw.
  - unfold toggleWholeWord.
    destruct (isEmpty (query (searchState w))); exact Hw.
  - unfold runTimer. destruct (timers w); [exact Hw|].
    now apply performSearch_bounded.
Qed.

Lemma run_bounded (k : nat) (es : list Event) :
  boundedSearch onSearch k ->
  forall w, length (matches w) <= k -> length (matches (run w es)) <= k.
Proof.
  intros Hb. induction es as [|e es IH]; intros w Hw; [exact Hw|].
  simpl. apply IH. now apply step_bounded.
Qed.

End HookResults.

(** *** The terminal adapter: its search callback *)

Section TerminalResults.

Variable Addon : Type.
Variable clearDecorationsOf : Addon -> Addon * option unit.
Variable findNextOf :
  jstring -> TerminalSearch.ISearchOptions -> Addon -> Addon * option bool.

Local Abbreviation onSearch :=
  (TerminalSearch.onSearch clearDecorationsOf findNextOf).

(** X19.  The search callback of the terminal adapter returns no match or
    the one synthetic match (id "terminal-match-0", the query as text, span
    from 0 to the length of the query); with a blank query, no terminal or
    no addon it returns no match and leaves the addon untouched. *)
Theorem terminal_onSearch_at_most_synthetic_match (q : jstring)
    (o : SearchOptions) (r : TerminalSearch.Refs Addon) :
  (fst (onSearch q o r) = []
   \/ exists el, TerminalSearch.terminal r = Some el
                 /\ fst (onSearch q o r) = [syntheticMatch el q])
  /\ (isEmpty (trim q) = true \/ TerminalSearch.terminal r = None
      \/ TerminalSearch.searchAddon r = None ->
      onSearch q o r = ([], r)).
Proof.
  unfold TerminalSearch.onSearch. split.
  - destruct (TerminalSearch.terminal r) as [el|]; [|now left].
    destruct (TerminalSearch.searchAddon r) as [a|]; [|now left].
    destruct (isEmpty (trim q)); [now left|].
    destruct (clearDecorationsOf a) as [a1 [[]|]]; [|now left].
    destruct (findNextOf q _ a1) as [a2 [[|]|]]; try (now left).
    right. exists el. split; reflexivity.
  - intros [Hq|[Ht|Ha]].
    + destruct (TerminalSearch.terminal r) as [el|]; [|reflexivity].
      destruct (TerminalSearch.searchAddon r) as [a|]; [|reflexivity].
      now rewrite Hq.
    + now rewrite Ht.
    + rewrite Ha. now destruct (TerminalSearch.terminal r).
Qed.

Lemma terminal_onSearch_bounded :
  boundedSearch (Some onSearch) 1.
Proof.
  intros q o r. unfold TerminalSearch.onSearch.
  destruct (TerminalSearch.terminal r) as [el|]; [|simpl; lia].
  destruct (TerminalSearch.searchAddon r) as [a|]; [|simpl; lia].
  destruct (isEmpty (trim q)); [simpl; lia|].
  destruct (clearDecorationsOf a) as [a1 [[]|]]; [|simpl; lia].
  destruct (findNextOf q _ a1) as [a2 [[|]|]]; simpl; lia.
Qed.

(** X20.  With the terminal adapter as backend, in every state the hook
    reaches [totalMatches] and [currentMatch] are at most 1, whatever the
    terminal holds: the counter never reads beyond "1 of 1". *)
Theorem terminal_counters_at_most_one
    (onNavigate : option (SearchMatch -> UseSearch.Direction
                          -> TerminalSearch.Refs Addon
                          -> TerminalSearch.Refs Addon))
    (onClose : option (TerminalSearch.Refs Addon
                       -> TerminalSearch.Refs Addon))
    (r : TerminalSearch.Refs Addon) (es : list UseSearch.Event) :
  let st := UseSearch.searchState
              (UseSearch.run (Some onSearch) onNavigate onClose
                 (UseSearch.initialWorld r) es) in
  UseSearch.totalMatches st <= 1 /\ UseSearch.currentMatch st <= 1.
Proof.
  cbv zeta.
  pose proof (run_bounded _ (Some onSearch) onNavigate onClose 1 es
                terminal_onSearch_bounded (UseSearch.initialWorld r)) as Hb.
  pose proof (run_consistent _ (Some onSearch) onNavigate onClose es
                (UseSearch.initialWorld r) (initial_consistent _ r))
    as [Ht Hr].
  simpl in Hb. specialize (Hb (Nat.le_0_l 1)).
  cbv zeta in Ht, Hr. lia.
Qed.

End TerminalResults.

(** *** The renderer: which decoration is flagged current *)

Section CurrentFlag.

Lemma isCurrent_span (ms : list SearchMatch) (cur : option nat)
    (m : SearchMatch) (t : jstring) :
  isCurrent (highlightSpan ms cur m t)
  = match cur with
    | None => false
    | Some k =>
        match findIndex (id m) ms with
        | Some i => i =? k
        | None => false
        end
    end.
Proof.
  unfold highlightSpan, isCurrent, hasClass.
  destruct cur as [k|]; [|reflexivity].
  destruct (findIndex (id m) ms) as [i|]; [|reflexivity].
  destruct (i =? k); reflexivity.
Qed.

Lemma findIndex_nth (ident : jstring) (ms : list SearchMatch) :
  forall i, findIndex ident ms = Some i ->
            exists m, nth_error ms i = Some m /\ id m = ident.
Proof.
  induction ms as [|m ms IH]; intros i H; [discriminate|].
  simpl in H. destruct (jeqb (id m) ident) eqn:E.
  - inversion H; subst. exists m. split; [reflexivity|].
    now apply jeqb_eq.
  - destruct (findIndex ident ms) as [j|]; [|discriminate].
    inversion H; subst. destruct (IH j eq_refl) as (m' & Hm & Hid).
    exists m'. split; assumption.
Qed.

(** The decoration of a text node is flagged only for the match at the
    current index. *)
Lemma leafDecorations_flag (ms : list SearchMatch) (cur : option nat)
    (leaf : nat * jstring) (d : decoration) :
  In d (leafDecorations ms cur leaf) ->
  snd d = true ->
  exists k m, cur = Some k /\ nth_error ms k = Some m
              /\ fst (fst d) = Some (id m).
Proof.
  unfold leafDecorations, highlightTextNode.
  destruct (rev (filter (fallsWithin (fst leaf) (fst leaf + length (snd leaf)))
                   (sortDesc ms))) as [|m r]; [intros []|].
  cbv zeta. rewrite !decorationsOf_app, !decorationsOf_optional.
  rewrite decorationsOf_single, decorationsIn_span. cbn [app].
  intros [<-|[]] Hflag. cbn [snd] in Hflag. rewrite isCurrent_span in Hflag.
  destruct cur as [k|]; [|discriminate].
  destruct (findIndex (id m) ms) as [i|] eqn:E; [|discriminate].
  apply Nat.eqb_eq in Hflag. subst i.
  destruct (findIndex_nth _ _ _ E) as (m' & Hm & Hid).
  exists k, m'. cbn [fst]. rewrite Hid. auto.
Qed.

(** X21.  [highlightMatches] flags as current only a decoration of the
    match at [currentMatchIndex]: with an undefined index no decoration is
    flagged, and a flagged decoration carries the id of the match at that
    index. *)
Theorem highlightMatches_flags_only_current_index (e : node)
    (ms : list SearchMatch) (cur : option nat) (d : decoration) :
  Forall wellFormed ms ->
  In d (decorations (highlightMatches e ms cur)) ->
  snd d = true ->
  exists k m, cur = Some k /\ nth_error ms k = Some m
              /\ fst (fst d) = Some (id m).
Proof.
  intros Hwf Hd Hflag. unfold highlightMatches in Hd.
  pose proof (decorations_removeHighlights e) as Hclean.
  destruct (length ms =? 0).
  - rewrite Hclean in Hd. destruct Hd.
  - destruct (removeHighlights e) as [s|t c a ch]; [destruct Hd|].
    unfold decorations in Hd.
    change (In d (decorationsOf
                    (fst (highlightNodes ms (sortDesc ms) cur ch 0)))) in Hd.
    rewrite (highlightNodes_decorations ms cur ch Hwf Hclean 0) in Hd.
    apply in_concat in Hd. destruct Hd as (ds & Hds & Hd).
    apply in_map_iff in Hds. destruct Hds as (leaf & <- & _).
    exact (leafDecorations_flag ms cur leaf d Hd Hflag).
Qed.

End CurrentFlag.

(** *** The document adapter: a search leaves no trace for the next one *)

Section SearchAgain.

(** X22.  On a page whose searchable elements are normalized and carry no
    decoration, a search after an earlier search gives what it gives on
    the untouched page (the same matches and the same decorated elements):
    the earlier search leaves no trace. *)
Theorem onSearch_forgets_previous_search (q1 q2 : jstring)
    (o1 o2 : SearchOptions) (pg : RichOutputSearch.Page) :
  Forall normalized (RichOutputSearch.searchableElements pg) ->
  Forall (fun e => decorations e = [])
    (RichOutputSearch.searchableElements pg) ->
  RichOutputSearch.onSearch q2 o2
    (snd (RichOutputSearch.onSearch q1 o1 pg))
  = RichOutputSearch.onSearch q2 o2 pg.
Proof.
  intros Hn Hc.
  assert (Hid : Forall (fun x => removeHighlights x = x)
                  (RichOutputSearch.searchableElements pg)).
  { eapply Forall_impl; [|exact Hc]. intros e. apply removeHighlights_root_id. }
  assert (Hels : (if RichOutputSearch.currentContainer pg
                  then map removeHighlights
                         (RichOutputSearch.searchableElements pg)
                  else RichOutputSearch.searchableElements pg)
                 = RichOutputSearch.searchableElements pg).
  { destruct (RichOutputSearch.currentContainer pg); [|reflexivity].
    now apply map_id_Forall. }
  unfold RichOutputSearch.onSearch at 1 3. cbv zeta.
  rewrite Hels.
  unfold RichOutputSearch.onSearch. cbv zeta. rewrite Hels.
  cbn [snd RichOutputSearch.currentContainer
       RichOutputSearch.searchableElements].
  rewrite (Forall2_map_eq removeHighlights
             (RichOutputSearch.highlightEach
                (RichOutputSearch.collectMatches q1 o1
                   (RichOutputSearch.searchableElements pg) 0)
                (RichOutputSearch.collectMatches q1 o1
                   (RichOutputSearch.searchableElements pg) 0) 0
                (RichOutputSearch.searchableElements pg))
             (RichOutputSearch.searchableElements pg)).
  - reflexivity.
  - apply highlightEach_restorable; auto.
    + apply collectMatches_wellFormed.
    + now apply Forall2_refl_eq.
Qed.

End SearchAgain.

(** *** The document adapter: what a search returns *)

Section PageSearch.

Lemma collectMatches_sound (q : jstring) (o : SearchOptions)
    (els : list node) :
  forall index m,
    In m (RichOutputSearch.collectMatches q o els index) ->
    exists e,
      index <= element m
      /\ nth_error els (element m - index) = Some e
      /\ matchesAt q o (extractTextContent e) (startIndex m)
      /\ endIndex m = startIndex m + length q
      /\ text m = substring (extractTextContent e) (startIndex m)
                    (endIndex m).
Proof.
  induction els as [|el els IH]; intros index m H; [destruct H|].
  cbn [RichOutputSearch.collectMatches] in H. apply in_app_or in H.
  destruct H as [H|H].
  - destruct (findTextMatches_scan el index q o
                (RichOutputSearch.elementIdOf index)) as (ms & E & Hs).
    rewrite E in H. apply scan_sound in Hs. rewrite Forall_forall in Hs.
    destruct (Hs m H) as (_ & Hm & _ & Ht & Hr).
    apply matchAtoms_compiledPattern in Hm. destruct Hm as [He Hm].
    exists el. rewrite Hr, Nat.sub_diag. auto.
  - destruct (IH (S index) m H) as (e & Hi & Hn & Hrest).
    exists e. split; [lia|]. split; [|exact Hrest].
    replace (element m - index) with (S (element m - S index)) by lia.
    exact Hn.
Qed.

Lemma collectMatches_complete (q : jstring) (o : SearchOptions)
    (els : list node) :
  forall index i e j,
    nth_error els i = Some e ->
    j <= length (extractTextContent e) ->
    matchesAt q o (extractTextContent e) j ->
    exists m,
      In m (RichOutputSearch.collectMatches q o els index)
      /\ element m = index + i
      /\ startIndex m <= j
      /\ (j < endIndex m \/ j = startIndex m).
Proof.
  induction els as [|el els IH]; intros index i e j He Hj Hm;
    [destruct i; discriminate|].
  cbn [RichOutputSearch.collectMatches]. destruct i as [|i].
  - cbn [nth_error] in He. inversion He; subst el.
    destruct (findTextMatches_scan e index q o
                (RichOutputSearch.elementIdOf index)) as (ms & -> & Hs).
    destruct (scan_complete _ _ _ _ _ _ _ _ Hs j (j + length q))
      as (m & Hin & H1 & H2).
    + lia.
    + apply matchAtoms_compiledPattern. auto.
    + exists m. split; [apply in_or_app; now left|].
      apply scan_sound in Hs. rewrite Forall_forall in Hs.
      destruct (Hs m Hin) as (_ & _ & _ & _ & Hr).
      split; [lia|]. split; assumption.
  - cbn [nth_error] in He.
    destruct (IH (S index) i e j He Hj Hm) as (m & Hin & Hel & H1 & H2).
    exists m. split; [apply in_or_app; now right|].
    split; [lia|]. split; assumption.
Qed.

Lemma onSearch_searches_page (q : jstring) (o : SearchOptions)
    (pg : RichOutputSearch.Page) :
  Forall (fun e => decorations e = [])
    (RichOutputSearch.searchableElements pg) ->
  fst (RichOutputSearch.onSearch q o pg)
  = RichOutputSearch.collectMatches q o
      (RichOutputSearch.searchableElements pg) 0.
Proof.
  intros Hc. unfold RichOutputSearch.onSearch. cbn [fst].
  destruct (RichOutputSearch.currentContainer pg); [|reflexivity].
  rewrite map_id_Forall; [reflexivity|].
  eapply Forall_impl; [|exact Hc]. intros e. apply removeHighlights_root_id.
Qed.

(** X23.  On a page without decorations, every match the document search
    returns refers to a searchable element of the page and is an
    occurrence of the query in the searched text of that element: it starts
    where the query occurs, is as long as the query, and holds the matched
    slice as its [text]. *)
Theorem onSearch_returns_occurrences (q : jstring) (o : SearchOptions)
    (pg : RichOutputSearch.Page) :
  Forall (fun e => decorations e = [])
    (RichOutputSearch.searchableElements pg) ->
  Forall (fun m =>
            exists e,
              nth_error (RichOutputSearch.searchableElements pg) (element m)
              = Some e
              /\ matchesAt q o (extractTextContent e) (startIndex m)
              /\ endIndex m = startIndex m + length q
              /\ text m = substring (extractTextContent e) (startIndex m)
                            (endIndex m))
    (fst (RichOutputSearch.onSearch q o pg)).
Proof.
  intros Hc. rewrite (onSearch_searches_page q o pg Hc).
  apply Forall_forall. intros m Hm.
  destruct (collectMatches_sound q o _ 0 m Hm) as (e & _ & Hn & Hrest).
  exists e. rewrite Nat.sub_0_r in Hn. split; assumption.
Qed.

(** X24.  On a page without decorations the document search misses no
    occurrence in any searchable element: wherever the query occurs in the
    searched text of an element, a returned match of that element starts
    there or is still running there. *)
Theorem onSearch_covers_every_occurrence (q : jstring) (o : SearchOptions)
    (pg : RichOutputSearch.Page) (i j : nat) (e : node) :
  Forall (fun e => decorations e = [])
    (RichOutputSearch.searchableElements pg) ->
  nth_error (RichOutputSearch.searchableElements pg) i = Some e ->
  j <= length (extractTextContent e) ->
  matchesAt q o (extractTextContent e) j ->
  exists m,
    In m (fst (RichOutputSearch.onSearch q o pg))
    /\ element m = i
    /\ startIndex m <= j
    /\ (j < endIndex m \/ j = startIndex m).
Proof.
  intros Hc He Hj Hm. rewrite (onSearch_searches_page q o pg Hc).
  exact (collectMatches_complete q o _ 0 i e j He Hj Hm).
Qed.

End PageSearch.

(** *** The document adapter: navigation *)

Section NavigationResults.

Import RichOutputSession.


(** What the element at position [i] gets when it is processed. *)
Local Abbreviation elementUpdate all mt i :=
  (fun el : node =>
     updateCurrentMatch el (filter (fun em => element em =? i) all)
       (findIndex (id mt) (filter (fun em => element em =? i) all))).







Lemma sameUpToCurrent_updateCurrentMatch (e : node) (ms : list SearchMatch)
    (idx : option nat) :
  sameUpToCurrent e (updateCurrentMatch e ms idx).
Proof. exact (updateCurrentMatch_keeps e ms idx). Qed.

Lemma Forall2_sameUpToCurrent_refl (l : list node) :
  Forall2 sameUpToCurrent l l.
Proof. induction l; constructor; auto. split; reflexivity. Qed.

Lemma updateAt_sameUpToCurrent (f : node -> node) (origs : list node) :
  (forall x, sameUpToCurrent x (f x)) ->
  forall els i,
    Forall2 sameUpToCurrent origs els ->
    Forall2 sameUpToCurrent origs (RichOutputSearch.updateAt f i els).
Proof.
  intros Hf els i H. revert i.
  induction H as [|o x origs els Hox H IH]; intros i;
    [destruct i; constructor|].
  destruct i as [|i]; cbn [RichOutputSearch.updateAt].
  - constructor; [|exact H].
    destruct Hox as [H1 H2]. destruct (Hf x) as [H3 H4].
    split; congruence.
  - constructor; [exact Hox|apply IH].
Qed.

Lemma navigateEach_sameUpToCurrent (all : list SearchMatch)
    (mt : SearchMatch) (origs : list node) :
  forall todo processed els,
    Forall2 sameUpToCurrent origs els ->
    Forall2 sameUpToCurrent origs (navigateEach all mt todo processed els).
Proof.
  induction todo as [|m r IH]; intros processed els H; [exact H|].
  cbn [navigateEach].
  destruct (existsb (Nat.eqb (element m)) processed); [now apply IH|].
  apply IH. apply updateAt_sameUpToCurrent; [|exact H].
  intros x. apply sameUpToCurrent_updateCurrentMatch.
Qed.

(** X26.  [onNavigate] changes nothing on the page but which decorations
    carry the current-match class: every searchable element keeps its text
    and its decorations (ids and texts, in order), no element is added or
    dropped, and the stored matches stay as they are. *)
Theorem onNavigate_keeps_text_and_decorations (mt : option SearchMatch)
    (d : UseSearch.Direction) (s : Session) :
  Forall2 sameUpToCurrent
    (RichOutputSearch.searchableElements (page s))
    (RichOutputSearch.searchableElements (page (onNavigate mt d s)))
  /\ allMatchesRef (onNavigate mt d s) = allMatchesRef s
  /\ RichOutputSearch.currentContainer (page (onNavigate mt d s))
     = RichOutputSearch.currentContainer (page s).
Proof.
  unfold onNavigate.
  destruct mt as [mt|];
    [|split; [apply Forall2_sameUpToCurrent_refl|split; reflexivity]].
  destruct (findIndex (id mt) (allMatchesRef s));
    [|split; [apply Forall2_sameUpToCurrent_refl|split; reflexivity]].
  cbn [page allMatchesRef RichOutputSearch.searchableElements
       RichOutputSearch.currentContainer].
  split; [|split; reflexivity].
  apply navigateEach_sameUpToCurrent, Forall2_sameUpToCurrent_refl.
Qed.












End NavigationResults.

(** *** The further properties on concrete pages *)

Section FurtherExamples.

Lemma findTextMatches_count_bound_witness :
  lit "foo" <> []
  /\ exists ms,
       findTextMatches fooFoo 0 (lit "foo") insensitive (lit "e") = Some ms
       /\ length ms * length (lit "foo") <= length (extractTextContent fooFoo).
Proof.
  split.
  - discriminate.
  - apply (findTextMatches_count_bound fooFoo 0 (lit "foo") insensitive
             (lit "e")).
    discriminate.
Defined.

Lemma whole_word_needs_word_before_nonword_start_witness :
  wholeWord (mkSearchOptions false true) = true
  /\ isWordChar "."%char = false
  /\ exists ms,
       findTextMatches (div [Text (lit "a.net .net")]) 0 dotNet
         (mkSearchOptions false true) (lit "e") = Some ms
       /\ Forall (fun m =>
                    0 < startIndex m
                    /\ wordAt (extractTextContent
                                 (div [Text (lit "a.net .net")]))
                         (startIndex m - 1) = true) ms.
Proof.
  split; [reflexivity|]. split; [reflexivity|].
  apply (whole_word_needs_word_before_nonword_start
           (div [Text (lit "a.net .net")]) 0 "."%char (lit "net")
           (mkSearchOptions false true) (lit "e")); reflexivity.
Defined.

Lemma fooFoo_normalized : normalized fooFoo.
Proof. simpl. repeat split. discriminate. Qed.

Lemma highlight_then_remove_restores_element_witness :
  Forall wellFormed fooMatches
  /\ normalized fooFoo
  /\ decorations fooFoo = []
  /\ removeHighlights (highlightMatches fooFoo fooMatches (Some 0)) = fooFoo.
Proof.
  split; [exact fooMatches_wellFormed|]. split; [exact fooFoo_normalized|].
  split; [reflexivity|].
  apply (highlight_then_remove_restores_element fooFoo fooMatches (Some 0)).
  - exact fooMatches_wellFormed.
  - exact fooFoo_normalized.
  - reflexivity.
Defined.

Lemma highlightMatches_replaces_previous_highlights_witness :
  Forall wellFormed fooMatches
  /\ normalized fooFoo
  /\ decorations fooFoo = []
  /\ highlightMatches (highlightMatches fooFoo fooMatches (Some 0))
       fooMatches None
     = highlightMatches fooFoo fooMatches None.
Proof.
  split; [exact fooMatches_wellFormed|]. split; [exact fooFoo_normalized|].
  split; [reflexivity|].
  apply (highlightMatches_replaces_previous_highlights fooFoo fooMatches
           fooMatches (Some 0) None).
  - exact fooMatches_wellFormed.
  - exact fooFoo_normalized.
  - reflexivity.
Defined.

Lemma onClose_after_onSearch_restores_page_witness :
  Forall normalized (RichOutputSearch.searchableElements (pageOf "foo foo"))
  /\ Forall (fun e => decorations e = [])
       (RichOutputSearch.searchableElements (pageOf "foo foo"))
  /\ RichOutputSearch.onClose
       (snd (RichOutputSearch.onSearch (lit "foo") insensitive
               (pageOf "foo foo")))
     = RichOutputSearch.mkPage
         (RichOutputSearch.searchableElements (pageOf "foo foo")) false.
Proof.
  assert (Hn : Forall normalized
                 (RichOutputSearch.searchableElements (pageOf "foo foo"))).
  { repeat constructor. discriminate. }
  assert (Hc : Forall (fun e => decorations e = [])
                 (RichOutputSearch.searchableElements (pageOf "foo foo"))).
  { repeat constructor. }
  split; [exact Hn|]. split; [exact Hc|].
  exact (onClose_after_onSearch_restores_page (lit "foo") insensitive
           (pageOf "foo foo") Hn Hc).
Defined.

Lemma setQuery_stores_search_result_witness :
  Some RichOutputSearch.onSearch = Some RichOutputSearch.onSearch
  /\ isEmpty (trim (lit "foo")) = false
  /\ UseSearch.totalMatches
       (UseSearch.searchState
          (UseSearch.step (Some RichOutputSearch.onSearch) None None
             (UseSearch.initialWorld (pageOf "foo foo foo"))
             (UseSearch.EvSetQuery (lit "foo")))) = 3.
Proof.
  split; [reflexivity|]. split; [reflexivity|].
  destruct (setQuery_stores_search_result _
              (Some RichOutputSearch.onSearch) None None
              RichOutputSearch.onSearch (lit "foo")
              (UseSearch.initialWorld (pageOf "foo foo foo"))
              eq_refl eq_refl) as [_ Hs].
  rewrite Hs. reflexivity.
Defined.

Lemma navigate_hands_over_current_match_witness :
  Some keepPage = Some keepPage
  /\ UseSearch.matches
       (UseSearch.run (Some RichOutputSearch.onSearch) (Some keepPage) None
          (UseSearch.initialWorld (pageOf "foo foo foo"))
          [UseSearch.EvSetQuery (lit "foo")]) <> []
  /\ exists m,
       nth_error
         (UseSearch.matches
            (UseSearch.run (Some RichOutputSearch.onSearch) (Some keepPage)
               None (UseSearch.initialWorld (pageOf "foo foo foo"))
               [UseSearch.EvSetQuery (lit "foo")]))
         (UseSearch.currentMatch
            (UseSearch.searchState
               (UseSearch.run (Some RichOutputSearch.onSearch)
                  (Some keepPage) None
                  (UseSearch.initialWorld (pageOf "foo foo foo"))
                  [UseSearch.EvSetQuery (lit "foo");
                   UseSearch.EvNavigate UseSearch.next])) - 1) = Some m
       /\ startIndex m = 4.
Proof.
  split; [reflexivity|]. split; [vm_compute; discriminate|].
  destruct (navigate_hands_over_current_match _
              (Some RichOutputSearch.onSearch) (Some keepPage) None keepPage
              (pageOf "foo foo foo") [UseSearch.EvSetQuery (lit "foo")]
              UseSearch.next eq_refl) as (m & Hm & _).
  - vm_compute. discriminate.
  - exists m. split; [exact Hm|].
    vm_compute in Hm. inversion Hm. reflexivity.
Defined.

Lemma timer_fires_after_close_witness :
  Some RichOutputSearch.onSearch = Some RichOutputSearch.onSearch
  /\ UseSearch.timers toggledWorld
     = [UseSearch.mkTimer false false (lit "Foo")]
  /\ isEmpty (trim (lit "Foo")) = false
  /\ UseSearch.isOpen
       (UseSearch.searchState
          (UseSearch.run (Some RichOutputSearch.onSearch) None None
             toggledWorld [UseSearch.EvClose; UseSearch.EvTimer])) = false
  /\ UseSearch.query
       (UseSearch.searchState
          (UseSearch.run (Some RichOutputSearch.onSearch) None None
             toggledWorld [UseSearch.EvClose; UseSearch.EvTimer]))
     = lit "Foo".
Proof.
  split; [reflexivity|]. split; [reflexivity|]. split; [reflexivity|].
  destruct (timer_fires_after_close _ (Some RichOutputSearch.onSearch)
              None None RichOutputSearch.onSearch
              (UseSearch.mkTimer false false (lit "Foo")) [] toggledWorld
              eq_refl eq_refl eq_refl) as (_ & _ & Ho & Hq & _).
  split; [exact Ho|exact Hq].
Defined.

Lemma escapeRegExp_injective_witness :
  escapeRegExp (lit "a.b") = escapeRegExp (lit "a.b")
  /\ lit "a.b" = lit "a.b".
Proof.
  split; [reflexivity|].
  apply (escapeRegExp_injective (lit "a.b") (lit "a.b")). reflexivity.
Defined.

Lemma terminal_onSearch_at_most_synthetic_match_witness :
  TerminalSearch.terminal (TerminalSearch.mkRefs (None : option nat) (Some 7))
  = None
  /\ TerminalSearch.onSearch (fun a => (a, Some tt))
       (fun _ _ a => (S a, Some true)) (lit "foo") insensitive
       (TerminalSearch.mkRefs None (Some 7))
     = ([], TerminalSearch.mkRefs None (Some 7)).
Proof.
  split; [reflexivity|].
  apply (proj2 (terminal_onSearch_at_most_synthetic_match nat
                  (fun a => (a, Some tt)) (fun _ _ a => (S a, Some true))
                  (lit "foo") insensitive
                  (TerminalSearch.mkRefs None (Some 7)))).
  right. left. reflexivity.
Defined.

Lemma highlightMatches_flags_only_current_index_witness :
  Forall wellFormed fooMatches
  /\ In (Some (lit "search-element-0-0"), lit "foo", true)
       (decorations (highlightMatches fooFoo fooMatches (Some 0)))
  /\ exists k m, Some 0 = Some k /\ nth_error fooMatches k = Some m
                 /\ Some (lit "search-element-0-0") = Some (id m).
Proof.
  assert (Hd : In (Some (lit "search-element-0-0"), lit "foo", true)
                 (decorations (highlightMatches fooFoo fooMatches (Some 0)))).
  { left. reflexivity. }
  split; [exact fooMatches_wellFormed|]. split; [exact Hd|].
  exact (highlightMatches_flags_only_current_index fooFoo fooMatches (Some 0)
           (Some (lit "search-element-0-0"), lit "foo", true)
           fooMatches_wellFormed Hd eq_refl).
Defined.

Lemma onSearch_forgets_previous_search_witness :
  Forall normalized (RichOutputSearch.searchableElements (pageOf "foo foo"))
  /\ Forall (fun e => decorations e = [])
       (RichOutputSearch.searchableElements (pageOf "foo foo"))
  /\ RichOutputSearch.onSearch (lit "oo") insensitive
       (snd (RichOutputSearch.onSearch (lit "foo") insensitive
               (pageOf "foo foo")))
     = RichOutputSearch.onSearch (lit "oo") insensitive (pageOf "foo foo").
Proof.
  assert (Hn : Forall normalized
                 (RichOutputSearch.searchableElements (pageOf "foo foo"))).
  { repeat constructor. discriminate. }
  assert (Hc : Forall (fun e => decorations e = [])
                 (RichOutputSearch.searchableElements (pageOf "foo foo"))).
  { repeat constructor. }
  split; [exact Hn|]. split; [exact Hc|].
  exact (onSearch_forgets_previous_search (lit "foo") (lit "oo") insensitive
           insensitive (pageOf "foo foo") Hn Hc).
Defined.



Lemma onSearch_returns_occurrences_witness :
  Forall (fun e => decorations e = [])
    (RichOutputSearch.searchableElements (pageOf "foo foo"))
  /\ Forall (fun m =>
               exists e,
                 nth_error
                   (RichOutputSearch.searchableElements (pageOf "foo foo"))
                   (element m) = Some e
                 /\ matchesAt (lit "foo") insensitive (extractTextContent e)
                      (startIndex m)
                 /\ endIndex m = startIndex m + length (lit "foo")
                 /\ text m = substring (extractTextContent e) (startIndex m)
                               (endIndex m))
       (fst (RichOutputSearch.onSearch (lit "foo") insensitive
               (pageOf "foo foo"))).
Proof.
  assert (Hc : Forall (fun e => decorations e = [])
                 (RichOutputSearch.searchableElements (pageOf "foo foo"))).
  { repeat constructor. }
  split; [exact Hc|].
  exact (onSearch_returns_occurrences (lit "foo") insensitive
           (pageOf "foo foo") Hc).
Defined.

Lemma onSearch_covers_every_occurrence_witness :
  Forall (fun e => decorations e = [])
    (RichOutputSearch.searchableElements (pageOf "foo foo"))
  /\ nth_error (RichOutputSearch.searchableElements (pageOf "foo foo")) 0
     = Some fooFoo
  /\ 4 <= length (extractTextContent fooFoo)
  /\ matchesAt (lit "foo") insensitive (extractTextContent fooFoo) 4
  /\ exists m,
       In m (fst (RichOutputSearch.onSearch (lit "foo") insensitive
                    (pageOf "foo foo")))
       /\ element m = 0
       /\ startIndex m <= 4
       /\ (4 < endIndex m \/ 4 = startIndex m).
Proof.
  assert (Hc : Forall (fun e => decorations e = [])
                 (RichOutputSearch.searchableElements (pageOf "foo foo"))).
  { repeat constructor. }
  assert (Hl : 4 <= length (extractTextContent fooFoo))
    by (vm_compute; lia).
  assert (Hm : matchesAt (lit "foo") insensitive (extractTextContent fooFoo)
                 4).
  { apply (proj1 (matchAtoms_compiledPattern (lit "foo") insensitive
                    (extractTextContent fooFoo) 4 7)).
    reflexivity. }
  split; [exact Hc|]. split; [reflexivity|]. split; [exact Hl|].
  split; [exact Hm|].
  exact (onSearch_covers_every_occurrence (lit "foo") insensitive
           (pageOf "foo foo") 0 4 fooFoo Hc eq_refl Hl Hm).
Defined.

End FurtherExamples.
